(** * The request-dispatch core of KaliSocialMediaScraper

    A shallow embedding of [scraper/core/rate_limiter.py],
    [scraper/core/proxy_manager.py] and the request path of
    [scraper/core/base_scraper.py], followed by the properties of the
    specification that concern them.

    Conventions of the embedding.
    - A [datetime] is the number of microseconds since [datetime.min], an
      integer; a [timedelta] is a number of microseconds.  Every call of
      [datetime.now()] is an argument of the function that makes it.
    - A Python [float] is the rational number ([Q]) that it stands for, and
      an operation on floats that rounds is the exact operation followed by
      [binary64], the rounding to the nearest number of 53 significant bits,
      ties to even: the products by 0.8 and by 1.5 of the multiplier, the
      arithmetic of [_calculate_delay] and of [random.uniform], and
      [total_seconds].  Comparison, [min], [max] and the doubling of a
      multiplier are exact on floats and have no rounding; the duration of
      the backoff, which [timedelta] rounds to the microsecond, is taken
      from the exact product.  The range of the exponent is not modelled:
      infinities and subnormal numbers need magnitudes above 1e308 or below
      1e-307.
    - A [str] is the string of the bytes of its UTF-8 encoding, which is
      what a string literal of this file denotes: a character below U+0080
      is one byte, and a character from U+0080 to U+00FF is the byte 194 or
      195 followed by a byte from 128 to 191.  [str.lower] is given for the
      characters below U+0100, and leaves the other characters as they are.
    - A draw of the random generator is an argument of the function that
      makes it.
    - A method is a function from the object to a result and the object
      after the call; an exception is a result, and what the method had
      already stored before raising stays stored. *)

From Stdlib Require Import ZArith QArith Qminmax Qabs Qround Qpower Lia Lqa Ascii.
From stdpp Require Import base option list gmap strings.

Local Open Scope Z_scope.

(** ** Python values shared by the three classes *)

Inductive exn : Type :=
| KeyError (key : string)
| AttributeError
| ClientResponseError (status : Z)
| ClientError
| TimeoutError
| OtherError.

Inductive res (A : Type) : Type :=
| Ok (a : A)
| Raise (e : exn).
Arguments Ok {A} a.
Arguments Raise {A} e.

(** A method of an object of type [S] returning an [A]. *)
Definition Py (S A : Type) : Type := S → res A * S.

#[global] Instance py_ret {S} : MRet (Py S) := λ A a self, (Ok a, self).

#[global] Instance py_bind {S} : MBind (Py S) := λ A B f m self,
  match m self with
  | (Ok a, self') => f a self'
  | (Raise e, self') => (Raise e, self')
  end.

Definition raise {S A} (e : exn) : Py S A := λ self, (Raise e, self).
Definition get {S} : Py S S := λ self, (Ok self, self).
Definition modify {S} (f : S → S) : Py S unit := λ self, (Ok tt, f self).

(** [str.lower] on a character below U+0080: the letters [A] to [Z]. *)
Definition lower_ascii (c : ascii) : ascii :=
  let n := nat_of_ascii c in
  if ((65 <=? n)%nat && (n <=? 90)%nat)%bool then ascii_of_nat (n + 32) else c.

(** [str.lower] on a character from U+00C0 to U+00FF, of which [c] is the
    byte that follows the byte 195: the capital letters are U+00C0 to
    U+00DE, which leaves out the multiplication sign U+00D7, and the small
    letter is 32 further. *)
Definition lower_latin (c : ascii) : ascii :=
  let n := nat_of_ascii c in
  if ((128 <=? n)%nat && (n <=? 158)%nat && negb (n =? 151)%nat)%bool
  then ascii_of_nat (n + 32) else c.

(** [str.lower]: character by character.  The characters from U+0080 to
    U+00BF, which follow the byte 194, have no capital letter. *)
Fixpoint lower (s : string) : string :=
  match s with
  | EmptyString => EmptyString
  | String c s' =>
      if (nat_of_ascii c =? 195)%nat then
        match s' with
        | String d s'' => String c (String (lower_latin d) (lower s''))
        | EmptyString => String c EmptyString
        end
      else String (lower_ascii c) (lower s')
  end.

(** The strings whose characters are all below U+0100, those on which
    [lower] is [str.lower]. *)
Fixpoint is_latin1 (s : string) : bool :=
  match s with
  | EmptyString => true
  | String c s' =>
      let n := nat_of_ascii c in
      if (n <? 128)%nat then is_latin1 s'
      else if ((n =? 194)%nat || (n =? 195)%nat)%bool then
        match s' with
        | String d s'' =>
            ((128 <=? nat_of_ascii d)%nat && (nat_of_ascii d <=? 191)%nat
             && is_latin1 s'')%bool
        | EmptyString => false
        end
      else false
  end.

(** Truth value of a [str]: the empty string is false. *)
Definition truthy (s : string) : bool :=
  match s with EmptyString => false | _ => true end.

(** Truth value of an optional [str] argument: [None] and the empty
    string are false. *)
Definition is_set_platform (platform : option string) : bool :=
  match platform with Some p => truthy p | None => false end.

Definition Qltb (x y : Q) : bool := negb (Qle_bool y x).

(** Microseconds in a second, a minute, an hour, a day. *)
Definition SECOND : Z := 1000000.
Definition MINUTE : Z := 60 * SECOND.
Definition HOUR : Z := 60 * MINUTE.
Definition DAY : Z := 24 * HOUR.

(** [round] of Python: to the nearest integer, ties to the even one. *)
Definition round_half_even (x : Q) : Z :=
  let f := Qfloor x in
  let r := (x - inject_Z f)%Q in
  match (r ?= 1 # 2)%Q with
  | Lt => f
  | Gt => f + 1
  | Eq => if Z.even f then f else f + 1
  end.

(** [timedelta(seconds=x)] for a float [x]: a whole number of microseconds. *)
Definition timedelta_seconds (x : Q) : Z := round_half_even (x * inject_Z SECOND)%Q.

(** The exponent of a positive number [x]: the [e] with
    [2^e <= x < 2^(e+1)]. *)
Definition exponent (x : Q) : Z :=
  let e := Z.log2 (Qnum x) - Z.log2 (Zpos (Qden x)) in
  if Qle_bool (2 ^ e) x then e else e - 1.

(** A positive number rounded to 53 significant bits, to the nearest one
    and at a tie to the even one. *)
Definition nearest (x : Q) : Q :=
  let e := exponent x in
  (inject_Z (round_half_even (x * 2 ^ (52 - e))) * 2 ^ (e - 52))%Q.

(** The float that an operation on floats returns for the exact result
    [x]. *)
Definition binary64 (x : Q) : Q :=
  match (x ?= 0)%Q with
  | Eq => 0%Q
  | Gt => nearest x
  | Lt => (- nearest (- x))%Q
  end.
Arguments binary64 x : simpl never.

(** Half the distance from 1 to the next float: the largest relative error
    of a rounding. *)
Definition ROUNDOFF : Q := 1 # 9007199254740992.

(** The floats that the literals [0.8] and [0.1] stand for. *)
Definition FLOAT_0_8 : Q := 3602879701896397 # 4503599627370496.
Definition FLOAT_0_1 : Q := 3602879701896397 # 36028797018963968.

(** [td.total_seconds()]: the quotient of two integers, as a float. *)
Definition total_seconds (td : Z) : Q := binary64 ((td # 1) / inject_Z SECOND).

(** [d[k]] on a [defaultdict]: a missing key is stored with the default. *)
Definition dd_getitem {S V} (field : S → gmap string V)
    (store : gmap string V → S → S) (dflt : V) (k : string) : Py S V := λ self,
  match field self !! k with
  | Some v => (Ok v, self)
  | None => (Ok dflt, store (<[k := dflt]> (field self)) self)
  end.

(** [d[k] = v]. *)
Definition dd_setitem {S V} (field : S → gmap string V)
    (store : gmap string V → S → S) (k : string) (v : V) : Py S unit := λ self,
  (Ok tt, store (<[k := v]> (field self)) self).

(** [deque.append] on a deque built with [maxlen]: a full deque drops its
    oldest item. *)
Definition deque_append {A} (maxlen : nat) (x : A) (d : list A) : list A :=
  let d' := d ++ [x] in drop (length d' - maxlen) d'.

(** [sum(1 for req_time in history if req_time > cutoff)]. *)
Definition count_after (cutoff : Z) (history : list Z) : Z :=
  Z.of_nat (length (filter (λ req_time, cutoff < req_time) history)).

(** ** rate_limiter.py *)

Module RateLimiter.

Record RateLimit : Type := {
  requests_per_minute : Z;
  requests_per_hour : Z;
  requests_per_day : Z;
  burst_limit : Z;
  cooldown_period : Q;
  jitter_range : Q
}.

(** A [_reset_burst_count] coroutine handed to the event loop by
    [asyncio.create_task] and not run to its end yet. *)
Record task : Type := {
  task_platform : string;
  task_delay : Q;
  task_created : Z
}.

Record t : Type := {
  rate_limits : gmap string RateLimit;
  request_history : gmap string (list Z);
  last_request_time : gmap string Z;
  burst_count : gmap string Z;
  backoff_multiplier : gmap string Q;
  enabled : bool;
  default_delay : Q;
  max_backoff : Q;
  backoff_reset_time : Z;
  pending : list task
}.

Definition with_rate_limits (m : gmap string RateLimit) (self : t) : t :=
  {| rate_limits := m; request_history := request_history self;
     last_request_time := last_request_time self; burst_count := burst_count self;
     backoff_multiplier := backoff_multiplier self; enabled := enabled self;
     default_delay := default_delay self; max_backoff := max_backoff self;
     backoff_reset_time := backoff_reset_time self; pending := pending self |}.

Definition with_request_history (m : gmap string (list Z)) (self : t) : t :=
  {| rate_limits := rate_limits self; request_history := m;
     last_request_time := last_request_time self; burst_count := burst_count self;
     backoff_multiplier := backoff_multiplier self; enabled := enabled self;
     default_delay := default_delay self; max_backoff := max_backoff self;
     backoff_reset_time := backoff_reset_time self; pending := pending self |}.

Definition with_last_request_time (m : gmap string Z) (self : t) : t :=
  {| rate_limits := rate_limits self; request_history := request_history self;
     last_request_time := m; burst_count := burst_count self;
     backoff_multiplier := backoff_multiplier self; enabled := enabled self;
     default_delay := default_delay self; max_backoff := max_backoff self;
     backoff_reset_time := backoff_reset_time self; pending := pending self |}.

Definition with_burst_count (m : gmap string Z) (self : t) : t :=
  {| rate_limits := rate_limits self; request_history := request_history self;
     last_request_time := last_request_time self; burst_count := m;
     backoff_multiplier := backoff_multiplier self; enabled := enabled self;
     default_delay := default_delay self; max_backoff := max_backoff self;
     backoff_reset_time := backoff_reset_time self; pending := pending self |}.

Definition with_backoff_multiplier (m : gmap string Q) (self : t) : t :=
  {| rate_limits := rate_limits self; request_history := request_history self;
     last_request_time := last_request_time self; burst_count := burst_count self;
     backoff_multiplier := m; enabled := enabled self;
     default_delay := default_delay self; max_backoff := max_backoff self;
     backoff_reset_time := backoff_reset_time self; pending := pending self |}.

Definition with_enabled (b : bool) (self : t) : t :=
  {| rate_limits := rate_limits self; request_history := request_history self;
     last_request_time := last_request_time self; burst_count := burst_count self;
     backoff_multiplier := backoff_multiplier self; enabled := b;
     default_delay := default_delay self; max_backoff := max_backoff self;
     backoff_reset_time := backoff_reset_time self; pending := pending self |}.

Definition with_pending (l : list task) (self : t) : t :=
  {| rate_limits := rate_limits self; request_history := request_history self;
     last_request_time := last_request_time self; burst_count := burst_count self;
     backoff_multiplier := backoff_multiplier self; enabled := enabled self;
     default_delay := default_delay self; max_backoff := max_backoff self;
     backoff_reset_time := backoff_reset_time self; pending := l |}.

(** The four [defaultdict]s of the limiter, with their factories:
    [deque(maxlen=1000)], [datetime.min], [int] and [1.0]. *)
Definition HISTORY_MAXLEN : nat := 1000.

Definition history_of (platform : string) : Py t (list Z) :=
  dd_getitem request_history with_request_history [] platform.
Definition last_request_of (platform : string) : Py t Z :=
  dd_getitem last_request_time with_last_request_time 0 platform.
Definition burst_of (platform : string) : Py t Z :=
  dd_getitem burst_count with_burst_count 0 platform.
Definition backoff_of (platform : string) : Py t Q :=
  dd_getitem backoff_multiplier with_backoff_multiplier 1%Q platform.

(** [self.rate_limits[platform]]: a plain dict, a missing key raises. *)
Definition rate_limits_getitem (platform : string) : Py t RateLimit := λ self,
  match rate_limits self !! platform with
  | Some rl => (Ok rl, self)
  | None => (Raise (KeyError platform), self)
  end.

(** [self.rate_limits.get(platform, self.rate_limits["general"])]: the
    default is evaluated before the lookup. *)
Definition rate_limits_get (platform : string) : Py t RateLimit :=
  general ← rate_limits_getitem "general";
  self ← get;
  mret (default general (rate_limits self !! platform)).

Definition mkRateLimit (rpm rph rpd burst : Z) (cooldown : Q) : RateLimit :=
  {| requests_per_minute := rpm; requests_per_hour := rph; requests_per_day := rpd;
     burst_limit := burst; cooldown_period := cooldown; jitter_range := FLOAT_0_1 |}.

Definition __init__ : t :=
  {| rate_limits :=
       <["twitter" := mkRateLimit 15 300 1000 5 2]>
       (<["instagram" := mkRateLimit 10 200 500 3 3]>
       (<["facebook" := mkRateLimit 20 400 1000 8 (5 # 2)]>
       (<["linkedin" := mkRateLimit 8 150 300 2 3]>
       (<["tiktok" := mkRateLimit 12 250 600 4 (5 # 2)]>
       (<["general" := mkRateLimit 30 500 2000 10 1]> ∅)))));
     request_history := ∅;
     last_request_time := ∅;
     burst_count := ∅;
     backoff_multiplier := ∅;
     enabled := true;
     default_delay := 1;
     max_backoff := 60;
     backoff_reset_time := 5 * MINUTE;
     pending := [] |}.

Definition _is_in_backoff (now : Z) (platform : string) : Py t bool :=
  m ← backoff_of platform;
  if Qle_bool m 1 then mret false else
  last_request ← last_request_of platform;
  rl ← rate_limits_getitem platform;
  m' ← backoff_of platform;
  let backoff_duration := timedelta_seconds (cooldown_period rl * m') in
  mret (now - last_request <? backoff_duration).

Definition _check_rate_limits (now : Z) (platform : string) (rate_limit : RateLimit)
    : Py t bool :=
  history ← history_of platform;
  let cutoff_minute := now - MINUTE in
  let cutoff_hour := now - HOUR in
  let cutoff_day := now - DAY in
  let requests_last_minute := count_after cutoff_minute history in
  let requests_last_hour := count_after cutoff_hour history in
  let requests_last_day := count_after cutoff_day history in
  if requests_per_minute rate_limit <=? requests_last_minute then mret false else
  if requests_per_hour rate_limit <=? requests_last_hour then mret false else
  if requests_per_day rate_limit <=? requests_last_day then mret false else
  burst ← burst_of platform;
  if burst_limit rate_limit <=? burst then mret false else
  mret true.

Definition _record_request (now : Z) (platform : string) : Py t unit :=
  history ← history_of platform;
  dd_setitem request_history with_request_history platform
    (deque_append HISTORY_MAXLEN now history);;
  dd_setitem last_request_time with_last_request_time platform now;;
  burst ← burst_of platform;
  dd_setitem burst_count with_burst_count platform (burst + 1);;
  rate_limit ← rate_limits_get platform;
  modify (λ self, with_pending
    (pending self ++ [{| task_platform := platform;
                         task_delay := cooldown_period rate_limit;
                         task_created := now |}]) self).

(** The body of [_reset_burst_count] after its sleep. *)
Definition _reset_burst_count (platform : string) : Py t unit :=
  burst ← burst_of platform;
  dd_setitem burst_count with_burst_count platform (Z.max 0 (burst - 1)).

Definition acquire (now_backoff now_check now_record : Z) (platform : string)
    : Py t bool :=
  self ← get;
  if negb (enabled self) then mret true else
  let platform := lower platform in
  rate_limit ← rate_limits_get platform;
  in_backoff ← _is_in_backoff now_backoff platform;
  if in_backoff : bool then mret false else
  within ← _check_rate_limits now_check platform rate_limit;
  if negb within then mret false else
  _record_request now_record platform;;
  mret true.

(** [random.uniform(a, b)] is [a + (b - a) * random()], with [u] the value
    of [random()], a float of the interval from 0 to 1; each of the three
    operations rounds. *)
Definition uniform (a b u : Q) : Q := binary64 (a + binary64 (binary64 (b - a) * u)).

Definition _calculate_delay (now : Z) (u : Q) (platform : string)
    (rate_limit : RateLimit) : Py t Q :=
  last_request ← last_request_of platform;
  let base_delay := cooldown_period rate_limit in
  m ← backoff_of platform;
  let delay := binary64 (base_delay * m) in
  let jitter := uniform (- jitter_range rate_limit)%Q (jitter_range rate_limit) u in
  let delay := Qmax 0 (binary64 (delay * binary64 (1 + jitter))) in
  let time_since_last := total_seconds (now - last_request) in
  if Qltb time_since_last delay then mret (binary64 (delay - time_since_last))
  else mret 0%Q.

(** [wait_if_needed] returns nothing; the result here is the time it
    sleeps, 0 when it does not sleep. *)
Definition wait_if_needed (now : Z) (u : Q) (platform : string) : Py t Q :=
  self ← get;
  if negb (enabled self) then mret 0%Q else
  let platform := lower platform in
  rate_limit ← rate_limits_get platform;
  delay ← _calculate_delay now u platform rate_limit;
  if Qltb 0 delay then mret delay else mret 0%Q.

Definition mark_request_success (platform : string) : Py t unit :=
  let platform := lower platform in
  m ← backoff_of platform;
  if Qltb 1 m then
    m' ← backoff_of platform;
    dd_setitem backoff_multiplier with_backoff_multiplier platform
      (Qmax 1 (binary64 (m' * FLOAT_0_8)))
  else mret tt.

Definition mark_request_failed (now : Z) (platform : string) (error_type : string)
    : Py t unit :=
  let platform := lower platform in
  if bool_decide (error_type ∈ ["rate_limit"; "429"; "too_many_requests"]) then
    self ← get;
    m ← backoff_of platform;
    dd_setitem backoff_multiplier with_backoff_multiplier platform
      (Qmin (max_backoff self) (m * 2)%Q);;
    dd_setitem last_request_time with_last_request_time platform now
  else if bool_decide (error_type ∈ ["timeout"; "connection_error"]) then
    self ← get;
    m ← backoff_of platform;
    dd_setitem backoff_multiplier with_backoff_multiplier platform
      (Qmin (max_backoff self) (binary64 (m * (3 # 2))))
  else mret tt.

Definition set_rate_limit (platform : string) (rate_limit : RateLimit) : Py t unit :=
  modify (λ self, with_rate_limits (<[lower platform := rate_limit]> (rate_limits self)) self).

(** [reset(platform)]: [None] and the empty string both take the branch
    that clears every key. *)
Definition reset (platform : option string) : Py t unit :=
  match platform with
  | Some p =>
      if truthy p then
        let platform := lower p in
        history_of platform;;
        dd_setitem request_history with_request_history platform [];;
        dd_setitem burst_count with_burst_count platform 0;;
        dd_setitem backoff_multiplier with_backoff_multiplier platform 1%Q;;
        dd_setitem last_request_time with_last_request_time platform 0
      else
        modify (λ self, with_request_history ∅ (with_burst_count ∅
                 (with_backoff_multiplier ∅ (with_last_request_time ∅ self))))
  | None =>
      modify (λ self, with_request_history ∅ (with_burst_count ∅
               (with_backoff_multiplier ∅ (with_last_request_time ∅ self))))
  end.

Definition enable : Py t unit := modify (with_enabled true).
Definition disable : Py t unit := modify (with_enabled false).

(** The event loop resumes the [i]-th pending [_reset_burst_count] at time
    [now]: the coroutine runs to its end when its sleep is over, and stays
    pending otherwise. *)
Definition run_task (now : Z) (i : nat) : Py t unit :=
  self ← get;
  match pending self !! i with
  | Some tk =>
      if Qle_bool (task_delay tk * inject_Z SECOND)%Q (inject_Z (now - task_created tk)) then
        modify (with_pending (delete i (pending self)));;
        _reset_burst_count (task_platform tk)
      else mret tt
  | None => mret tt
  end.

(** The error types that [mark_request_failed] takes for a rate limit. *)
Inductive rate_limited : Type := RATE_LIMIT | STATUS_429 | TOO_MANY_REQUESTS.

Definition error_type_of (e : rate_limited) : string :=
  match e with
  | RATE_LIMIT => "rate_limit"
  | STATUS_429 => "429"
  | TOO_MANY_REQUESTS => "too_many_requests"
  end.

(** The calls a client and the event loop make on a limiter. *)
Inductive call : Type :=
| Acquire (now_backoff now_check now_record : Z) (platform : string)
| WaitIfNeeded (now : Z) (u : Q) (platform : string)
| MarkRequestSuccess (platform : string)
| MarkRequestFailed (now : Z) (platform : string) (error_type : string)
| SetRateLimit (platform : string) (rate_limit : RateLimit)
| Reset (platform : option string)
| Enable
| Disable
| RunTask (now : Z) (i : nat).

Inductive value : Type :=
| VNone
| VBool (b : bool)
| VFloat (q : Q).

Definition step (c : call) : Py t value :=
  match c with
  | Acquire nb nc nr p => b ← acquire nb nc nr p; mret (VBool b)
  | WaitIfNeeded now u p => d ← wait_if_needed now u p; mret (VFloat d)
  | MarkRequestSuccess p => mark_request_success p;; mret VNone
  | MarkRequestFailed now p e => mark_request_failed now p e;; mret VNone
  | SetRateLimit p rl => set_rate_limit p rl;; mret VNone
  | Reset p => reset p;; mret VNone
  | Enable => enable;; mret VNone
  | Disable => disable;; mret VNone
  | RunTask now i => run_task now i;; mret VNone
  end.

(** The calls [mark_request_failed(p, e)] of a sequence of failures taken
    for rate limits. *)
Definition failures (p : string) (fs : list (Z * rate_limited)) : list call :=
  (λ f, MarkRequestFailed f.1 p (error_type_of f.2)) <$> fs.

(** A sequence of calls on one limiter; a caller that catches an exception
    goes on with the limiter as the failed call left it. *)
Fixpoint run (cs : list call) (self : t) : list (res value) * t :=
  match cs with
  | [] => ([], self)
  | c :: cs' =>
      let '(r, self') := step c self in
      let '(rs, self'') := run cs' self' in
      (r :: rs, self'')
  end.

(** What the limiter holds under a key, as a read of the [defaultdict]
    sees it. *)
Definition history_at (self : t) (k : string) : list Z :=
  default [] (request_history self !! k).
Definition burst_at (self : t) (k : string) : Z :=
  default 0 (burst_count self !! k).
Definition multiplier_at (self : t) (k : string) : Q :=
  default 1%Q (backoff_multiplier self !! k).
Definition last_request_at (self : t) (k : string) : Z :=
  default 0 (last_request_time self !! k).

(** The calls that gate a request, and the tasks of the limiter that the
    event loop runs between them. *)
Inductive gate : Type :=
| GateAcquire (now_backoff now_check now_record : Z) (platform : string)
| GateWait (now : Z) (u : Q) (platform : string)
| GateTask (now : Z) (i : nat).

Definition call_of_gate (g : gate) : call :=
  match g with
  | GateAcquire nb nc nr p => Acquire nb nc nr p
  | GateWait now u p => WaitIfNeeded now u p
  | GateTask now i => RunTask now i
  end.

(** The instants at which a call reads the clock, in order. *)
Definition readings (g : gate) : list Z :=
  match g with
  | GateAcquire nb nc nr _ => [nb; nc; nr]
  | GateWait now _ _ => [now]
  | GateTask now _ => [now]
  end.

(** The readings of the clock along a sequence of calls. *)
Definition clock (gs : list gate) : list Z := gs ≫= readings.

(** The limiter after a sequence of gate calls. *)
Definition run_gates (gs : list gate) (self : t) : t :=
  snd (run (call_of_gate <$> gs) self).

(** A clock that is at least [t0] and never goes back. *)
Fixpoint ticks (t0 : Z) (l : list Z) : Prop :=
  match l with
  | [] => True
  | t :: l' => t0 ≤ t ∧ ticks t l'
  end.

Definition monotone (l : list Z) : Prop :=
  match l with
  | [] => True
  | t :: l' => ticks t l'
  end.

(** The limiter after the configuration calls [set_rate_limit]. *)
Definition configure (cfgs : list (string * RateLimit)) : t :=
  snd (run ((λ c, SetRateLimit c.1 c.2) <$> cfgs) __init__).

(** The requests recorded under key [k] along a sequence of gate calls:
    the instants that [_record_request] appended, which are those of the
    calls of [acquire] for [k] that answered true on an enabled limiter. *)
Fixpoint recorded_requests (k : string) (gs : list gate) (self : t) : list Z :=
  match gs with
  | [] => []
  | g :: gs' =>
      let '(r, self') := step (call_of_gate g) self in
      match g, r with
      | GateAcquire _ _ nr p, Ok (VBool true) =>
          if enabled self && bool_decide (lower p = k) then [nr] else []
      | _, _ => []
      end ++ recorded_requests k gs' self'
  end.

(** The number of instants of [l] in the window of length [len] that ends
    at [t], the instant [t] included and [t - len] not. *)
Definition in_window (len t : Z) (l : list Z) : Z :=
  Z.of_nat (length (filter (λ x, t - len < x ∧ x ≤ t) l)).

(** [n] calls of [acquire] for a platform, [every] microseconds apart from
    [start] on, each followed one second later by the run of the task that
    it created. *)
Definition paced (p : string) (start every : Z) (n : nat) : list gate :=
  i ← seq 0 n;
  let t := start + Z.of_nat i * every in
  [GateAcquire t t t p; GateTask (t + SECOND) 0].

(** A list of instants in ascending order. *)
Fixpoint ascending (l : list Z) : Prop :=
  match l with
  | [] => True
  | x :: l' => Forall (λ y, x ≤ y) l' ∧ ascending l'
  end.

(** A limiter that holds no multiplier above 1 and has its fallback entry. *)
Record calm (self : t) : Prop := {
  calm_general : is_Some (rate_limits self !! "general");
  calm_multiplier k : Qle_bool (multiplier_at self k) 1 = true
}.

(** The same for a platform name as a caller writes it. *)
Definition history (self : t) (platform : string) : list Z :=
  history_at self (lower platform).
Definition burst (self : t) (platform : string) : Z :=
  burst_at self (lower platform).
Definition multiplier (self : t) (platform : string) : Q :=
  multiplier_at self (lower platform).
Definition last_request (self : t) (platform : string) : Z :=
  last_request_at self (lower platform).

(** The configuration [rate_limits.get] finds for a platform. *)
Definition config (self : t) (platform : string) : option RateLimit :=
  general ← rate_limits self !! "general";
  Some (default general (rate_limits self !! lower platform)).

(** The four tests of [_check_rate_limits], on a history and a burst count. *)
Definition within_limits (now : Z) (h : list Z) (b : Z) (rl : RateLimit) : bool :=
  negb (requests_per_minute rl <=? count_after (now - MINUTE) h)
  && negb (requests_per_hour rl <=? count_after (now - HOUR) h)
  && negb (requests_per_day rl <=? count_after (now - DAY) h)
  && negb (burst_limit rl <=? b).

(** The verdict of [_is_in_backoff], from what the limiter holds. *)
Definition in_backoff (now : Z) (k : string) (self : t) : res bool :=
  if Qle_bool (multiplier_at self k) 1 then Ok false else
  match rate_limits self !! k with
  | Some rl =>
      Ok (now - last_request_at self k
          <? timedelta_seconds (cooldown_period rl * multiplier_at self k))
  | None => Raise (KeyError k)
  end.

(** The answer of [acquire] of an enabled limiter, from what the limiter
    holds. *)
Definition acquire_answer (now_backoff now_check : Z) (k : string) (rl : RateLimit)
    (self : t) : res bool :=
  match in_backoff now_backoff k self with
  | Raise e => Raise e
  | Ok true => Ok false
  | Ok false => Ok (within_limits now_check (history_at self k) (burst_at self k) rl)
  end.

Definition granted (r : res bool) : bool :=
  match r with Ok true => true | _ => false end.

(** The multiplier [mark_request_success] leaves for one it finds. *)
Definition decayed (m : Q) : Q :=
  if Qltb 1 m then Qmax 1 (binary64 (m * FLOAT_0_8)) else m.

(** The multiplier [mark_request_failed] leaves for one it finds, by the
    type of the error. *)
Definition raised (cap : Q) (error_type : string) (m : Q) : Q :=
  if bool_decide (error_type ∈ ["rate_limit"; "429"; "too_many_requests"])
  then Qmin cap (m * 2)
  else if bool_decide (error_type ∈ ["timeout"; "connection_error"])
  then Qmin cap (binary64 (m * (3 # 2)))
  else m.

(** What a limiter built by [__init__] keeps through every call: its
    fallback entry, its cap, and multipliers between 1 and the cap. *)
Record bounded (self : t) : Prop := {
  bounded_general : is_Some (rate_limits self !! "general");
  bounded_max : max_backoff self = 60%Q;
  bounded_multiplier k : (1 <= multiplier_at self k <= 60)%Q
}.

(** Two limiters that no read tells apart. *)
Record agree (self self' : t) : Prop := {
  agree_limits : rate_limits self' = rate_limits self;
  agree_enabled : enabled self' = enabled self;
  agree_max : max_backoff self' = max_backoff self;
  agree_pending : pending self' = pending self;
  agree_history k : history_at self' k = history_at self k;
  agree_burst k : burst_at self' k = burst_at self k;
  agree_multiplier k : multiplier_at self' k = multiplier_at self k;
  agree_last k : last_request_at self' k = last_request_at self k
}.

(** A limiter before and after [_record_request] at [now] under key [k]. *)
Record recorded (now : Z) (k : string) (rl : RateLimit) (self self' : t) : Prop := {
  rec_limits : rate_limits self' = rate_limits self;
  rec_enabled : enabled self' = enabled self;
  rec_max : max_backoff self' = max_backoff self;
  rec_pending : pending self' = pending self ++
    [{| task_platform := k; task_delay := cooldown_period rl; task_created := now |}];
  rec_history k' : history_at self' k' =
    if decide (k' = k) then deque_append HISTORY_MAXLEN now (history_at self k)
    else history_at self k';
  rec_burst k' : burst_at self' k' =
    if decide (k' = k) then burst_at self k + 1 else burst_at self k';
  rec_last k' : last_request_at self' k' =
    if decide (k' = k) then now else last_request_at self k';
  rec_multiplier k' : multiplier_at self' k' = multiplier_at self k'
}.

(** [get_rate_limit]. *)
Definition get_rate_limit (platform : string) : Py t RateLimit :=
  rate_limits_get (lower platform).

(** The dictionary [get_stats] returns: for a platform, or for the whole
    limiter.  A datetime stands for its ISO text, and the set of the keys of
    [rate_limits] for their list. *)
Inductive stats : Type :=
| PlatformStats (platform : string)
    (requests_last_minute requests_last_hour requests_last_day : Z)
    (burst_count : Z) (backoff_multiplier : Q) (last_request : Z)
    (rate_limit : Z * Z * Z * Z * Q)
| GlobalStats (enabled : bool) (platforms : gset string) (total_requests : Z)
    (backoff_multipliers : gmap string Q).

(** [get_stats(platform)]: [None] and the empty string give the statistics
    of the whole limiter.  The items of the dictionary are evaluated in
    order, the reads of the [defaultdict]s before the lookups in
    [rate_limits], which have no fallback. *)
Definition get_stats (now : Z) (platform : option string) : Py t stats :=
  if is_set_platform platform then
    let platform := lower (default "" platform) in
    history ← history_of platform;
    let requests_last_minute := count_after (now - MINUTE) history in
    let requests_last_hour := count_after (now - HOUR) history in
    let requests_last_day := count_after (now - DAY) history in
    burst ← burst_of platform;
    m ← backoff_of platform;
    last_request ← last_request_of platform;
    rl1 ← rate_limits_getitem platform;
    rl2 ← rate_limits_getitem platform;
    rl3 ← rate_limits_getitem platform;
    rl4 ← rate_limits_getitem platform;
    rl5 ← rate_limits_getitem platform;
    mret (PlatformStats platform requests_last_minute requests_last_hour
            requests_last_day burst m last_request
            (requests_per_minute rl1, requests_per_hour rl2, requests_per_day rl3,
             burst_limit rl4, cooldown_period rl5))
  else
    self ← get;
    mret (GlobalStats (enabled self) (dom (rate_limits self))
            (map_fold (λ _ history total, total + Z.of_nat (length history)) 0
               (request_history self))
            (backoff_multiplier self)).

(** A bound on the factor by which [n] successes in a row decay a
    multiplier that stays above the floor: a product by the float [0.8],
    rounded, is less than 0.8001 times the multiplier. *)
Fixpoint decay_factor (n : nat) : Q :=
  match n with
  | O => 1
  | S n' => decay_factor n' * (8001 # 10000)
  end.

(** The limiter after [n] calls of [mark_request_success] in a row. *)
Definition successes (p : string) (n : nat) (self : t) : t :=
  Nat.iter n (λ s, snd (mark_request_success p s)) self.

(** What a gate call returns on a disabled limiter. *)
Definition transparent (g : gate) : res value :=
  match g with
  | GateAcquire _ _ _ _ => Ok (VBool true)
  | GateWait _ _ _ => Ok (VFloat 0)
  | GateTask _ _ => Ok VNone
  end.

(** The tasks pending for a key. *)
Definition pending_for (self : t) (k : string) : Z :=
  Z.of_nat (length (filter (λ tk, task_platform tk = k) (pending self))).

(** Two limiters between which no request was recorded: the same limits,
    histories, burst counts and pending tasks. *)
Record quiet (self self' : t) : Prop := {
  quiet_limits : rate_limits self' = rate_limits self;
  quiet_enabled : enabled self' = enabled self;
  quiet_pending : pending self' = pending self;
  quiet_history k : history_at self' k = history_at self k;
  quiet_burst k : burst_at self' k = burst_at self k
}.


End RateLimiter.

(** ** proxy_manager.py *)

Module ProxyManager.

Record Proxy : Type := {
  url : string;
  protocol : string;
  ip : string;
  port : Z;
  country : option string;
  anonymity : option string;
  speed : option Q;
  last_checked : option Z;
  is_working : bool;
  fail_count : Z;
  success_count : Z
}.

Definition with_failure (p : Proxy) : Proxy :=
  {| url := url p; protocol := protocol p; ip := ip p; port := port p;
     country := country p; anonymity := anonymity p; speed := speed p;
     last_checked := last_checked p; is_working := false;
     fail_count := fail_count p + 1; success_count := success_count p |}.

Definition with_success (now : Z) (p : Proxy) : Proxy :=
  {| url := url p; protocol := protocol p; ip := ip p; port := port p;
     country := country p; anonymity := anonymity p; speed := speed p;
     last_checked := Some now; is_working := true;
     fail_count := fail_count p; success_count := success_count p + 1 |}.

Definition with_validation (now : Z) (ok : bool) (p : Proxy) : Proxy :=
  {| url := url p; protocol := protocol p; ip := ip p; port := port p;
     country := country p; anonymity := anonymity p; speed := speed p;
     last_checked := if ok then Some now else last_checked p; is_working := ok;
     fail_count := fail_count p; success_count := success_count p |}.

(** The manager.  [proxies] and [working_proxies] are Python lists of
    references to [Proxy] objects and share them: an object is its index in
    [objects], and a list holds indices, so that a field written through one
    list is read through the other.  A Python reference always has its
    object; an index without one stands for no proxy and has no url. *)
Record t : Type := {
  use_proxies : bool;
  proxy_timeout : Z;
  max_proxy_retries : Z;
  rotation_interval : Z;
  cache_file : string;
  objects : list Proxy;
  proxies : list nat;
  working_proxies : list nat;
  failed_proxies : gset string;
  last_rotation : Z;
  current_proxy : option nat
}.

Definition with_objects (o : list Proxy) (self : t) : t :=
  {| use_proxies := use_proxies self; proxy_timeout := proxy_timeout self;
     max_proxy_retries := max_proxy_retries self;
     rotation_interval := rotation_interval self; cache_file := cache_file self;
     objects := o; proxies := proxies self; working_proxies := working_proxies self;
     failed_proxies := failed_proxies self; last_rotation := last_rotation self;
     current_proxy := current_proxy self |}.

Definition with_proxies (l : list nat) (self : t) : t :=
  {| use_proxies := use_proxies self; proxy_timeout := proxy_timeout self;
     max_proxy_retries := max_proxy_retries self;
     rotation_interval := rotation_interval self; cache_file := cache_file self;
     objects := objects self; proxies := l; working_proxies := working_proxies self;
     failed_proxies := failed_proxies self; last_rotation := last_rotation self;
     current_proxy := current_proxy self |}.

Definition with_working_proxies (l : list nat) (self : t) : t :=
  {| use_proxies := use_proxies self; proxy_timeout := proxy_timeout self;
     max_proxy_retries := max_proxy_retries self;
     rotation_interval := rotation_interval self; cache_file := cache_file self;
     objects := objects self; proxies := proxies self; working_proxies := l;
     failed_proxies := failed_proxies self; last_rotation := last_rotation self;
     current_proxy := current_proxy self |}.

Definition with_failed_proxies (f : gset string) (self : t) : t :=
  {| use_proxies := use_proxies self; proxy_timeout := proxy_timeout self;
     max_proxy_retries := max_proxy_retries self;
     rotation_interval := rotation_interval self; cache_file := cache_file self;
     objects := objects self; proxies := proxies self;
     working_proxies := working_proxies self;
     failed_proxies := f; last_rotation := last_rotation self;
     current_proxy := current_proxy self |}.

Definition with_last_rotation (now : Z) (self : t) : t :=
  {| use_proxies := use_proxies self; proxy_timeout := proxy_timeout self;
     max_proxy_retries := max_proxy_retries self;
     rotation_interval := rotation_interval self; cache_file := cache_file self;
     objects := objects self; proxies := proxies self;
     working_proxies := working_proxies self;
     failed_proxies := failed_proxies self; last_rotation := now;
     current_proxy := current_proxy self |}.

Definition with_current_proxy (c : option nat) (self : t) : t :=
  {| use_proxies := use_proxies self; proxy_timeout := proxy_timeout self;
     max_proxy_retries := max_proxy_retries self;
     rotation_interval := rotation_interval self; cache_file := cache_file self;
     objects := objects self; proxies := proxies self;
     working_proxies := working_proxies self;
     failed_proxies := failed_proxies self; last_rotation := last_rotation self;
     current_proxy := c |}.

(** [p.url] through a reference. *)
Definition url_of (o : list Proxy) (r : nat) : option string := url <$> o !! r.

(** [for proxy in self.proxies: if proxy.url == proxy_url: ... break]: the
    first proxy of the list with that url. *)
Fixpoint find_proxy (o : list Proxy) (proxy_url : string) (l : list nat)
    : option (nat * Proxy) :=
  match l with
  | [] => None
  | r :: l' =>
      match o !! r with
      | Some p => if String.eqb (url p) proxy_url then Some (r, p)
                  else find_proxy o proxy_url l'
      | None => find_proxy o proxy_url l'
      end
  end.

(** [[p for p in self.working_proxies if p.url != proxy_url]]. *)
Definition without_url (o : list Proxy) (proxy_url : string) (l : list nat) : list nat :=
  filter (λ r, url_of o r ≠ Some proxy_url) l.

Definition mark_proxy_failed (proxy_url : string) (self : t) : t :=
  if negb (use_proxies self) then self else
  match find_proxy (objects self) proxy_url (proxies self) with
  | None => self
  | Some (r, p) =>
      let p' := with_failure p in
      let self := with_objects (<[r := p']> (objects self)) self in
      if max_proxy_retries self <=? fail_count p' then
        let self := with_failed_proxies ({[proxy_url]} ∪ failed_proxies self) self in
        with_working_proxies
          (without_url (objects self) proxy_url (working_proxies self)) self
      else self
  end.

Definition mark_proxy_success (now : Z) (proxy_url : string) (self : t) : t :=
  if negb (use_proxies self) then self else
  match find_proxy (objects self) proxy_url (proxies self) with
  | None => self
  | Some (r, p) =>
      let self := with_objects (<[r := with_success now p]> (objects self)) self in
      if bool_decide (Some proxy_url ∈ url_of (objects self) <$> working_proxies self)
      then self
      else with_working_proxies (working_proxies self ++ [r]) self
  end.

(** The duplicate removal of [_fetch_proxies]: the first proxy of each url
    stays. *)
Fixpoint unique_proxies (o : list Proxy) (seen_urls : gset string) (l : list nat)
    : list nat :=
  match l with
  | [] => []
  | r :: l' =>
      match o !! r with
      | Some p =>
          if bool_decide (url p ∈ seen_urls) then unique_proxies o seen_urls l'
          else r :: unique_proxies o ({[url p]} ∪ seen_urls) l'
      | None => unique_proxies o seen_urls l'
      end
  end.

(** [_fetch_proxies], with [fetched] the proxies that the sources that
    answered returned, in the order of the sources. *)
Definition _fetch_proxies (fetched : list Proxy) (self : t) : t :=
  let fresh := seq (length (objects self)) (length fetched) in
  let self := with_objects (objects self ++ fetched) self in
  with_proxies (unique_proxies (objects self) ∅ (proxies self ++ fresh)) self.

(** [_validate_proxies], with [passed] the proxies that answered through a
    test url, in the order in which their checks ended.  Every proxy of
    [self.proxies] is checked once. *)
Definition _validate_proxies (now : Z) (passed : list nat) (self : t) : t :=
  let passed := remove_dups (filter (λ r, r ∈ proxies self) passed) in
  let check (r : nat) (p : Proxy) : Proxy :=
    if bool_decide (r ∈ proxies self)
    then with_validation now (bool_decide (r ∈ passed)) p else p in
  let self := with_objects (imap check (objects self)) self in
  with_working_proxies (working_proxies self ++ passed) self.

Definition _should_rotate (now : Z) (self : t) : bool :=
  (rotation_interval self * SECOND <? now - last_rotation self)
  || (length (working_proxies self) <? 5)%nat.

(** [x[i], x[j] = x[j], x[i]]. *)
Definition swap {A} (i j : nat) (x : list A) : list A :=
  match x !! i, x !! j with
  | Some a, Some b => <[j := a]> (<[i := b]> x)
  | _, _ => x
  end.

(** [random.shuffle]: for [i] from the last index down to 1, the item at [i]
    is exchanged with the item at [randbelow(i + 1)]; [draws i] is the draw
    made for [i]. *)
Fixpoint shuffle_from {A} (i : nat) (draws : nat → nat) (x : list A) : list A :=
  match i with
  | O => x
  | S i' => shuffle_from i' draws (swap i (draws i mod (i + 1)) x)
  end.

Definition shuffle {A} (draws : nat → nat) (x : list A) : list A :=
  shuffle_from (length x - 1) draws x.

(** [random.choice]: the item at [randbelow(len(x))]. *)
Definition choice {A} (draw : nat) (x : list A) : option A :=
  x !! (draw mod length x)%nat.

(** What the world decides during one [get_proxy]: the clock, the draws of
    the generator, and, when the proxies are fetched and checked again, what
    the sources return and which proxies pass. *)
Record world : Type := {
  now_checked : Z;
  now_rotated : Z;
  now_validated : Z;
  shuffle_draws : nat → nat;
  fetched : list Proxy;
  passed : list nat;
  choice_draw : nat
}.

Definition with_choice_draw (d : nat) (w : world) : world :=
  {| now_checked := now_checked w; now_rotated := now_rotated w;
     now_validated := now_validated w; shuffle_draws := shuffle_draws w;
     fetched := fetched w; passed := passed w; choice_draw := d |}.

(** [_rotate_proxies]; [_save_cached_proxies] writes a file and leaves the
    manager as it is. *)
Definition _rotate_proxies (w : world) (self : t) : t :=
  let self := with_last_rotation (now_rotated w) self in
  if (10 <=? length (working_proxies self))%nat then
    with_working_proxies (shuffle (shuffle_draws w) (working_proxies self)) self
  else
    _validate_proxies (now_validated w) (passed w) (_fetch_proxies (fetched w) self).

Definition get_proxy (w : world) (self : t) : option string * t :=
  if negb (use_proxies self) then (None, self) else
  let self := if _should_rotate (now_checked w) self then _rotate_proxies w self
              else self in
  match working_proxies self with
  | [] => (None, self)
  | _ :: _ =>
      match choice (choice_draw w) (working_proxies self) with
      | Some proxy => (url_of (objects self) proxy, with_current_proxy (Some proxy) self)
      | None => (None, self)
      end
  end.

(** [_load_cached_proxies], with [cached] the proxies read from the cache
    file ([[]] when there is none or it cannot be read). *)
Definition _load_cached_proxies (cached : list Proxy) (self : t) : t :=
  let refs := seq (length (objects self)) (length cached) in
  let working := filter (λ r, is_working <$> (objects self ++ cached) !! r = Some true) refs in
  with_proxies (proxies self ++ refs)
    (with_working_proxies (working_proxies self ++ working)
       (with_objects (objects self ++ cached) self)).

Definition __init__ (now : Z) (cached : list Proxy) (use_proxies : bool)
    (proxy_timeout max_proxy_retries rotation_interval : Z) (cache_file : string) : t :=
  _load_cached_proxies cached
    {| use_proxies := use_proxies; proxy_timeout := proxy_timeout;
       max_proxy_retries := max_proxy_retries; rotation_interval := rotation_interval;
       cache_file := cache_file; objects := []; proxies := []; working_proxies := [];
       failed_proxies := ∅; last_rotation := now; current_proxy := None |}.

Definition initialize (now : Z) (fetched : list Proxy) (passed : list nat) (self : t) : t :=
  if negb (use_proxies self) then self else
  _validate_proxies now passed (_fetch_proxies fetched self).

(** The urls of the working subset. *)
Definition working_urls (self : t) : list (option string) :=
  url_of (objects self) <$> working_proxies self.

(** [get_proxy] fetches and checks the proxies again during this call. *)
Definition revalidates (w : world) (self : t) : bool :=
  use_proxies self && _should_rotate (now_checked w) self
  && (length (working_proxies self) <? 10)%nat.

(** An item of the list ["proxies"] of the cache file, a JSON object with
    the values that [_save_cached_proxies] writes.  [None] is a key that the
    item does not have; for ["country"], ["anonymity"] and ["speed"], which
    are written as [null] for a proxy without them and read with [get], it
    is also a [null]. *)
Record json_item : Type := {
  item_url : option string;
  item_protocol : option string;
  item_ip : option string;
  item_port : option Z;
  item_country : option string;
  item_anonymity : option string;
  item_speed : option Q;
  item_is_working : option bool;
  item_fail_count : option Z;
  item_success_count : option Z
}.

Definition save_item (p : Proxy) : json_item :=
  {| item_url := Some (url p); item_protocol := Some (protocol p);
     item_ip := Some (ip p); item_port := Some (port p);
     item_country := country p; item_anonymity := anonymity p;
     item_speed := speed p; item_is_working := Some (is_working p);
     item_fail_count := Some (fail_count p);
     item_success_count := Some (success_count p) |}.

(** [_save_cached_proxies]: the items written to the file, one for each
    proxy of [self.proxies]. *)
Definition _save_cached_proxies (self : t) : list json_item :=
  save_item <$> omap (λ r, objects self !! r) (proxies self).

(** The [Proxy(...)] that [_load_cached_proxies] builds from an item:
    [item["url"]] and the three other subscripts need their key, the [get]s
    have defaults, and [last_checked] is not read. *)
Definition load_item (i : json_item) : option Proxy :=
  u ← item_url i; pr ← item_protocol i; a ← item_ip i; po ← item_port i;
  Some {| url := u; protocol := pr; ip := a; port := po;
          country := item_country i; anonymity := item_anonymity i;
          speed := item_speed i; last_checked := None;
          is_working := default false (item_is_working i);
          fail_count := default 0 (item_fail_count i);
          success_count := default 0 (item_success_count i) |}.

(** The proxies read from the items of a cache file: a missing key raises
    [KeyError] inside the [try], which ends the loading and keeps the proxies
    read so far. *)
Fixpoint load_items (items : list json_item) : list Proxy :=
  match items with
  | [] => []
  | i :: items' =>
      match load_item i with
      | Some p => p :: load_items items'
      | None => []
      end
  end.

(** A proxy as the cache file keeps it. *)
Definition without_last_checked (p : Proxy) : Proxy :=
  {| url := url p; protocol := protocol p; ip := ip p; port := port p;
     country := country p; anonymity := anonymity p; speed := speed p;
     last_checked := None; is_working := is_working p;
     fail_count := fail_count p; success_count := success_count p |}.

(** The proxies behind two lists of references. *)
Definition known (self : t) : list Proxy := omap (λ r, objects self !! r) (proxies self).
Definition working (self : t) : list Proxy :=
  omap (λ r, objects self !! r) (working_proxies self).

(** The urls of all the proxies the manager knows. *)
Definition known_urls (self : t) : list (option string) :=
  url_of (objects self) <$> proxies self.

(** [get_stats], without the text of [last_rotation]. *)
Record stats : Type := {
  total_proxies : nat;
  stat_working_proxies : nat;
  stat_failed_proxies : nat;
  stat_current_proxy : option string;
  stat_last_rotation : Z;
  stat_use_proxies : bool
}.

Definition get_stats (self : t) : stats :=
  {| total_proxies := length (proxies self);
     stat_working_proxies := length (working_proxies self);
     stat_failed_proxies := size (failed_proxies self);
     stat_current_proxy := r ← current_proxy self; url_of (objects self) r;
     stat_last_rotation := last_rotation self;
     stat_use_proxies := use_proxies self |}.

(** The calls made on a manager. *)
Inductive call : Type :=
| GetProxy (w : world)
| MarkProxyFailed (proxy_url : string)
| MarkProxySuccess (now : Z) (proxy_url : string)
| Initialize (now : Z) (fetched : list Proxy) (passed : list nat).

Definition step (c : call) (self : t) : t :=
  match c with
  | GetProxy w => snd (get_proxy w self)
  | MarkProxyFailed u => mark_proxy_failed u self
  | MarkProxySuccess now u => mark_proxy_success now u self
  | Initialize now f p => initialize now f p self
  end.

Definition run (cs : list call) (self : t) : t := foldl (λ s c, step c s) self cs.

(** The calls [mark_proxy_failed(u)] and [mark_proxy_success(u)] among the
    calls made; [==] on [str] is the equality of the strings. *)
Definition is_failure_of (u : string) (c : call) : bool :=
  match c with MarkProxyFailed v => String.eqb v u | _ => false end.
Definition is_success_of (u : string) (c : call) : bool :=
  match c with MarkProxySuccess _ v => String.eqb v u | _ => false end.
Definition failures_of (u : string) (cs : list call) : Z :=
  Z.of_nat (length (filter (λ c, is_failure_of u c = true) cs)).
Definition successes_of (u : string) (cs : list call) : Z :=
  Z.of_nat (length (filter (λ c, is_success_of u c = true) cs)).

(** What the lists of a manager keep from [__init__] on: every reference
    has its object, and every proxy of the working subset has its url among
    the proxies that the manager knows. *)
Record linked (self : t) : Prop := {
  linked_proxies : Forall (λ r, r < length (objects self))%nat (proxies self);
  linked_working : Forall (λ r, r < length (objects self))%nat (working_proxies self);
  linked_known r : r ∈ working_proxies self →
    ∃ r', r' ∈ proxies self ∧ url_of (objects self) r' = url_of (objects self) r
}.

(** The proxy found under a url, with its counts, on such a manager that
    uses proxies. *)
Definition tracked (u : string) (r : nat) (fails succs : Z) (self : t) : Prop :=
  use_proxies self = true ∧ linked self
  ∧ ∃ p, find_proxy (objects self) u (proxies self) = Some (r, p)
         ∧ fail_count p = fails ∧ success_count p = succs.

End ProxyManager.

(** ** base_scraper.py: the request path *)

Module BaseScraper.

Record request : Type := {
  req_method : string;
  req_url : string;
  req_headers : gmap string string;
  req_data : option (gmap string string);
  req_params : option (gmap string string);
  req_proxy : option string
}.

(** What the request path did, in order; kept beside the scraper to state
    which component was told what. *)
Inductive event : Type :=
| WaitedForSlot (platform : string) (slept : Q)
| GotProxy (proxy : option string)
| Sent (r : request)
| RateFailed (platform error_type : string)
| RateSucceeded (platform : string)
| ProxyFailed (proxy : string)
| ProxySucceeded (proxy : string)
| Slept (seconds : Z).

Record t : Type := {
  platform : string;
  use_proxies : bool;
  use_rate_limiting : bool;
  use_user_agent_rotation : bool;
  max_retries : Z;
  timeout : Z;
  max_concurrent_requests : Z;
  proxy_manager : option ProxyManager.t;
  user_agent_rotator : bool;
  rate_limiter : option RateLimiter.t;
  trace : list event
}.

Definition with_proxy_manager (pm : option ProxyManager.t) (self : t) : t :=
  {| platform := platform self; use_proxies := use_proxies self;
     use_rate_limiting := use_rate_limiting self;
     use_user_agent_rotation := use_user_agent_rotation self;
     max_retries := max_retries self; timeout := timeout self;
     max_concurrent_requests := max_concurrent_requests self;
     proxy_manager := pm; user_agent_rotator := user_agent_rotator self;
     rate_limiter := rate_limiter self; trace := trace self |}.

Definition with_rate_limiter (rl : option RateLimiter.t) (self : t) : t :=
  {| platform := platform self; use_proxies := use_proxies self;
     use_rate_limiting := use_rate_limiting self;
     use_user_agent_rotation := use_user_agent_rotation self;
     max_retries := max_retries self; timeout := timeout self;
     max_concurrent_requests := max_concurrent_requests self;
     proxy_manager := proxy_manager self; user_agent_rotator := user_agent_rotator self;
     rate_limiter := rl; trace := trace self |}.

Definition with_trace (tr : list event) (self : t) : t :=
  {| platform := platform self; use_proxies := use_proxies self;
     use_rate_limiting := use_rate_limiting self;
     use_user_agent_rotation := use_user_agent_rotation self;
     max_retries := max_retries self; timeout := timeout self;
     max_concurrent_requests := max_concurrent_requests self;
     proxy_manager := proxy_manager self; user_agent_rotator := user_agent_rotator self;
     rate_limiter := rate_limiter self; trace := tr |}.

Definition emit (e : event) : Py t unit :=
  modify (λ self, with_trace (trace self ++ [e]) self).

(** [__init__]: a component is built when its switch is on; the proxy
    manager loads its cache as it is built. *)
Definition __init__ (now : Z) (cached : list ProxyManager.Proxy) (platform : string)
    (use_proxies use_rate_limiting use_user_agent_rotation : bool)
    (max_retries timeout max_concurrent_requests : Z) : t :=
  {| platform := platform; use_proxies := use_proxies;
     use_rate_limiting := use_rate_limiting;
     use_user_agent_rotation := use_user_agent_rotation;
     max_retries := max_retries; timeout := timeout;
     max_concurrent_requests := max_concurrent_requests;
     proxy_manager :=
       if use_proxies
       then Some (ProxyManager.__init__ now cached use_proxies 10 3 300 "data/proxy_cache.json")
       else None;
     user_agent_rotator := use_user_agent_rotation;
     rate_limiter := if use_rate_limiting then Some RateLimiter.__init__ else None;
     trace := [] |}.

(** What the world decides during one attempt: the clock, the draws, the
    user agent the rotator hands out, and the answer of the transport to the
    request sent, a status or an exception. *)
Record world : Type := {
  now_wait : Z;
  jitter_draw : Q;
  proxy_world : ProxyManager.world;
  user_agent : string;
  transport : request → res Z;
  now_failed : Z;
  now_succeeded : Z
}.

(** The arguments of [make_request]. *)
Record args : Type := {
  arg_url : string;
  arg_method : string;
  arg_headers : option (gmap string string);
  arg_data : option (gmap string string);
  arg_params : option (gmap string string);
  arg_proxy : option string
}.

(** Truth value of an optional [str]: [None] and the empty string are false. *)
Definition is_set (proxy : option string) : bool :=
  match proxy with Some p => truthy p | None => false end.

Definition common_headers (h : gmap string string) : gmap string string :=
  <["Upgrade-Insecure-Requests" := "1"]>
  (<["Connection" := "keep-alive"]>
  (<["Accept-Encoding" := "gzip, deflate"]>
  (<["Accept-Language" := "en-US,en;q=0.5"]>
  (<["Accept" := "text/html,application/xhtml+xml,application/xml;q=0.9,*/*;q=0.8"]> h)))).

(** The body of [_make_request_with_retry] up to the request: the wait for
    a slot, the choice of a proxy, the headers. *)
Definition prepare (w : world) (a : args) : Py t request :=
  self ← get;
  match rate_limiter self with
  | Some rl =>
      let '(r, rl') := RateLimiter.wait_if_needed (now_wait w) (jitter_draw w)
                         (platform self) rl in
      modify (with_rate_limiter (Some rl'));;
      match r with
      | Ok slept => emit (WaitedForSlot (platform self) slept)
      | Raise e => raise e
      end
  | None => mret tt
  end;;
  proxy ←
    (if use_proxies self && negb (is_set (arg_proxy a)) then
       match proxy_manager self with
       | Some pm =>
           let '(proxy, pm') := ProxyManager.get_proxy (proxy_world w) pm in
           modify (with_proxy_manager (Some pm'));;
           emit (GotProxy proxy);;
           mret proxy
       | None => raise AttributeError
       end
     else mret (arg_proxy a));
  let user_agent := if user_agent_rotator self then Some (user_agent w) else None in
  let request_headers := default ∅ (arg_headers a) in
  let request_headers :=
    if is_set user_agent then <["User-Agent" := default "" user_agent]> request_headers
    else request_headers in
  mret {| req_method := arg_method a; req_url := arg_url a;
          req_headers := common_headers request_headers;
          req_data := arg_data a; req_params := arg_params a; req_proxy := proxy |}.

Definition tell_rate_limiter (e : event) (m : Py RateLimiter.t unit) : Py t unit :=
  self ← get;
  match rate_limiter self with
  | Some rl =>
      let '(r, rl') := m rl in
      modify (with_rate_limiter (Some rl'));;
      emit e;;
      match r with Ok _ => mret tt | Raise e => raise e end
  | None => mret tt
  end.

Definition tell_proxy_manager (proxy : option string) (e : string → event)
    (m : string → ProxyManager.t → ProxyManager.t) : Py t unit :=
  self ← get;
  match proxy, proxy_manager self with
  | Some p, Some pm =>
      if truthy p then
        modify (with_proxy_manager (Some (m p pm)));;
        emit (e p)
      else mret tt
  | _, _ => mret tt
  end.

(** The body of the [async with self.session.request(...) as response]. *)
Definition handle_response (w : world) (proxy : option string) (status : Z) : Py t Z :=
  self ← get;
  if status =? 429 then
    tell_rate_limiter (RateFailed (platform self) "rate_limit")
      (RateLimiter.mark_request_failed (now_failed w) (platform self) "rate_limit");;
    tell_proxy_manager proxy ProxyFailed ProxyManager.mark_proxy_failed;;
    raise (ClientResponseError 429)
  else if 400 <=? status then
    tell_proxy_manager proxy ProxyFailed ProxyManager.mark_proxy_failed;;
    raise (ClientResponseError status)
  else
    tell_rate_limiter (RateSucceeded (platform self))
      (RateLimiter.mark_request_success (platform self));;
    tell_proxy_manager proxy ProxySucceeded
      (ProxyManager.mark_proxy_success (now_succeeded w));;
    mret status.

(** One run of the body of [_make_request_with_retry]; the [except] clause
    logs and raises the exception again. *)
Definition attempt (w : world) (a : args) : Py t Z :=
  r ← prepare w a;
  emit (Sent r);;
  match transport w r with
  | Ok status => handle_response w (req_proxy r) status
  | Raise e => raise e
  end.

(** [retry_if_exception_type((aiohttp.ClientError, asyncio.TimeoutError))]:
    [aiohttp.ClientResponseError] is a subclass of [aiohttp.ClientError]. *)
Definition retry_if_exception_type (e : exn) : bool :=
  match e with
  | ClientResponseError _ | ClientError | TimeoutError => true
  | KeyError _ | AttributeError | OtherError => false
  end.

(** [wait_exponential(multiplier=1, min=4, max=10)], in seconds. *)
Definition wait_exponential (attempt_number : nat) : Z :=
  Z.max (Z.max 0 4) (Z.min (1 * 2 ^ (Z.of_nat attempt_number - 1)) 10).

(** How a call of the decorated function ends. *)
Inductive outcome : Type :=
| Returned (status : Z)
| Raised (e : exn)
| RetryError (last : exn).

(** The loop of the [@retry] decorator, at attempt [attempt_number] with
    [more] attempts allowed after it: a result is returned; an exception of
    another type than the retried ones goes to the caller as it is; a retried
    one ends the call with [RetryError] when no attempt is left, and else
    the loop sleeps and attempts again.  The result carries the number of
    attempts made. *)
Fixpoint retry_loop (more : nat) (attempt_number : nat) (w : nat → world) (a : args)
    (self : t) : outcome * nat * t :=
  match attempt (w attempt_number) a self with
  | (Ok status, self') => (Returned status, attempt_number, self')
  | (Raise e, self') =>
      if retry_if_exception_type e then
        match more with
        | O => (RetryError e, attempt_number, self')
        | S more' =>
            let self' := with_trace (trace self' ++ [Slept (wait_exponential attempt_number)])
                           self' in
            retry_loop more' (S attempt_number) w a self'
        end
      else (Raised e, attempt_number, self')
  end.

(** [stop_after_attempt(3)]. *)
Definition STOP_AFTER_ATTEMPT : nat := 3.

(** [w n] is the world of the [n]-th attempt, from 1. *)
Definition _make_request_with_retry (w : nat → world) (a : args) (self : t)
    : outcome * nat * t :=
  retry_loop (STOP_AFTER_ATTEMPT - 1) 1 w a self.

(** [make_request] runs the decorated function once it is admitted by the
    semaphore. *)
Definition make_request (w : nat → world) (a : args) (self : t) : outcome * nat * t :=
  _make_request_with_retry w a self.

(** The sleeps of the decorator between the attempts, in seconds and in
    order. *)
Definition sleeps (tr : list event) : list Z :=
  omap (λ e, match e with Slept seconds => Some seconds | _ => None end) tr.

(** Two scrapers between which the rate limiter, if there is one, recorded
    no request. *)
Definition records_nothing (self self' : t) : Prop :=
  option_Forall2 RateLimiter.quiet (rate_limiter self) (rate_limiter self').

End BaseScraper.

(** ** Sample objects *)

Module Sample.

Definition NOW : Z := 63900000000000000.

Definition proxy : ProxyManager.Proxy :=
  {| ProxyManager.url := "http://10.0.0.1:8080"; ProxyManager.protocol := "http";
     ProxyManager.ip := "10.0.0.1"; ProxyManager.port := 8080;
     ProxyManager.country := None; ProxyManager.anonymity := None;
     ProxyManager.speed := None; ProxyManager.last_checked := None;
     ProxyManager.is_working := true; ProxyManager.fail_count := 0;
     ProxyManager.success_count := 0 |}.

(** A manager whose cache held one working proxy. *)
Definition manager : ProxyManager.t :=
  ProxyManager.__init__ NOW [proxy] true 10 3 300 "data/proxy_cache.json".

Definition proxy_world : ProxyManager.world :=
  {| ProxyManager.now_checked := NOW; ProxyManager.now_rotated := NOW;
     ProxyManager.now_validated := NOW; ProxyManager.shuffle_draws := λ _, O;
     ProxyManager.fetched := []; ProxyManager.passed := [];
     ProxyManager.choice_draw := O |}.

(** A world in which the transport answers with [status]. *)
Definition world (status : Z) : BaseScraper.world :=
  {| BaseScraper.now_wait := NOW; BaseScraper.jitter_draw := 1 # 2;
     BaseScraper.proxy_world := proxy_world;
     BaseScraper.user_agent := "Mozilla/5.0";
     BaseScraper.transport := λ _, Ok status;
     BaseScraper.now_failed := NOW; BaseScraper.now_succeeded := NOW |}.


(** A scraper with its three components, and one with none. *)
Definition scraper : BaseScraper.t :=
  BaseScraper.__init__ NOW [proxy] "twitter" true true true 3 30 5.


Definition get_page (proxy : option string) : BaseScraper.args :=
  {| BaseScraper.arg_url := "https://example.org/page";
     BaseScraper.arg_method := "GET"; BaseScraper.arg_headers := None;
     BaseScraper.arg_data := None; BaseScraper.arg_params := None;
     BaseScraper.arg_proxy := proxy |}.

(** The requests that [prepare] builds from [get_page] on these scrapers. *)
Definition request_of (user_agent proxy : option string) : BaseScraper.request :=
  {| BaseScraper.req_method := "GET"; BaseScraper.req_url := "https://example.org/page";
     BaseScraper.req_headers :=
       BaseScraper.common_headers
         (match user_agent with
          | Some ua => <["User-Agent" := ua]> ∅
          | None => ∅
          end);
     BaseScraper.req_data := None; BaseScraper.req_params := None;
     BaseScraper.req_proxy := proxy |}.

End Sample.

(** * Properties *)

Ltac py_unfold := unfold mbind, py_bind, mret, py_ret, get, modify, raise in *.

(** ** The rounding of floats *)

Section rounding.
Local Open Scope Q_scope.

Lemma two_pow_pos e : 0 < 2 ^ e.
Proof. by apply Qpower_0_lt. Qed.

Lemma two_pow_succ e : 2 ^ (e + 1) == 2 * 2 ^ e.
Proof. rewrite Qpower_plus by done. rewrite Qmult_comm. reflexivity. Qed.

Lemma two_pow_Z n : (0 ≤ n)%Z → inject_Z (2 ^ n) == 2 ^ n.
Proof. intros H. by rewrite Zpower_Qpower. Qed.

Lemma ratio_bounds A B P R :
  0 < P → 0 < R → P <= A → A < 2 * P → R <= B → B < 2 * R →
  P / R * (1 # 2) <= A / B ∧ A / B < 2 * (P / R).
Proof.
  intros HP HR H1 H2 H3 H4. assert (HB : 0 < B) by lra.
  set (t := B / R).
  assert (Ht1 : 1 <= t) by (apply Qle_shift_div_l; lra).
  assert (Ht2 : t < 2) by (apply Qlt_shift_div_r; lra).
  split.
  - apply Qle_shift_div_l; [done|].
    assert (E : P / R * (1 # 2) * B == P * t * (1 # 2)) by (unfold t; field; lra).
    rewrite E. assert (Hpt : P * t <= P * 2) by (apply Qmult_le_l; [done|lra]).
    set (pt := P * t) in *. lra.
  - apply Qlt_shift_div_r; [done|].
    assert (E : 2 * (P / R) * B == 2 * (P * t)) by (unfold t; field; lra).
    rewrite E. assert (Hpt : P * 1 <= P * t) by (apply Qmult_le_l; [done|lra]).
    set (pt := P * t) in *. lra.
Qed.

Lemma exponent_spec x : 0 < x → 2 ^ exponent x <= x ∧ x < 2 ^ (exponent x + 1).
Proof.
  intros Hx. destruct x as [a b]. unfold exponent. cbn [Qnum Qden].
  assert (Ha : (0 < a)%Z) by (unfold Qlt in Hx; cbn in Hx; lia).
  set (la := Z.log2 a). set (lb := Z.log2 (Z.pos b)).
  destruct (Z.log2_spec a Ha) as [Ha1 Ha2]. fold la in Ha1, Ha2.
  destruct (Z.log2_spec (Z.pos b) ltac:(lia)) as [Hb1 Hb2]. fold lb in Hb1, Hb2.
  pose proof (Z.log2_nonneg a) as Hla. fold la in Hla.
  pose proof (Z.log2_nonneg (Z.pos b)) as Hlb. fold lb in Hlb.
  assert (HA1 : 2 ^ la <= inject_Z a).
  { rewrite <- two_pow_Z by done. by rewrite Zle_Qle in Ha1. }
  assert (HA2 : inject_Z a < 2 * 2 ^ la).
  { rewrite <- two_pow_succ, <- two_pow_Z by lia. rewrite <- Z.add_1_r in Ha2.
    by rewrite Zlt_Qlt in Ha2. }
  assert (HB1 : 2 ^ lb <= inject_Z (Z.pos b)).
  { rewrite <- two_pow_Z by done. by rewrite Zle_Qle in Hb1. }
  assert (HB2 : inject_Z (Z.pos b) < 2 * 2 ^ lb).
  { rewrite <- two_pow_succ, <- two_pow_Z by lia. rewrite <- Z.add_1_r in Hb2.
    by rewrite Zlt_Qlt in Hb2. }
  assert (Hq : a # b == inject_Z a / inject_Z (Z.pos b)) by apply Qmake_Qdiv.
  pose proof (two_pow_pos la) as Pa. pose proof (two_pow_pos lb) as Pb.
  assert (He : 2 ^ (la - lb)%Z == 2 ^ la / 2 ^ lb).
  { unfold Z.sub. rewrite Qpower_plus, Qpower_opp by done. reflexivity. }
  destruct (ratio_bounds _ _ _ _ Pa Pb HA1 HA2 HB1 HB2) as [Hlo Hhi].
  rewrite <- Hq, <- He in Hlo, Hhi.
  assert (Hlo' : 2 ^ (la - lb - 1)%Z <= a # b).
  { replace (la - lb - 1)%Z with ((la - lb) + (-1))%Z by lia.
    rewrite Qpower_plus by done. exact Hlo. }
  assert (Hhi' : a # b < 2 ^ (la - lb + 1)%Z) by by rewrite two_pow_succ.
  destruct (Qle_bool (2 ^ (la - lb)%Z) (a # b)) eqn:E.
  - apply Qle_bool_iff in E. done.
  - assert (E' : a # b < 2 ^ (la - lb)%Z).
    { apply Qnot_le_lt. intros H. apply Qle_bool_iff in H. congruence. }
    replace (la - lb - 1 + 1)%Z with (la - lb)%Z by lia. done.
Qed.

Lemma exponent_unique e x : 2 ^ e <= x → x < 2 ^ (e + 1) → exponent x = e.
Proof.
  intros H1 H2. assert (Hx : 0 < x) by (pose proof (two_pow_pos e); lra).
  destruct (exponent_spec x Hx) as [H3 H4].
  assert (Ha : (exponent x < e + 1)%Z).
  { apply (Qpower_lt_compat_l_inv 2); [lra|done]. }
  assert (Hb : (e < exponent x + 1)%Z).
  { apply (Qpower_lt_compat_l_inv 2); [lra|done]. }
  lia.
Qed.

Lemma round_half_even_near x :
  x - (1 # 2) <= inject_Z (round_half_even x) ∧ inject_Z (round_half_even x) <= x + (1 # 2).
Proof.
  unfold round_half_even. pose proof (Qfloor_le x) as H1. pose proof (Qlt_floor x) as H2.
  rewrite inject_Z_plus in H2. change (inject_Z 1) with 1 in H2.
  destruct (Qcompare_spec (x - inject_Z (Qfloor x)) (1 # 2)) as [E|E|E].
  - destruct (Z.even (Qfloor x)); rewrite ?inject_Z_plus; change (inject_Z 1) with 1; lra.
  - lra.
  - rewrite inject_Z_plus. change (inject_Z 1) with 1. lra.
Qed.

Lemma round_half_even_le x y : x <= y → (round_half_even x ≤ round_half_even y)%Z.
Proof.
  intros H. pose proof (Qfloor_resp_le x y H) as Hf.
  assert (Hx : (Qfloor x ≤ round_half_even x ≤ Qfloor x + 1)%Z).
  { unfold round_half_even. destruct (_ ?= _); [destruct (Z.even _)|..]; lia. }
  assert (Hy : (Qfloor y ≤ round_half_even y ≤ Qfloor y + 1)%Z).
  { unfold round_half_even. destruct (_ ?= _); [destruct (Z.even _)|..]; lia. }
  destruct (Z.eq_dec (Qfloor x) (Qfloor y)) as [E|E]; [|lia].
  unfold round_half_even. rewrite E.
  destruct (Qcompare_spec (x - inject_Z (Qfloor y)) (1 # 2)) as [Ex|Ex|Ex];
    destruct (Qcompare_spec (y - inject_Z (Qfloor y)) (1 # 2)) as [Ey|Ey|Ey];
    try destruct (Z.even (Qfloor y)); try lia; lra.
Qed.

Lemma round_half_even_Z z : round_half_even (inject_Z z) = z.
Proof.
  unfold round_half_even. rewrite Qfloor_Z.
  destruct (Qcompare_spec (inject_Z z - inject_Z z) (1 # 2)) as [E|E|E]; [lra|done|lra].
Qed.

#[global] Instance round_half_even_comp : Proper (Qeq ==> eq) round_half_even.
Proof.
  intros x y E. unfold round_half_even. rewrite (Qfloor_comp x y E).
  assert (Ec : (x - inject_Z (Qfloor y) ?= 1 # 2) = (y - inject_Z (Qfloor y) ?= 1 # 2)).
  { by rewrite E. }
  by rewrite Ec.
Qed.

(** The significand of a positive number, before it is rounded. *)
Lemma scaled_bounds x :
  0 < x → let e := exponent x in
  2 ^ 52 <= x * 2 ^ (52 - e) ∧ x * 2 ^ (52 - e) < 2 ^ 53
  ∧ x * 2 ^ (52 - e) * 2 ^ (e - 52) == x.
Proof.
  intros Hx e. destruct (exponent_spec x Hx) as [H1 H2]. fold e in H1, H2.
  pose proof (two_pow_pos (52 - e)) as Hp.
  assert (E1 : 2 ^ e * 2 ^ (52 - e) == 2 ^ 52).
  { rewrite <- Qpower_plus by done. by replace (e + (52 - e))%Z with 52%Z by lia. }
  assert (E2 : 2 ^ (e + 1) * 2 ^ (52 - e) == 2 ^ 53).
  { rewrite <- Qpower_plus by done. by replace (e + 1 + (52 - e))%Z with 53%Z by lia. }
  assert (E3 : 2 ^ (52 - e) * 2 ^ (e - 52) == 1).
  { rewrite <- Qpower_plus by done. by replace (52 - e + (e - 52))%Z with 0%Z by lia. }
  split; [|split].
  - rewrite <- E1. by apply Qmult_le_compat_r; [|lra].
  - rewrite <- E2. by apply Qmult_lt_compat_r.
  - rewrite <- Qmult_assoc, E3. ring.
Qed.

Lemma nearest_significand x :
  0 < x →
  (2 ^ 52 ≤ round_half_even (x * 2 ^ (52 - exponent x)) ≤ 2 ^ 53)%Z.
Proof.
  intros Hx. destruct (scaled_bounds x Hx) as (H1 & H2 & _).
  rewrite <- (round_half_even_Z (2 ^ 52)), <- (round_half_even_Z (2 ^ 53)).
  split; apply round_half_even_le.
  - exact H1.
  - apply Qlt_le_weak. exact H2.
Qed.

Lemma nearest_bounds x :
  0 < x → 2 ^ exponent x <= nearest x ∧ nearest x <= 2 ^ (exponent x + 1).
Proof.
  intros Hx. destruct (nearest_significand x Hx) as [H1 H2]. unfold nearest.
  set (e := exponent x) in *. set (n := round_half_even _) in *.
  pose proof (two_pow_pos (e - 52)) as Hp.
  assert (E1 : 2 ^ e == inject_Z (2 ^ 52) * 2 ^ (e - 52)).
  { change (inject_Z (2 ^ 52)) with (2 ^ 52). rewrite <- Qpower_plus by done.
    by replace (52 + (e - 52))%Z with e by lia. }
  assert (E2 : 2 ^ (e + 1) == inject_Z (2 ^ 53) * 2 ^ (e - 52)).
  { change (inject_Z (2 ^ 53)) with (2 ^ 53). rewrite <- Qpower_plus by done.
    by replace (53 + (e - 52))%Z with (e + 1)%Z by lia. }
  rewrite E1, E2. rewrite Zle_Qle in H1, H2.
  split; apply Qmult_le_compat_r; (done || lra).
Qed.

Lemma nearest_error x :
  0 < x → x * (1 - ROUNDOFF) <= nearest x ∧ nearest x <= x * (1 + ROUNDOFF).
Proof.
  intros Hx. destruct (scaled_bounds x Hx) as (H1 & H2 & H3). cbn zeta in *.
  unfold nearest. set (e := exponent x) in *. set (s := x * 2 ^ (52 - e)) in *.
  destruct (round_half_even_near s) as [N1 N2]. set (n := inject_Z (round_half_even s)) in *.
  pose proof (two_pow_pos (e - 52)) as Hp. set (w := 2 ^ (e - 52)) in *.
  assert (Hs : (1 # 2) <= s * ROUNDOFF).
  { unfold ROUNDOFF. change (2 ^ 52) with (4503599627370496 # 1) in H1. lra. }
  assert (L : (s * (1 - ROUNDOFF)) * w <= n * w) by (apply Qmult_le_compat_r; lra).
  assert (U : n * w <= (s * (1 + ROUNDOFF)) * w) by (apply Qmult_le_compat_r; lra).
  assert (E1 : s * (1 - ROUNDOFF) * w == x * (1 - ROUNDOFF)).
  { transitivity (s * w * (1 - ROUNDOFF)); [ring|by rewrite H3]. }
  assert (E2 : s * (1 + ROUNDOFF) * w == x * (1 + ROUNDOFF)).
  { transitivity (s * w * (1 + ROUNDOFF)); [ring|by rewrite H3]. }
  rewrite E1 in L. rewrite E2 in U. done.
Qed.

Lemma nearest_comp x y : 0 < x → x == y → nearest x = nearest y.
Proof.
  intros Hx E. destruct (exponent_spec x Hx) as [H1 H2].
  assert (Ee : exponent y = exponent x).
  { apply exponent_unique; lra. }
  unfold nearest. rewrite Ee.
  assert (Es : round_half_even (x * 2 ^ (52 - exponent x))
               = round_half_even (y * 2 ^ (52 - exponent x))).
  { apply round_half_even_comp. by apply Qmult_comp. }
  by rewrite Es.
Qed.

Lemma exponent_le x y : 0 < x → x <= y → (exponent x ≤ exponent y)%Z.
Proof.
  intros Hx H. destruct (exponent_spec x Hx) as [H1 _].
  destruct (exponent_spec y ltac:(lra)) as [_ H2].
  assert (Hlt : (exponent x < exponent y + 1)%Z).
  { apply (Qpower_lt_compat_l_inv 2); [lra|done]. }
  lia.
Qed.

Lemma nearest_le x y : 0 < x → x <= y → nearest x <= nearest y.
Proof.
  intros Hx H. assert (Hy : 0 < y) by lra.
  pose proof (exponent_le x y Hx H) as He.
  destruct (Z.eq_dec (exponent x) (exponent y)) as [E|E].
  - unfold nearest. rewrite E. pose proof (two_pow_pos (exponent y - 52)).
    pose proof (two_pow_pos (52 - exponent y)).
    apply Qmult_le_compat_r; [|lra]. rewrite <- Zle_Qle.
    apply round_half_even_le. apply Qmult_le_compat_r; lra.
  - destruct (nearest_bounds x Hx) as [_ U]. destruct (nearest_bounds y Hy) as [L _].
    eapply Qle_trans; [exact U|]. eapply Qle_trans; [|exact L].
    apply Qpower_le_compat_l; [lia|lra].
Qed.

Lemma nearest_pos x : 0 < x → 0 < nearest x.
Proof.
  intros Hx. destruct (nearest_bounds x Hx) as [L _].
  pose proof (two_pow_pos (exponent x)). lra.
Qed.

Lemma nearest_idem x : 0 < x → nearest (nearest x) == nearest x.
Proof.
  intros Hx. destruct (nearest_significand x Hx) as [S1 S2].
  destruct (nearest_bounds x Hx) as [B1 B2]. pose proof (nearest_pos x Hx) as Hv.
  set (e := exponent x) in *.
  assert (Hn : nearest x = inject_Z (round_half_even (x * 2 ^ (52 - e))) * 2 ^ (e - 52))
    by done.
  set (n := round_half_even (x * 2 ^ (52 - e))) in *.
  destruct (Z.eq_dec n (2 ^ 53)%Z) as [E|E].
  - assert (Ev : nearest x == 2 ^ (e + 1)).
    { rewrite Hn, E. change (inject_Z (2 ^ 53)) with (2 ^ 53).
      rewrite <- Qpower_plus by done. by replace (53 + (e - 52))%Z with (e + 1)%Z by lia. }
    assert (Ee : exponent (nearest x) = (e + 1)%Z).
    { apply exponent_unique; rewrite Ev; [lra|].
      apply Qpower_lt_compat_l; [lia|lra]. }
    unfold nearest at 1. rewrite Ee.
    assert (Es : nearest x * 2 ^ (52 - (e + 1)) == inject_Z (2 ^ 52)).
    { rewrite Ev, <- Qpower_plus by done.
      by replace (e + 1 + (52 - (e + 1)))%Z with 52%Z by lia. }
    rewrite Es, round_half_even_Z, Ev. change (inject_Z (2 ^ 52)) with (2 ^ 52).
    rewrite <- Qpower_plus by done. by replace (52 + (e + 1 - 52))%Z with (e + 1)%Z by lia.
  - assert (Hlt : nearest x < 2 ^ (e + 1)).
    { rewrite Hn. assert (E2 : 2 ^ (e + 1) == inject_Z (2 ^ 53) * 2 ^ (e - 52)).
      { change (inject_Z (2 ^ 53)) with (2 ^ 53). rewrite <- Qpower_plus by done.
        by replace (53 + (e - 52))%Z with (e + 1)%Z by lia. }
      rewrite E2. apply Qmult_lt_compat_r; [apply two_pow_pos|].
      rewrite <- Zlt_Qlt. lia. }
    assert (Ee : exponent (nearest x) = e) by by apply exponent_unique.
    unfold nearest at 1. rewrite Ee.
    assert (Es : nearest x * 2 ^ (52 - e) == inject_Z n).
    { rewrite Hn, <- Qmult_assoc, <- Qpower_plus by done.
      replace (e - 52 + (52 - e))%Z with 0%Z by lia. ring. }
    rewrite Es, round_half_even_Z. by rewrite Hn.
Qed.

Lemma nearest_double x : 0 < x → nearest (2 * x) == 2 * nearest x.
Proof.
  intros Hx. destruct (exponent_spec x Hx) as [H1 H2].
  assert (Ee : exponent (2 * x) = (exponent x + 1)%Z).
  { pose proof (two_pow_succ (exponent x)) as P1.
    pose proof (two_pow_succ (exponent x + 1)) as P2.
    apply exponent_unique; lra. }
  unfold nearest. rewrite Ee.
  set (e := exponent x).
  assert (P3 : 2 ^ (52 - e) == 2 * 2 ^ (52 - (e + 1))).
  { rewrite <- two_pow_succ. by replace (52 - (e + 1) + 1)%Z with (52 - e)%Z by lia. }
  assert (P4 : 2 ^ (e + 1 - 52) == 2 * 2 ^ (e - 52)).
  { rewrite <- two_pow_succ. by replace (e - 52 + 1)%Z with (e + 1 - 52)%Z by lia. }
  assert (Es : round_half_even (2 * x * 2 ^ (52 - (e + 1)))
               = round_half_even (x * 2 ^ (52 - e))).
  { apply round_half_even_comp. rewrite P3. ring. }
  rewrite Es, P4. ring.
Qed.

(** ** The rounding of any number *)

Lemma binary64_of_pos x : 0 < x → binary64 x = nearest x.
Proof. intros H. unfold binary64. by rewrite (proj1 (Qgt_alt x 0) H). Qed.

Lemma binary64_of_neg x : x < 0 → binary64 x = - nearest (- x).
Proof. intros H. unfold binary64. by rewrite (proj1 (Qlt_alt x 0) H). Qed.

Lemma binary64_of_0 x : x == 0 → binary64 x = 0.
Proof. intros H. unfold binary64. by rewrite (proj1 (Qeq_alt x 0) H). Qed.

#[global] Instance binary64_comp : Proper (Qeq ==> Qeq) binary64.
Proof.
  intros x y E. destruct (Q_dec x 0) as [[H|H]|H].
  - rewrite (binary64_of_neg x H), (binary64_of_neg y) by by rewrite <- E.
    rewrite (nearest_comp (- x) (- y)); [reflexivity|lra|by rewrite E].
  - rewrite (binary64_of_pos x H), (binary64_of_pos y) by by rewrite <- E.
    by rewrite (nearest_comp x y).
  - rewrite (binary64_of_0 x H), (binary64_of_0 y) by by rewrite <- E. reflexivity.
Qed.

Lemma binary64_le x y : x <= y → binary64 x <= binary64 y.
Proof.
  intros H.
  destruct (Q_dec x 0) as [[Hx|Hx]|Hx]; destruct (Q_dec y 0) as [[Hy|Hy]|Hy]; try lra;
    rewrite ?(binary64_of_neg x), ?(binary64_of_pos x), ?(binary64_of_0 x),
            ?(binary64_of_neg y), ?(binary64_of_pos y), ?(binary64_of_0 y) by done.
  - pose proof (nearest_le (- y) (- x) ltac:(lra) ltac:(lra)). lra.
  - pose proof (nearest_pos (- x) ltac:(lra)). pose proof (nearest_pos y Hy). lra.
  - pose proof (nearest_pos (- x) ltac:(lra)). lra.
  - by apply nearest_le.
  - pose proof (nearest_pos y Hy). lra.
  - lra.
Qed.

Lemma binary64_idem x : binary64 (binary64 x) == binary64 x.
Proof.
  destruct (Q_dec x 0) as [[H|H]|H].
  - rewrite (binary64_of_neg x H). pose proof (nearest_pos (- x) ltac:(lra)) as Hp.
    rewrite binary64_of_neg by lra.
    assert (E : - - nearest (- x) == nearest (- x)) by ring.
    rewrite (nearest_comp (- - nearest (- x)) (nearest (- x)) ltac:(lra) E).
    by rewrite nearest_idem by lra.
  - rewrite (binary64_of_pos x H). pose proof (nearest_pos x H) as Hp.
    rewrite binary64_of_pos by done. by apply nearest_idem.
  - by rewrite (binary64_of_0 x H).
Qed.

Lemma binary64_opp x : binary64 (- x) == - binary64 x.
Proof.
  destruct (Q_dec x 0) as [[H|H]|H].
  - rewrite (binary64_of_neg x H), binary64_of_pos by lra. ring.
  - rewrite (binary64_of_pos x H), binary64_of_neg by lra.
    assert (E : - - x == x) by ring. by rewrite (nearest_comp (- - x) x ltac:(lra) E).
  - rewrite (binary64_of_0 x H), binary64_of_0 by lra. reflexivity.
Qed.

Lemma binary64_double x : binary64 (2 * x) == 2 * binary64 x.
Proof.
  destruct (Q_dec x 0) as [[H|H]|H].
  - rewrite (binary64_of_neg x H), binary64_of_neg by lra.
    assert (E : - (2 * x) == 2 * - x) by ring.
    rewrite (nearest_comp (- (2 * x)) (2 * - x) ltac:(lra) E), nearest_double by lra. ring.
  - rewrite (binary64_of_pos x H), binary64_of_pos by lra. by apply nearest_double.
  - rewrite (binary64_of_0 x H), binary64_of_0 by lra. reflexivity.
Qed.

(** A float is a number that its rounding leaves as it is. *)
Lemma binary64_error x :
  0 <= x → x * (1 - ROUNDOFF) <= binary64 x ∧ binary64 x <= x * (1 + ROUNDOFF).
Proof.
  intros H. destruct (Qle_lt_or_eq _ _ H) as [Hx|Hx].
  - rewrite binary64_of_pos by done. by apply nearest_error.
  - rewrite binary64_of_0 by done. rewrite <- Hx. lra.
Qed.

Lemma binary64_nonneg x : 0 <= x → 0 <= binary64 x.
Proof. intros H. change 0 with (binary64 0). by apply binary64_le. Qed.

Lemma binary64_pos x : 0 < x → 0 < binary64 x.
Proof. intros H. rewrite binary64_of_pos by done. by apply nearest_pos. Qed.

End rounding.

(** ** The rate limiter, call by call *)

Section limiter_reads.
Import RateLimiter.

Lemma with_request_history_id self : with_request_history (request_history self) self = self.
Proof. by destruct self. Qed.
Lemma with_burst_count_id self : with_burst_count (burst_count self) self = self.
Proof. by destruct self. Qed.
Lemma with_backoff_multiplier_id self :
  with_backoff_multiplier (backoff_multiplier self) self = self.
Proof. by destruct self. Qed.
Lemma with_last_request_time_id self :
  with_last_request_time (last_request_time self) self = self.
Proof. by destruct self. Qed.

(** A read of a [defaultdict] stores what it returns. *)
Lemma dd_getitem_eq {V} (field : t → gmap string V) store (d : V) k self :
  store (field self) self = self →
  dd_getitem field store d k self =
  (Ok (default d (field self !! k)),
   store (<[k := default d (field self !! k)]> (field self)) self).
Proof.
  intros Hid. unfold dd_getitem. destruct (field self !! k) eqn:E; simpl; [|done].
  rewrite insert_id; [|done]. by rewrite Hid.
Qed.

Lemma history_of_eq k self :
  history_of k self =
  (Ok (default [] (request_history self !! k)),
   with_request_history
     (<[k := default [] (request_history self !! k)]> (request_history self)) self).
Proof. apply dd_getitem_eq, with_request_history_id. Qed.

Lemma burst_of_eq k self :
  burst_of k self =
  (Ok (default 0 (burst_count self !! k)),
   with_burst_count (<[k := default 0 (burst_count self !! k)]> (burst_count self)) self).
Proof. apply dd_getitem_eq, with_burst_count_id. Qed.

Lemma backoff_of_eq k self :
  backoff_of k self =
  (Ok (default 1%Q (backoff_multiplier self !! k)),
   with_backoff_multiplier
     (<[k := default 1%Q (backoff_multiplier self !! k)]> (backoff_multiplier self)) self).
Proof. apply dd_getitem_eq, with_backoff_multiplier_id. Qed.

Lemma last_request_of_eq k self :
  last_request_of k self =
  (Ok (default 0 (last_request_time self !! k)),
   with_last_request_time
     (<[k := default 0 (last_request_time self !! k)]> (last_request_time self)) self).
Proof. apply dd_getitem_eq, with_last_request_time_id. Qed.

End limiter_reads.

Ltac reads :=
  repeat (first [rewrite history_of_eq | rewrite burst_of_eq
                | rewrite backoff_of_eq | rewrite last_request_of_eq]; cbn).

Ltac by_key :=
  try match goal with
      | |- context [<[?k := _]> _ !! ?k'] =>
          tryif unify k k' then fail else destruct (decide (k = k')) as [->|]
      end;
  simplify_map_eq; try done.

Ltac unfold_views :=
  unfold RateLimiter.history_at, RateLimiter.burst_at, RateLimiter.multiplier_at,
    RateLimiter.last_request_at in *.

Ltac agreed := split; intros; unfold_views; cbn; try done; by_key.

Section limiter_calls.
Import RateLimiter.

Lemma agree_refl self : agree self self.
Proof. by split. Qed.

Lemma agree_trans s1 s2 s3 : agree s1 s2 → agree s2 s3 → agree s1 s3.
Proof. intros [] []; split; intros; congruence. Qed.

Lemma agree_recorded now k rl s1 s2 s3 :
  agree s1 s2 → recorded now k rl s2 s3 → recorded now k rl s1 s3.
Proof.
  intros [] [? ? ? ? Hh Hb Hl Hm]. split; intros; try congruence.
  - rewrite Hh. case_decide; congruence.
  - rewrite Hb. case_decide; congruence.
  - rewrite Hl. case_decide; congruence.
Qed.

Lemma rate_limits_get_eq k self :
  rate_limits_get k self =
  match rate_limits self !! "general" with
  | Some g => (Ok (default g (rate_limits self !! k)), self)
  | None => (Raise (KeyError "general"), self)
  end.
Proof.
  unfold rate_limits_get, rate_limits_getitem. py_unfold.
  by destruct (rate_limits self !! "general").
Qed.

Lemma is_in_backoff_spec now k self :
  ∃ self', _is_in_backoff now k self = (in_backoff now k self, self') ∧ agree self self'.
Proof.
  unfold _is_in_backoff, in_backoff, rate_limits_getitem. unfold_views. py_unfold. reads.
  case_match; cbn; [eexists; split; [reflexivity|agreed]|].
  reads. destruct (rate_limits self !! k) eqn:E; cbn.
  - reads. rewrite !lookup_insert_eq. cbn. eexists; split; [reflexivity|agreed].
  - eexists; split; [reflexivity|agreed].
Qed.

Lemma check_rate_limits_spec now k rl self :
  ∃ self', _check_rate_limits now k rl self
           = (Ok (within_limits now (history_at self k) (burst_at self k) rl), self')
    ∧ agree self self'.
Proof.
  unfold _check_rate_limits, within_limits. unfold_views. py_unfold. reads.
  repeat (case_match; cbn; [eexists; split; [reflexivity|agreed]|]).
  reads. case_match; cbn; (eexists; split; [reflexivity|agreed]).
Qed.

Lemma record_request_spec now k g self :
  rate_limits self !! "general" = Some g →
  ∃ self', _record_request now k self = (Ok tt, self')
    ∧ recorded now k (default g (rate_limits self !! k)) self self'.
Proof.
  intros Hg. unfold _record_request, dd_setitem. py_unfold. reads.
  rewrite rate_limits_get_eq. cbn. rewrite Hg. cbn.
  eexists; split; [reflexivity|].
  split; intros; unfold_views; cbn; try done; case_decide; simplify_map_eq; done.
Qed.

(** [acquire] on an enabled limiter whose fallback entry is there. *)
Lemma acquire_spec nb nc nr p g self :
  enabled self = true →
  rate_limits self !! "general" = Some g →
  let k := lower p in
  let rl := default g (rate_limits self !! k) in
  ∃ self', acquire nb nc nr p self = (acquire_answer nb nc k rl self, self')
    ∧ if granted (acquire_answer nb nc k rl self)
      then recorded nr k rl self self' else agree self self'.
Proof.
  intros He Hg k rl. unfold acquire, acquire_answer. py_unfold. rewrite He. cbn.
  rewrite rate_limits_get_eq, Hg. fold k rl.
  destruct (is_in_backoff_spec nb k self) as (s1 & -> & A1).
  destruct (in_backoff nb k self) as [[]|e]; cbn.
  - by eexists.
  - destruct (check_rate_limits_spec nc k rl s1) as (s2 & -> & A2).
    rewrite (agree_history _ _ A1), (agree_burst _ _ A1).
    destruct (within_limits nc (history_at self k) (burst_at self k) rl); cbn.
    + assert (Hg2 : rate_limits s2 !! "general" = Some g).
      { by rewrite (agree_limits _ _ A2), (agree_limits _ _ A1). }
      destruct (record_request_spec nr k g s2 Hg2) as (s3 & -> & R).
      eexists; split; [reflexivity|]. cbn.
      rewrite (agree_limits _ _ A2), (agree_limits _ _ A1) in R. fold rl in R.
      eapply agree_recorded; [|done]. by eapply agree_trans.
    + eexists; split; [reflexivity|]. cbn. by eapply agree_trans.
  - by eexists.
Qed.

(** [acquire] outside of a backoff. *)
Lemma acquire_calm nb nc nr p g self :
  enabled self = true →
  rate_limits self !! "general" = Some g →
  Qle_bool (multiplier_at self (lower p)) 1 = true →
  ∃ self',
    acquire nb nc nr p self
    = (Ok (within_limits nc (history_at self (lower p)) (burst_at self (lower p))
             (default g (rate_limits self !! lower p))), self')
    ∧ if within_limits nc (history_at self (lower p)) (burst_at self (lower p))
           (default g (rate_limits self !! lower p))
      then recorded nr (lower p) (default g (rate_limits self !! lower p)) self self'
      else agree self self'.
Proof.
  intros He Hg Hm. destruct (acquire_spec nb nc nr p g self He Hg) as (s' & E & R).
  cbn zeta in E, R. unfold acquire_answer, in_backoff in E, R. rewrite Hm in E, R.
  exists s'. split; [done|]. by destruct (within_limits _ _ _ _).
Qed.

End limiter_calls.

(** ** The scenario of three calls of [acquire] *)

Section scenario.
Import RateLimiter.

Lemma count_after_bounds cutoff h : 0 ≤ count_after cutoff h ≤ Z.of_nat (length h).
Proof.
  unfold count_after. split; [lia|]. apply inj_le, length_filter.
Qed.

Lemma count_after_nil cutoff : count_after cutoff [] = 0.
Proof. done. Qed.

Lemma general_after_set_rate_limit p rl self g :
  rate_limits self !! "general" = Some g →
  ∃ g', rate_limits (snd (set_rate_limit p rl self)) !! "general" = Some g'.
Proof.
  intros Hg. cbn. destruct (decide (lower p = "general")) as [->|];
    simplify_map_eq; eauto.
Qed.

(** C7. An enabled limiter in its initial state, with a key configured with
    [requests_per_minute = 2], [burst_limit = 2] and [cooldown_period = 1]
    (and hourly and daily ceilings that are not below the ceiling of the
    minute): three calls of [acquire] on that key with no burst reset between
    them answer true, true and false, at whatever instants the clock is
    read. *)
Theorem three_acquires_true_true_false
    (key : string) (rph rpd : Z) (jitter : Q) (b1 c1 r1 b2 c2 r2 b3 c3 r3 : Z) :
  2 ≤ rph → 2 ≤ rpd →
  let cfg := {| requests_per_minute := 2; requests_per_hour := rph;
                requests_per_day := rpd; burst_limit := 2;
                cooldown_period := 1; jitter_range := jitter |} in
  let fresh := snd (set_rate_limit key cfg __init__) in
  enabled fresh = true
  ∧ fst (run [Acquire b1 c1 r1 key; Acquire b2 c2 r2 key; Acquire b3 c3 r3 key] fresh)
    = [Ok (VBool true); Ok (VBool true); Ok (VBool false)].
Proof.
  intros Hh Hd cfg fresh. split; [done|].
  destruct (general_after_set_rate_limit key cfg __init__ _ eq_refl) as [g Hg].
  fold fresh in Hg.
  assert (Hcfg : default g (rate_limits fresh !! lower key) = cfg).
  { unfold fresh. cbn. by rewrite lookup_insert_eq. }
  assert (Hm : Qle_bool (multiplier_at fresh (lower key)) 1 = true) by done.
  (* first call *)
  destruct (acquire_calm b1 c1 r1 key g fresh eq_refl Hg Hm) as (s1 & E1 & R1).
  rewrite Hcfg in E1, R1.
  assert (W1 : within_limits c1 (history_at fresh (lower key))
                 (burst_at fresh (lower key)) cfg = true).
  { unfold within_limits.
    change (history_at fresh (lower key)) with (@nil Z).
    change (burst_at fresh (lower key)) with 0.
    cbn. rewrite !andb_true_iff, !negb_true_iff, !Z.leb_gt, !count_after_nil. lia. }
  rewrite W1 in E1, R1. destruct R1 as [Hl1 He1 _ _ Hh1 Hb1 _ Hm1].
  specialize (Hh1 (lower key)). specialize (Hb1 (lower key)).
  rewrite decide_True in Hh1 by done. rewrite decide_True in Hb1 by done.
  (* second call *)
  destruct (acquire_calm b2 c2 r2 key g s1) as (s2 & E2 & R2);
    [by rewrite He1|by rewrite Hl1|by rewrite Hm1|].
  rewrite Hl1, Hcfg, Hh1, Hb1 in E2, R2.
  assert (W2 : within_limits c2 (deque_append HISTORY_MAXLEN r1
                 (history_at fresh (lower key)))
                 (burst_at fresh (lower key) + 1) cfg = true).
  { unfold within_limits.
    change (deque_append _ _ _) with [r1]. change (burst_at _ _ + 1) with 1.
    cbn [requests_per_minute requests_per_hour requests_per_day burst_limit cfg].
    pose proof (count_after_bounds (c2 - MINUTE) [r1]).
    pose proof (count_after_bounds (c2 - HOUR) [r1]).
    pose proof (count_after_bounds (c2 - DAY) [r1]). cbn [length] in *.
    rewrite !andb_true_iff, !negb_true_iff, !Z.leb_gt. lia. }
  rewrite W2 in E2, R2. destruct R2 as [Hl2 He2 _ _ _ Hb2 _ Hm2].
  specialize (Hb2 (lower key)). rewrite decide_True, Hb1 in Hb2 by done.
  (* third call *)
  destruct (acquire_calm b3 c3 r3 key g s2) as (s3 & E3 & _);
    [by rewrite He2, He1|by rewrite Hl2, Hl1|by rewrite Hm2, Hm1|].
  rewrite Hl2, Hl1, Hcfg, Hb2 in E3.
  assert (W3 : ∀ h, within_limits c3 h (burst_at fresh (lower key) + 1 + 1) cfg = false).
  { intros h. unfold within_limits. change (burst_at _ _ + 1 + 1) with 2.
    cbn [burst_limit cfg]. replace (negb (2 <=? 2)) with false by done.
    by rewrite andb_false_r. }
  rewrite W3 in E3.
  cbn [run step]. py_unfold. rewrite E1, E2, E3. done.
Qed.

Lemma three_acquires_true_true_false_witness :
  2 ≤ 100 ∧ 2 ≤ 1000
  ∧ let cfg := {| requests_per_minute := 2; requests_per_hour := 100;
                  requests_per_day := 1000; burst_limit := 2;
                  cooldown_period := 1; jitter_range := 1 # 10 |} in
    let fresh := snd (set_rate_limit "demo" cfg __init__) in
    enabled fresh = true
    ∧ fst (run [Acquire 5 5 5 "demo"; Acquire 6 6 6 "demo"; Acquire 7 7 7 "demo"] fresh)
      = [Ok (VBool true); Ok (VBool true); Ok (VBool false)].
Proof.
  split; [lia|]. split; [lia|].
  apply (three_acquires_true_true_false "demo" 100 1000 (1 # 10) 5 5 5 6 6 6 7 7 7); lia.
Defined.

End scenario.

(** ** The backoff multiplier *)

Section multiplier.
Import RateLimiter.

Lemma Qltb_true x y : Qltb x y = true ↔ (x < y)%Q.
Proof.
  unfold Qltb. rewrite negb_true_iff, <- not_true_iff_false, Qle_bool_iff.
  split; [apply Qnot_le_lt|apply Qlt_not_le].
Qed.

Lemma Qltb_false x y : Qltb x y = false ↔ (y <= x)%Q.
Proof. unfold Qltb. by rewrite negb_false_iff, Qle_bool_iff. Qed.

Lemma calculate_delay_agree now u k rl self :
  ∃ d self', _calculate_delay now u k rl self = (Ok d, self') ∧ agree self self'.
Proof.
  unfold _calculate_delay. py_unfold. reads.
  case_match; do 2 eexists; (split; [reflexivity|agreed]).
Qed.

Lemma wait_if_needed_agree now u p self :
  ∃ r self', wait_if_needed now u p self = (r, self') ∧ agree self self'.
Proof.
  unfold wait_if_needed. py_unfold. case_match; cbn.
  { do 2 eexists; split; [reflexivity|apply agree_refl]. }
  rewrite rate_limits_get_eq. destruct (rate_limits self !! "general") as [g|]; cbn.
  - destruct (calculate_delay_agree now u (lower p)
                (default g (rate_limits self !! lower p)) self) as (d & s' & -> & A).
    case_match; do 2 eexists; (split; [reflexivity|done]).
  - do 2 eexists; split; [reflexivity|apply agree_refl].
Qed.

Lemma mark_request_success_spec p self :
  ∃ self', mark_request_success p self = (Ok tt, self')
    ∧ rate_limits self' = rate_limits self ∧ enabled self' = enabled self
    ∧ max_backoff self' = max_backoff self ∧ pending self' = pending self
    ∧ (∀ k, history_at self' k = history_at self k)
    ∧ (∀ k, burst_at self' k = burst_at self k)
    ∧ (∀ k, last_request_at self' k = last_request_at self k)
    ∧ ∀ k, multiplier_at self' k =
           if decide (k = lower p) then decayed (multiplier_at self (lower p))
           else multiplier_at self k.
Proof.
  unfold mark_request_success, decayed, dd_setitem. py_unfold. reads. unfold_views.
  case_match; cbn.
  - reads. rewrite lookup_insert_eq. cbn.
    eexists; split; [reflexivity|]. repeat split; try done.
    intros k. cbn. case_decide; by simplify_map_eq.
  - eexists; split; [reflexivity|]. repeat split; try done.
    intros k. cbn. case_decide; by simplify_map_eq.
Qed.

Lemma mark_request_failed_spec now p e self :
  ∃ self', mark_request_failed now p e self = (Ok tt, self')
    ∧ rate_limits self' = rate_limits self ∧ enabled self' = enabled self
    ∧ max_backoff self' = max_backoff self
    ∧ ∀ k, multiplier_at self' k =
           if decide (k = lower p)
           then raised (max_backoff self) e (multiplier_at self (lower p))
           else multiplier_at self k.
Proof.
  unfold mark_request_failed, raised, dd_setitem. py_unfold. unfold_views.
  destruct (bool_decide (e ∈ ["rate_limit"; "429"; "too_many_requests"]));
    [|destruct (bool_decide (e ∈ ["timeout"; "connection_error"]))];
    reads; (eexists; split; [reflexivity|]); repeat split; try done;
    intros k; cbn; case_decide; by simplify_map_eq.
Qed.

End multiplier.

Section reachable.
Import RateLimiter.

Lemma bounded_init : bounded __init__.
Proof.
  split; [by eexists|done|]. intros k. unfold multiplier_at. cbn.
  rewrite lookup_empty. cbn. lra.
Qed.

Lemma bounded_agree self self' : agree self self' → bounded self → bounded self'.
Proof.
  intros [Hl _ Hm _ _ _ Hk _] [Hg Hx Hb]. split.
  - by rewrite Hl.
  - by rewrite Hm.
  - intros k. by rewrite Hk.
Qed.

Lemma bounded_recorded now k rl self self' :
  recorded now k rl self self' → bounded self → bounded self'.
Proof.
  intros [Hl _ Hm _ _ _ _ Hk] [Hg Hx Hb]. split.
  - by rewrite Hl.
  - by rewrite Hm.
  - intros k'. by rewrite Hk.
Qed.

(** The product of a multiplier by the float [0.8], as the code rounds
    it. *)
Lemma decay_step m :
  (0 <= m)%Q →
  (m * (7999 # 10000) <= binary64 (m * FLOAT_0_8) <= m * (8001 # 10000))%Q.
Proof.
  intros H. destruct (binary64_error (m * FLOAT_0_8)) as [L U].
  { unfold FLOAT_0_8. lra. }
  unfold FLOAT_0_8, ROUNDOFF in *. lra.
Qed.

(** The product of a multiplier by 1.5, as the code rounds it. *)
Lemma raise_step m :
  (0 <= m)%Q → (m * (14 # 10) <= binary64 (m * (3 # 2)) <= m * (16 # 10))%Q.
Proof.
  intros H. destruct (binary64_error (m * (3 # 2))) as [L U]; [lra|].
  unfold ROUNDOFF in *. lra.
Qed.

Lemma decayed_bounds m : (1 <= m <= 60)%Q → (1 <= decayed m <= 60)%Q.
Proof.
  intros [H1 H2]. unfold decayed. destruct (Qltb 1 m) eqn:E; [|done].
  apply Qltb_true in E. split; [apply Q.le_max_l|].
  pose proof (decay_step m ltac:(lra)) as [_ U].
  apply Q.max_lub_iff. split; lra.
Qed.

Lemma raised_bounds e m : (1 <= m <= 60)%Q → (1 <= raised 60 e m <= 60)%Q.
Proof.
  intros [H1 H2]. unfold raised. pose proof (raise_step m ltac:(lra)) as [L _].
  repeat case_match; try done.
  all: split; [apply Q.min_glb_iff; split; lra|apply Q.le_min_l].
Qed.

Lemma acquire_disabled nb nc nr p self :
  enabled self = false → acquire nb nc nr p self = (Ok true, self).
Proof. intros He. unfold acquire. py_unfold. by rewrite He. Qed.

Lemma reset_multiplier p self :
  ∃ self', reset p self = (Ok tt, self')
    ∧ rate_limits self' = rate_limits self ∧ max_backoff self' = max_backoff self
    ∧ ∀ k, multiplier_at self' k = 1%Q ∨ multiplier_at self' k = multiplier_at self k.
Proof.
  unfold reset, dd_setitem. py_unfold.
  destruct p as [p|]; [destruct (truthy p)|]; reads;
    (eexists; split; [reflexivity|]); repeat split; try done;
    intros k; unfold_views; cbn; rewrite ?lookup_empty; auto.
  destruct (decide (k = lower p)); simplify_map_eq; auto.
Qed.

Lemma run_task_agree_multiplier now i self :
  ∃ self', run_task now i self = (Ok tt, self')
    ∧ rate_limits self' = rate_limits self ∧ max_backoff self' = max_backoff self
    ∧ enabled self' = enabled self
    ∧ (∀ k, multiplier_at self' k = multiplier_at self k)
    ∧ (∀ k, history_at self' k = history_at self k).
Proof.
  unfold run_task, _reset_burst_count, dd_setitem. py_unfold.
  destruct (pending self !! i) as [tk|]; [|by eexists].
  case_match; [|by eexists]. reads. by eexists.
Qed.

(** Every call keeps the fallback entry, the cap and the range of the
    multipliers. *)
Lemma step_bounded c self : bounded self → bounded (snd (step c self)).
Proof.
  intros Hb.
  destruct c as [nb nc nr platform|now u platform|platform|now platform error_type
                |platform rl|platform| | |now i]; cbn [step]; py_unfold.
  - destruct (enabled self) eqn:He.
    + destruct (bounded_general _ Hb) as [g Hg].
      destruct (acquire_spec nb nc nr platform g self He Hg) as (s' & -> & R).
      destruct (granted _); destruct (acquire_answer _ _ _ _ _); cbn;
        eauto using bounded_agree, bounded_recorded.
    + by rewrite acquire_disabled.
  - destruct (wait_if_needed_agree now u platform self) as (r & s' & -> & A).
    destruct r; cbn; eauto using bounded_agree.
  - destruct (mark_request_success_spec platform self)
      as (s' & -> & Hl & _ & Hm & _ & _ & _ & _ & Hk). cbn.
    destruct Hb as [Hg Hx Hq]. split; [by rewrite Hl|by rewrite Hm|].
    intros k. rewrite Hk. case_decide; [by apply decayed_bounds|done].
  - destruct (mark_request_failed_spec now platform error_type self)
      as (s' & -> & Hl & _ & Hm & Hk). cbn.
    destruct Hb as [Hg Hx Hq]. split; [by rewrite Hl|by rewrite Hm|].
    intros k. rewrite Hk, Hx. case_decide; [by apply raised_bounds|done].
  - cbn. destruct Hb as [[g Hg] Hx Hq]. split; [|done|done]. cbn.
    destruct (decide (lower platform = "general")) as [->|]; simplify_map_eq; eauto.
  - destruct (reset_multiplier platform self) as (s' & -> & Hl & Hm & Hk). cbn.
    destruct Hb as [Hg Hx Hq]. split; [by rewrite Hl|by rewrite Hm|].
    intros k. destruct (Hk k) as [->| ->]; [lra|done].
  - cbn. by destruct Hb.
  - cbn. by destruct Hb.
  - destruct (run_task_agree_multiplier now i self) as (s' & -> & Hl & Hm & _ & Hk & _).
    cbn. destruct Hb as [Hg Hx Hq]. split; [by rewrite Hl|by rewrite Hm|].
    intros k. by rewrite Hk.
Qed.

Lemma run_bounded cs self : bounded self → bounded (snd (run cs self)).
Proof.
  revert self. induction cs as [|c cs IH]; intros self Hb; [done|].
  cbn [run]. pose proof (step_bounded c self Hb) as Hs.
  destruct (step c self) as [r s1]. specialize (IH s1 Hs).
  by destruct (run cs s1).
Qed.

Lemma run_app cs1 cs2 self :
  snd (run (cs1 ++ cs2) self) = snd (run cs2 (snd (run cs1 self))).
Proof.
  revert self. induction cs1 as [|c cs1 IH]; intros self; [done|].
  cbn [run app]. destruct (step c self) as [r s1]. specialize (IH s1).
  destruct (run (cs1 ++ cs2) s1), (run cs1 s1). done.
Qed.

End reachable.

Section multiplier_claims.
Import RateLimiter.

(** C5. Take a limiter after any calls, then any sequence of calls of
    [mark_request_failed] on a platform with error types of the rate limit
    and nothing between them.  One more such call sets the multiplier of the
    platform to the smaller of 60 and its double, which does not lower it and
    leaves it at most 60: along the sequence the multiplier never decreases,
    doubles at each call up to the cap, and never exceeds the cap. *)
Theorem backoff_doubles_up_to_cap
    (cs : list call) (p : string) (fs : list (Z * rate_limited))
    (now : Z) (e : rate_limited) :
  let before := snd (run (failures p fs) (snd (run cs __init__))) in
  let after := snd (mark_request_failed now p (error_type_of e) before) in
  max_backoff before = 60%Q
  ∧ multiplier after p = Qmin 60 (multiplier before p * 2)
  ∧ (multiplier before p <= multiplier after p)%Q
  ∧ (multiplier after p <= 60)%Q.
Proof.
  intros before after.
  assert (Hb : bounded before).
  { unfold before. rewrite <- run_app. apply run_bounded, bounded_init. }
  destruct Hb as [_ Hx Hq]. split; [done|].
  unfold after, multiplier.
  destruct (mark_request_failed_spec now p (error_type_of e) before)
    as (s' & -> & _ & _ & _ & Hk). cbn [snd].
  rewrite Hk, decide_True, Hx by done.
  assert (Hr : raised 60 (error_type_of e) (multiplier_at before (lower p))
               = Qmin 60 (multiplier_at before (lower p) * 2)) by by destruct e.
  rewrite Hr. split; [done|]. specialize (Hq (lower p)).
  split; [apply Q.min_glb_iff; split; lra|apply Q.le_min_l].
Qed.

(** C6, the counterexample: from a multiplier of 2.0, one call of
    [mark_request_success] leaves the float 1.6 and a second call leaves the
    float 1.2800000000000002. *)
Lemma mark_request_success_twice_differs :
  let self := snd (mark_request_failed 0 "twitter" "rate_limit" __init__) in
  let once := snd (mark_request_success "twitter" self) in
  let twice := snd (mark_request_success "twitter" once) in
  multiplier self "twitter" = 2%Q
  ∧ (multiplier once "twitter" == 3602879701896397 # 2251799813685248)%Q
  ∧ (multiplier twice "twitter" == 1441151880758559 # 1125899906842624)%Q
  ∧ twice ≠ once.
Proof.
  cbv zeta. repeat split; [by vm_compute..|].
  intros E. apply (f_equal (λ s, Qred (multiplier s "twitter"))) in E.
  vm_compute in E. discriminate.
Qed.

(** C6, as amended. A call of [mark_request_success] replaces a multiplier
    above 1 by its product by 0.8, as floats multiply, or by 1 if that is
    larger, which is less than the multiplier was but not below 1; it leaves
    the multiplier of every platform of another name, for names whose
    characters are all below U+0100, and all the rest of the limiter as
    they are.  A second call in immediate succession leaves the multiplier
    as the first left it exactly when the first left it at the floor. *)
Theorem mark_request_success_decays (self : t) (p : string) :
  let once := snd (mark_request_success p self) in
  let twice := snd (mark_request_success p once) in
  multiplier once p
  = (if Qltb 1 (multiplier self p)
     then Qmax 1 (binary64 (multiplier self p * FLOAT_0_8))
     else multiplier self p)
  ∧ ((1 < multiplier self p)%Q →
     (1 <= multiplier once p)%Q ∧ (multiplier once p < multiplier self p)%Q)
  ∧ (is_latin1 p = true →
     ∀ q, is_latin1 q = true → lower q ≠ lower p →
          multiplier once q = multiplier self q)
  ∧ (∀ q, history once q = history self q ∧ burst once q = burst self q
          ∧ last_request once q = last_request self q)
  ∧ rate_limits once = rate_limits self ∧ enabled once = enabled self
  ∧ max_backoff once = max_backoff self ∧ pending once = pending self
  ∧ ((multiplier twice p == multiplier once p)%Q ↔ (multiplier once p <= 1)%Q).
Proof.
  intros once twice. unfold twice, once, multiplier, history, burst, last_request.
  destruct (mark_request_success_spec p self)
    as (s1 & -> & Hl & He & Hm & Hp & Hh & Hb & Hr & Hk). cbn [snd].
  destruct (mark_request_success_spec p s1) as (s2 & -> & _ & _ & _ & _ & _ & _ & _ & Hk2).
  cbn [snd].
  assert (Hd : ∀ m, (1 < m)%Q → (1 <= decayed m)%Q ∧ (decayed m < m)%Q).
  { intros m H. unfold decayed. rewrite (proj2 (Qltb_true 1 m) H).
    pose proof (decay_step m ltac:(lra)) as [_ U].
    split; [apply Q.le_max_l|]. apply Q.max_lub_lt; lra. }
  refine (conj _ (conj _ (conj _ (conj _ (conj _ (conj _ (conj _ (conj _ _)))))))); try done.
  - by rewrite Hk, decide_True.
  - intros H. rewrite Hk, decide_True by done. by apply Hd.
  - intros _ q _ Hq. by rewrite Hk, decide_False.
  - rewrite Hk2, decide_True by done. split.
    + intros Heq. apply Qnot_lt_le. intros H. destruct (Hd _ H) as [_ Hlt]. lra.
    + intros Hle. unfold decayed.
      destruct (Qltb 1 _) eqn:E; [|reflexivity]. apply Qltb_true in E. lra.
Qed.

(** C3, a call that raises: on a limiter just built, a rate-limit failure
    reported for a platform without an entry of its own doubles its
    multiplier, and the next [acquire] for that platform raises [KeyError]
    from [_is_in_backoff]. *)
Theorem acquire_raises_for_unconfigured_platform_in_backoff :
  fst (run [MarkRequestFailed 63900000000000000 "reddit" "rate_limit";
            Acquire 63900000001000000 63900000001000000 63900000001000000 "reddit"]
         __init__)
  = [Ok VNone; Raise (KeyError "reddit")].
Proof. by vm_compute. Qed.

(** The same for every platform without an entry and every limiter that
    holds a multiplier above 1 for it. *)
Lemma acquire_raises_without_entry nb nc nr p g self :
  enabled self = true →
  rate_limits self !! "general" = Some g →
  rate_limits self !! lower p = None →
  (1 < multiplier self p)%Q →
  fst (acquire nb nc nr p self) = Raise (KeyError (lower p)).
Proof.
  intros He Hg Hn Hm. destruct (acquire_spec nb nc nr p g self He Hg) as (s' & -> & _).
  cbn. unfold acquire_answer, in_backoff. rewrite Hn.
  apply Qltb_true in Hm. unfold Qltb, multiplier in Hm.
  apply negb_true_iff in Hm. by rewrite Hm.
Qed.

(** [wait_if_needed], whose lookup has the fallback, raises for no
    platform as long as the fallback entry is there. *)
Lemma wait_if_needed_returns now u p g self :
  rate_limits self !! "general" = Some g →
  ∃ w, fst (wait_if_needed now u p self) = Ok w.
Proof.
  intros Hg. unfold wait_if_needed. py_unfold. case_match; [by eexists|].
  rewrite rate_limits_get_eq, Hg.
  destruct (calculate_delay_agree now u (lower p)
              (default g (rate_limits self !! lower p)) self) as (d & s' & -> & _).
  case_match; by eexists.
Qed.

End multiplier_claims.

(** ** The wait of [wait_if_needed] *)

Section wait.
Import RateLimiter.

(** The delay [_calculate_delay] returns, from what the limiter holds. *)
Lemma calculate_delay_spec now u k rl self :
  let jitter := uniform (- jitter_range rl) (jitter_range rl) u in
  let delay := Qmax 0 (binary64 (binary64 (cooldown_period rl * multiplier_at self k)
                                 * binary64 (1 + jitter))) in
  let elapsed := total_seconds (now - last_request_at self k) in
  ∃ self', _calculate_delay now u k rl self
           = (Ok (if Qltb elapsed delay then binary64 (delay - elapsed) else 0)%Q, self')
    ∧ agree self self'.
Proof.
  unfold _calculate_delay. py_unfold. reads. unfold_views.
  case_match; eexists; (split; [reflexivity|agreed]).
Qed.

(** A draw of [random.uniform(-r, r)], for a float [r] that is not
    negative, is at most [r] in absolute value, roundings included. *)
Lemma uniform_jitter r u :
  (0 <= u <= 1)%Q → (0 <= r)%Q → (binary64 r == r)%Q →
  (Qabs (uniform (- r) r u) <= r)%Q.
Proof.
  intros [H0 H1] Hr Hf. unfold uniform.
  assert (ET : (binary64 (r - - r) == 2 * r)%Q).
  { assert (E : (r - - r == 2 * r)%Q) by ring. by rewrite E, binary64_double, Hf. }
  set (T := binary64 (r - - r)) in *.
  assert (Ht : (0 <= binary64 (T * u) <= 2 * r)%Q).
  { split; [apply binary64_nonneg; nra|].
    assert (HT : (binary64 T == T)%Q) by apply binary64_idem.
    eapply Qle_trans; [apply (binary64_le (T * u) T); nra|]. lra. }
  set (t := binary64 (T * u)) in *.
  apply Qabs_Qle_condition. split.
  - pose proof (binary64_opp r) as Ho.
    pose proof (binary64_le (- r) (- r + t) ltac:(lra)). lra.
  - pose proof (binary64_le (- r + t) r ltac:(lra)). lra.
Qed.

(** Three roundings in a row move a product of two factors that are not
    negative by less than four units of roundoff. *)
Lemma rounded_product_close a b :
  (0 <= a)%Q → (0 <= b)%Q →
  (a * b * (1 - 4 * ROUNDOFF) <= binary64 (binary64 a * binary64 b)
   <= a * b * (1 + 4 * ROUNDOFF))%Q.
Proof.
  intros Ha Hb.
  destruct (binary64_error a Ha) as [La Ua]. destruct (binary64_error b Hb) as [Lb Ub].
  pose proof (binary64_nonneg a Ha) as Na. pose proof (binary64_nonneg b Hb) as Nb.
  set (A := binary64 a) in *. set (B := binary64 b) in *.
  assert (Nab : (0 <= A * B)%Q) by by apply Qmult_le_0_compat.
  destruct (binary64_error (A * B) Nab) as [L U].
  assert (R0 : (0 <= 1 - ROUNDOFF)%Q) by (unfold ROUNDOFF; lra).
  assert (Lab : (a * (1 - ROUNDOFF) * (b * (1 - ROUNDOFF)) <= A * B)%Q).
  { apply Qmult_le_compat_nonneg; split; try done; by apply Qmult_le_0_compat. }
  assert (Uab : (A * B <= a * (1 + ROUNDOFF) * (b * (1 + ROUNDOFF)))%Q).
  { by apply Qmult_le_compat_nonneg. }
  assert (Nn : (0 <= a * b)%Q) by by apply Qmult_le_0_compat.
  set (ab := (a * b)%Q) in *.
  assert (E1 : (a * (1 - ROUNDOFF) * (b * (1 - ROUNDOFF))
                == ab * ((1 - ROUNDOFF) * (1 - ROUNDOFF)))%Q) by (unfold ab; ring).
  assert (E2 : (a * (1 + ROUNDOFF) * (b * (1 + ROUNDOFF))
                == ab * ((1 + ROUNDOFF) * (1 + ROUNDOFF)))%Q) by (unfold ab; ring).
  rewrite E1 in Lab. rewrite E2 in Uab. set (AB := (A * B)%Q) in *.
  unfold ROUNDOFF in *. split.
  - eapply Qle_trans; [|exact L].
    eapply Qle_trans; [|apply Qmult_le_compat_r; [exact Lab|lra]]. lra.
  - eapply Qle_trans; [exact U|].
    eapply Qle_trans; [apply Qmult_le_compat_r; [exact Uab|lra]|]. lra.
Qed.

(** C4, the counterexample: twitter after one failure taken for a rate
    limit, one second later, with the largest draw of [random()].  The code
    sleeps 3.4000000000000004 seconds, which is
    [cooldown_period * backoff_multiplier * (1 + j)] less the second
    elapsed for no [j] within [jitter_range] in absolute value: the product
    [4.0 * (1 + j)] is rounded, and the [j] that the equation asks for is
    0.10000000000000009. *)
Lemma wait_is_not_the_exact_product :
  let start := 63900000000000000 in
  let self := snd (run [MarkRequestFailed start "twitter" "rate_limit"] __init__) in
  let draw := (9007199254740991 # 9007199254740992)%Q in
  ∃ rl wait,
    config self "twitter" = Some rl
    ∧ fst (wait_if_needed (start + SECOND) draw "twitter" self) = Ok wait
    ∧ (wait == 1914029841632461 # 562949953421312)%Q
    ∧ (cooldown_period rl * multiplier self "twitter" == 4)%Q
    ∧ ∀ j, (Qabs j <= jitter_range rl)%Q →
        ¬ (wait == Qmax 0 (cooldown_period rl * multiplier self "twitter" * (1 + j))
                   - (SECOND # 1) / inject_Z SECOND)%Q.
Proof.
  cbv zeta. eexists _, _. split; [reflexivity|]. split; [by vm_compute|].
  assert (Hw : ∀ w : Q, Qred w = (1914029841632461 # 562949953421312)%Q →
                        (w == 1914029841632461 # 562949953421312)%Q).
  { intros w E. rewrite <- E. symmetry. apply Qred_correct. }
  split; [by apply Hw; vm_compute|]. split; [by vm_compute|].
  intros j Hj Heq. apply Qabs_Qle_condition in Hj as [Hj1 Hj2].
  match type of Heq with (?w == _)%Q => rewrite (Hw w ltac:(by vm_compute)) in Heq end.
  match type of Heq with
    (_ == Qmax 0 (?c * ?m * _) - _)%Q =>
      assert (Ec : (c * m == 4)%Q) by (by vm_compute); rewrite Ec in Heq
  end.
  change (jitter_range _) with FLOAT_0_1 in Hj1, Hj2. unfold FLOAT_0_1 in Hj1, Hj2.
  assert (Es : ((SECOND # 1) / inject_Z SECOND == 1)%Q) by (by vm_compute).
  rewrite Es in Heq.
  destruct (Q.max_spec 0 (4 * (1 + j))) as [[_ Hx]|[_ Hx]]; rewrite Hx in Heq; lra.
Qed.

(** C4, as amended. For a limiter after any calls, enabled, a platform,
    an instant and a draw of the generator between 0 and 1,
    [wait_if_needed] returns, and the time it sleeps is the delay
    [max(0, cooldown_period * backoff_multiplier * (1 + j))], each product
    and sum rounded as floats are, less the time elapsed since the last
    request of the platform when that time is smaller, the difference
    rounded too, and 0 otherwise; it is never negative.  The jitter [j] is
    what [random.uniform] makes of the draw; it is at most [jitter_range]
    in absolute value, for a [jitter_range] that is a float and not
    negative; and the delay is within four units of roundoff of the exact
    product, for a [cooldown_period] that is not negative and a
    [jitter_range] of at most 1. *)
Theorem wait_is_jittered_cooldown_less_elapsed
    (cs : list call) (p : string) (now : Z) (u : Q) :
  (0 <= u <= 1)%Q →
  let self := snd (run cs __init__) in
  enabled self = true →
  ∃ (rl : RateLimit) (j wait : Q),
    config self p = Some rl
    ∧ j = uniform (- jitter_range rl) (jitter_range rl) u
    ∧ fst (wait_if_needed now u p self) = Ok wait
    ∧ let product := (cooldown_period rl * multiplier self p * (1 + j))%Q in
      let delay := Qmax 0 (binary64 (binary64 (cooldown_period rl * multiplier self p)
                                     * binary64 (1 + j))) in
      let elapsed := total_seconds (now - last_request self p) in
      wait = (if Qltb elapsed delay then binary64 (delay - elapsed) else 0)%Q
      ∧ (0 <= wait)%Q
      ∧ ((0 <= jitter_range rl)%Q → (binary64 (jitter_range rl) == jitter_range rl)%Q →
         (Qabs j <= jitter_range rl)%Q
         ∧ ((0 <= cooldown_period rl)%Q → (jitter_range rl <= 1)%Q →
            (product * (1 - 4 * ROUNDOFF) <= delay <= product * (1 + 4 * ROUNDOFF))%Q)).
Proof.
  intros Hu self He.
  pose proof (run_bounded cs _ bounded_init) as [[g Hg] _ Hq]. fold self in Hg, Hq.
  specialize (Hq (lower p)). fold (multiplier self p) in Hq.
  set (rl := default g (rate_limits self !! lower p)).
  exists rl, (uniform (- jitter_range rl) (jitter_range rl) u).
  destruct (calculate_delay_spec now u (lower p) rl self) as (s' & E & _).
  cbv zeta in E. fold (multiplier self p) (last_request self p) in E.
  set (j := uniform _ _ u) in *.
  set (delay := Qmax 0 _) in *. set (elapsed := total_seconds _) in *.
  exists (if Qltb elapsed delay then binary64 (delay - elapsed) else 0)%Q.
  split; [unfold config; by rewrite Hg|]. split; [done|].
  assert (Hpos : (0 <= (if Qltb elapsed delay then binary64 (delay - elapsed) else 0))%Q).
  { destruct (Qltb elapsed delay) eqn:El; [|lra]. apply Qltb_true in El.
    apply binary64_nonneg. lra. }
  split.
  { unfold wait_if_needed. py_unfold. rewrite He. cbn.
    rewrite rate_limits_get_eq, Hg. fold rl. rewrite E.
    destruct (Qltb elapsed delay) eqn:El; [|done].
    apply Qltb_true in El. assert (Hlt : Qltb 0 (binary64 (delay - elapsed)) = true).
    { apply Qltb_true, binary64_pos. lra. }
    by rewrite Hlt. }
  cbv zeta. split; [done|]. split; [done|]. intros Hr Hf.
  pose proof (uniform_jitter (jitter_range rl) u Hu Hr Hf) as Hj. fold j in Hj.
  split; [done|]. intros Hc H1. apply Qabs_Qle_condition in Hj as [Hj1 Hj2].
  assert (Ha : (0 <= cooldown_period rl * multiplier self p)%Q)
    by (apply Qmult_le_0_compat; lra).
  destruct (rounded_product_close _ (1 + j) Ha ltac:(lra)) as [L U].
  assert (Hn : (0 <= cooldown_period rl * multiplier self p * (1 + j))%Q)
    by (apply Qmult_le_0_compat; lra).
  unfold delay. split.
  - eapply Qle_trans; [exact L|apply Q.le_max_r].
  - apply Q.max_lub_iff. split; [|done]. unfold ROUNDOFF.
    set (x := (cooldown_period rl * multiplier self p * (1 + j))%Q) in *. lra.
Qed.

Lemma wait_is_jittered_cooldown_less_elapsed_witness :
  let cs := [MarkRequestFailed 63900000000000000 "twitter" "rate_limit"] in
  let self := snd (run cs __init__) in
  (0 <= 1 # 2 <= 1)%Q ∧ enabled self = true
  ∧ ∃ (rl : RateLimit) (j wait : Q),
      config self "twitter" = Some rl
      ∧ j = uniform (- jitter_range rl) (jitter_range rl) (1 # 2)
      ∧ fst (wait_if_needed 63900000001000000 (1 # 2) "twitter" self) = Ok wait
      ∧ let product := (cooldown_period rl * multiplier self "twitter" * (1 + j))%Q in
        let delay := Qmax 0 (binary64 (binary64 (cooldown_period rl
                                                  * multiplier self "twitter")
                                       * binary64 (1 + j))) in
        let elapsed := total_seconds (63900000001000000 - last_request self "twitter") in
        wait = (if Qltb elapsed delay then binary64 (delay - elapsed) else 0)%Q
        ∧ (0 <= wait)%Q
        ∧ ((0 <= jitter_range rl)%Q → (binary64 (jitter_range rl) == jitter_range rl)%Q →
           (Qabs j <= jitter_range rl)%Q
           ∧ ((0 <= cooldown_period rl)%Q → (jitter_range rl <= 1)%Q →
              (product * (1 - 4 * ROUNDOFF) <= delay <= product * (1 + 4 * ROUNDOFF))%Q)).
Proof.
  intros cs self. split; [split; vm_compute; discriminate|]. split; [reflexivity|].
  apply (wait_is_jittered_cooldown_less_elapsed cs "twitter" 63900000001000000 (1 # 2)).
  - split; vm_compute; discriminate.
  - reflexivity.
Defined.

End wait.

(** ** The proxy manager *)

Section proxies.
Import ProxyManager.

Lemma find_proxy_Some o u l r p :
  find_proxy o u l = Some (r, p) → o !! r = Some p ∧ url p = u ∧ r ∈ l.
Proof.
  induction l as [|r0 l IH]; [done|]. cbn.
  destruct (o !! r0) as [p0|] eqn:E.
  - destruct (String.eqb (url p0) u) eqn:Eu.
    + intros [= <- <-]. apply String.eqb_eq in Eu. repeat split; [done..|left].
    + intros H. destruct (IH H) as (? & ? & ?). repeat split; [done..|by right].
  - intros H. destruct (IH H) as (? & ? & ?). repeat split; [done..|by right].
Qed.

(** A field written through a proxy leaves the search by url where it was. *)
Lemma find_proxy_insert o u l r p p' :
  find_proxy o u l = Some (r, p) → url p' = url p →
  find_proxy (<[r := p']> o) u l = Some (r, p').
Proof.
  intros Hf Hu. pose proof (find_proxy_Some _ _ _ _ _ Hf) as (Hr & Hp & _).
  induction l as [|r0 l IH]; [done|]. cbn in Hf |- *.
  destruct (decide (r0 = r)) as [->|Hne].
  - rewrite list_lookup_insert_eq by by eapply lookup_lt_Some.
    rewrite Hu, Hp, String.eqb_refl. done.
  - rewrite list_lookup_insert_ne by done.
    destruct (o !! r0) as [p0|]; [|by apply IH].
    destruct (String.eqb (url p0) u); [congruence|by apply IH].
Qed.

Lemma url_of_insert o r p p' r' :
  o !! r = Some p → url p' = url p → url_of (<[r := p']> o) r' = url_of o r'.
Proof.
  intros Hr Hu. unfold url_of. destruct (decide (r' = r)) as [->|].
  - rewrite list_lookup_insert_eq by by eapply lookup_lt_Some. rewrite Hr. cbn. by f_equal.
  - by rewrite list_lookup_insert_ne.
Qed.

Lemma without_url_spec o u l r :
  r ∈ without_url o u l ↔ r ∈ l ∧ url_of o r ≠ Some u.
Proof. unfold without_url. rewrite list_elem_of_filter. tauto. Qed.

(** [mark_proxy_failed] on the url of a known proxy. *)
Lemma mark_proxy_failed_known u self r p :
  use_proxies self = true →
  find_proxy (objects self) u (proxies self) = Some (r, p) →
  let self' := mark_proxy_failed u self in
  use_proxies self' = true
  ∧ max_proxy_retries self' = max_proxy_retries self
  ∧ proxies self' = proxies self
  ∧ objects self' = <[r := with_failure p]> (objects self)
  ∧ find_proxy (objects self') u (proxies self') = Some (r, with_failure p)
  ∧ working_proxies self' =
      if max_proxy_retries self <=? fail_count p + 1
      then without_url (objects self') u (working_proxies self)
      else working_proxies self.
Proof.
  intros Hu Hf. unfold mark_proxy_failed. rewrite Hu, Hf. cbn.
  pose proof (find_proxy_insert _ _ _ _ _ (with_failure p) Hf eq_refl) as Hf'.
  destruct (max_proxy_retries self <=? fail_count p + 1); cbn; done.
Qed.

Lemma mark_proxy_failed_iter u self r p n :
  use_proxies self = true →
  find_proxy (objects self) u (proxies self) = Some (r, p) →
  use_proxies (Nat.iter n (mark_proxy_failed u) self) = true
  ∧ max_proxy_retries (Nat.iter n (mark_proxy_failed u) self) = max_proxy_retries self
  ∧ ∃ p', find_proxy (objects (Nat.iter n (mark_proxy_failed u) self)) u
            (proxies (Nat.iter n (mark_proxy_failed u) self)) = Some (r, p')
          ∧ fail_count p' = fail_count p + Z.of_nat n.
Proof.
  intros Hu Hf. induction n as [|n IH].
  - split; [done|]. split; [done|]. exists p. split; [done|]. cbn. lia.
  - destruct IH as (Hu' & Hm & p' & Hf' & Hc). rewrite Nat.iter_succ.
    destruct (mark_proxy_failed_known u _ r p' Hu' Hf') as (? & Hm' & _ & _ & ? & _).
    split; [done|]. split; [by rewrite Hm'|]. exists (with_failure p').
    split; [done|]. cbn. lia.
Qed.

Lemma swap_Forall {A} (P : A → Prop) i j (x : list A) :
  Forall P x → Forall P (swap i j x).
Proof.
  intros H. unfold swap.
  destruct (x !! i) as [a|] eqn:Ei; [|done]. destruct (x !! j) as [b|] eqn:Ej; [|done].
  apply Forall_insert; [apply Forall_insert|]; [done|..];
    eapply Forall_lookup_1; eauto.
Qed.

Lemma shuffle_Forall {A} (P : A → Prop) draws (x : list A) :
  Forall P x → Forall P (shuffle draws x).
Proof.
  unfold shuffle. generalize (length x - 1)%nat as i. intros i. revert x.
  induction i as [|i IH]; intros x H; [done|]. cbn. by apply IH, swap_Forall.
Qed.

Lemma swap_elem_of {A} i j (x : list A) a : a ∈ x → a ∈ swap i j x.
Proof.
  intros H. unfold swap.
  destruct (x !! i) as [xi|] eqn:Ei; [|done]. destruct (x !! j) as [xj|] eqn:Ej; [|done].
  apply list_elem_of_lookup in H as [n Hn].
  pose proof (lookup_lt_Some _ _ _ Ei). pose proof (lookup_lt_Some _ _ _ Ej).
  apply list_elem_of_lookup.
  destruct (decide (n = i)) as [->|Hi].
  - exists j. rewrite list_lookup_insert_eq by by rewrite length_insert. congruence.
  - destruct (decide (n = j)) as [->|Hj].
    + exists i. destruct (decide (i = j)) as [->|]; [done|].
      rewrite list_lookup_insert_ne, list_lookup_insert_eq by done. congruence.
    + exists n. by rewrite !list_lookup_insert_ne.
Qed.

Lemma shuffle_elem_of {A} draws (x : list A) a : a ∈ x → a ∈ shuffle draws x.
Proof.
  unfold shuffle. generalize (length x - 1)%nat as i. intros i. revert x.
  induction i as [|i IH]; intros x H; [done|]. cbn. by apply IH, swap_elem_of.
Qed.

Lemma choice_elem_of {A} d (x : list A) a : choice d x = Some a → a ∈ x.
Proof. unfold choice. intros H. apply list_elem_of_lookup. eauto. Qed.

Lemma rotate_proxies_shuffles w self :
  (10 ≤ length (working_proxies self))%nat →
  _rotate_proxies w self
  = with_working_proxies (shuffle (shuffle_draws w) (working_proxies self))
      (with_last_rotation (now_rotated w) self).
Proof.
  intros H. unfold _rotate_proxies.
  change (working_proxies (with_last_rotation _ self)) with (working_proxies self).
  by rewrite (proj2 (Nat.leb_le _ _) H).
Qed.

Lemma fetch_validate_keeps now w self r u :
  r ∈ working_proxies self → url_of (objects self) r = Some u →
  let self' := _validate_proxies now (passed w) (_fetch_proxies (fetched w) self) in
  r ∈ working_proxies self' ∧ url_of (objects self') r = Some u.
Proof.
  intros Hr Hu. unfold _validate_proxies, _fetch_proxies. cbn. split.
  - apply elem_of_app. by left.
  - unfold url_of in *. rewrite list_lookup_imap.
    destruct (objects self !! r) as [q|] eqn:E; [|done].
    rewrite (lookup_app_l_Some _ _ _ _ E). cbn in *. by case_match.
Qed.

(** The working subset and the urls seen by the choice of [get_proxy], after
    the rotation it may make. *)
Lemma get_proxy_may_return w self r u :
  use_proxies self = true →
  r ∈ working_proxies self → url_of (objects self) r = Some u →
  ∃ d, fst (get_proxy (with_choice_draw d w) self) = Some u.
Proof.
  intros Hu Hr Hurl. unfold get_proxy. rewrite Hu. cbn [negb].
  change (now_checked (with_choice_draw _ w)) with (now_checked w).
  set (self' := if _should_rotate (now_checked w) self
                then _rotate_proxies w self else self).
  assert (Hkeep : r ∈ working_proxies self' ∧ url_of (objects self') r = Some u).
  { unfold self'. destruct (_should_rotate (now_checked w) self); [|done].
    unfold _rotate_proxies.
    change (working_proxies (with_last_rotation _ self)) with (working_proxies self).
    destruct (10 <=? length (working_proxies self))%nat.
    - split; [|done]. cbn. by apply shuffle_elem_of.
    - by apply (fetch_validate_keeps (now_validated w) w
                  (with_last_rotation (now_rotated w) self)). }
  destruct Hkeep as [Hin Hurl'].
  apply list_elem_of_lookup in Hin as [d Hd]. exists d.
  assert (Hsame : (if _should_rotate (now_checked w) self
                   then _rotate_proxies (with_choice_draw d w) self else self) = self').
  { done. }
  rewrite Hsame. destruct (working_proxies self') as [|r0 l] eqn:Ew; [done|].
  unfold choice. cbn [choice_draw with_choice_draw].
  rewrite Nat.mod_small by by eapply lookup_lt_Some. by rewrite Hd.
Qed.

(** C10. A manager that uses proxies and a call of [mark_proxy_failed] for
    the url of a proxy it knows.  The working subset loses the proxies of
    that url when the failure count reaches [max_proxy_retries] with this
    failure, and only then.  When the count stays below, a proxy that was in
    the working subset is still in it, its [is_working] flag is false, and
    whatever the clock and the rotation there is a draw of [random.choice]
    with which the next [get_proxy] returns its url. *)
Theorem failed_proxy_below_threshold_stays
    (self : t) (u : string) (r : nat) (p : Proxy) :
  use_proxies self = true →
  find_proxy (objects self) u (proxies self) = Some (r, p) →
  let self' := mark_proxy_failed u self in
  working_proxies self' =
    (if max_proxy_retries self <=? fail_count p + 1
     then without_url (objects self') u (working_proxies self)
     else working_proxies self)
  ∧ (fail_count p + 1 < max_proxy_retries self →
     r ∈ working_proxies self →
     r ∈ working_proxies self'
     ∧ is_working <$> objects self' !! r = Some false
     ∧ fail_count <$> objects self' !! r = Some (fail_count p + 1)
     ∧ ∀ w, ∃ d, fst (get_proxy (with_choice_draw d w) self') = Some u).
Proof.
  intros Hu Hf self'.
  destruct (mark_proxy_failed_known u self r p Hu Hf) as (Hu' & _ & _ & Ho & _ & Hw).
  fold self' in Hu', Ho, Hw. split; [done|]. intros Hlt Hin.
  rewrite (proj2 (Z.leb_gt _ _) Hlt) in Hw.
  destruct (find_proxy_Some _ _ _ _ _ Hf) as (Hr & Hp & _).
  assert (Hr' : objects self' !! r = Some (with_failure p)).
  { rewrite Ho. apply list_lookup_insert_eq. by eapply lookup_lt_Some. }
  split; [by rewrite Hw|]. rewrite Hr'. split; [done|]. split; [done|].
  intros w. apply (get_proxy_may_return w self' r u); [done|by rewrite Hw|].
  unfold url_of. rewrite Hr'. cbn. by f_equal.
Qed.

Lemma failed_proxy_below_threshold_stays_witness :
  let u := "http://10.0.0.1:8080" in
  use_proxies Sample.manager = true
  ∧ find_proxy (objects Sample.manager) u (proxies Sample.manager)
    = Some (O, Sample.proxy)
  ∧ let self' := mark_proxy_failed u Sample.manager in
    working_proxies self' =
      (if max_proxy_retries Sample.manager <=? fail_count Sample.proxy + 1
       then without_url (objects self') u (working_proxies Sample.manager)
       else working_proxies Sample.manager)
    ∧ (fail_count Sample.proxy + 1 < max_proxy_retries Sample.manager →
       O ∈ working_proxies Sample.manager →
       O ∈ working_proxies self'
       ∧ is_working <$> objects self' !! O = Some false
       ∧ fail_count <$> objects self' !! O = Some (fail_count Sample.proxy + 1)
       ∧ ∀ w, ∃ d, fst (get_proxy (with_choice_draw d w) self') = Some u).
Proof.
  intros u. split; [reflexivity|]. split; [reflexivity|].
  apply (failed_proxy_below_threshold_stays Sample.manager u O Sample.proxy);
    reflexivity.
Defined.

End proxies.

(** ** The request path *)

Section dispatch.
Import BaseScraper.

Lemma prepare_platform w a self :
  platform (snd (prepare w a self)) = platform self.
Proof.
  unfold prepare, emit. py_unfold.
  destruct (rate_limiter self) as [rl|]; cbn.
  - destruct (RateLimiter.wait_if_needed _ _ _ rl) as [[slept|e] rl']; cbn; [|done].
    destruct (use_proxies self && negb (is_set (arg_proxy a))); cbn; [|done].
    destruct (proxy_manager self) as [pm|]; cbn; [|done].
    by destruct (ProxyManager.get_proxy _ pm).
  - destruct (use_proxies self && negb (is_set (arg_proxy a))); cbn; [|done].
    destruct (proxy_manager self) as [pm|]; cbn; [|done].
    by destruct (ProxyManager.get_proxy _ pm).
Qed.

(** What [handle_response] does with a status 429. *)
Lemma handle_response_429 w proxy self :
  let failed := λ rl, snd (RateLimiter.mark_request_failed (now_failed w)
                             (platform self) "rate_limit" rl) in
  let told_limiter := match rate_limiter self with
                      | Some _ => [RateFailed (platform self) "rate_limit"]
                      | None => []
                      end in
  let tell := match proxy, proxy_manager self with
              | Some p, Some _ => truthy p
              | _, _ => false
              end in
  handle_response w proxy 429 self
  = (Raise (ClientResponseError 429),
     with_trace (trace self ++ told_limiter
                 ++ if tell then [ProxyFailed (default "" proxy)] else [])
       (with_proxy_manager
          (if tell then ProxyManager.mark_proxy_failed (default "" proxy)
                          <$> proxy_manager self
           else proxy_manager self)
          (with_rate_limiter (failed <$> rate_limiter self) self))).
Proof.
  unfold handle_response, tell_rate_limiter, tell_proxy_manager, emit. py_unfold. cbn.
  destruct self as [pl up ur uu mr to mc pm ua rl tr]. cbn.
  destruct rl as [rl|]; cbn.
  - destruct (mark_request_failed_spec (now_failed w) pl "rate_limit" rl)
      as (rl' & -> & _). cbn.
    destruct proxy as [p|], pm as [pm|]; cbn; rewrite ?app_nil_r, <- ?app_assoc; try done.
    destruct (truthy p); cbn; rewrite ?app_nil_r, <- ?app_assoc; done.
  - destruct proxy as [p|], pm as [pm|]; cbn; rewrite ?app_nil_r; try done.
    destruct (truthy p); cbn; rewrite ?app_nil_r; done.
Qed.

(** C9. An attempt whose request is answered with status 429 raises the
    response error of that status; by then, if the scraper has a rate
    limiter, [mark_request_failed] was called on it for the platform with
    the error type ["rate_limit"], and, if the request went through a proxy
    and the scraper has a proxy manager, [mark_proxy_failed] was called on
    it for that proxy. *)
Theorem status_429_penalises_limiter_and_proxy
    (w : world) (a : args) (self : t) (r : request) :
  fst (prepare w a self) = Ok r →
  transport w r = Ok 429 →
  let ready := snd (prepare w a self) in
  let self' := snd (attempt w a self) in
  fst (attempt w a self) = Raise (ClientResponseError 429)
  ∧ (∀ rl, rate_limiter ready = Some rl →
       rate_limiter self'
       = Some (snd (RateLimiter.mark_request_failed (now_failed w) (platform self)
                      "rate_limit" rl))
       ∧ RateFailed (platform self) "rate_limit" ∈ trace self')
  ∧ (∀ p pm, req_proxy r = Some p → truthy p = true → proxy_manager ready = Some pm →
       proxy_manager self' = Some (ProxyManager.mark_proxy_failed p pm)
       ∧ ProxyFailed p ∈ trace self').
Proof.
  intros Hp Ht ready self'. unfold self', attempt, emit. py_unfold.
  pose proof (prepare_platform w a self) as Hpl. fold ready in Hpl.
  subst ready. destruct (prepare w a self) as [r0 ready]. cbn in Hp, Hpl |- *.
  subst r0. rewrite Ht. rewrite handle_response_429. cbn. rewrite Hpl.
  split; [done|]. split.
  - intros rl ->. cbn. split; [done|]. rewrite !elem_of_app. right. left.
  - intros p pm -> Hy ->. rewrite Hy. cbn. split; [done|].
    rewrite !elem_of_app. right. right. left.
Qed.

Lemma status_429_penalises_limiter_and_proxy_witness :
  let w := Sample.world 429 in
  let a := Sample.get_page (Some "http://10.0.0.1:8080") in
  let r := Sample.request_of (Some "Mozilla/5.0") (Some "http://10.0.0.1:8080") in
  let self := Sample.scraper in
  fst (prepare w a self) = Ok r
  ∧ transport w r = Ok 429
  ∧ let ready := snd (prepare w a self) in
    let self' := snd (attempt w a self) in
    fst (attempt w a self) = Raise (ClientResponseError 429)
    ∧ (∀ rl, rate_limiter ready = Some rl →
         rate_limiter self'
         = Some (snd (RateLimiter.mark_request_failed (now_failed w) (platform self)
                        "rate_limit" rl))
         ∧ RateFailed (platform self) "rate_limit" ∈ trace self')
    ∧ (∀ p pm, req_proxy r = Some p → truthy p = true → proxy_manager ready = Some pm →
         proxy_manager self' = Some (ProxyManager.mark_proxy_failed p pm)
         ∧ ProxyFailed p ∈ trace self').
Proof.
  intros w a r self. split; [by vm_compute|]. split; [reflexivity|].
  apply (status_429_penalises_limiter_and_proxy w a self r);
    [by vm_compute|reflexivity].
Defined.









End dispatch.

(** ** The sliding windows *)

Section windows.
Import RateLimiter.

Lemma in_window_nonneg len t l : 0 ≤ in_window len t l.
Proof. unfold in_window. lia. Qed.

Lemma in_window_app len t l1 l2 :
  in_window len t (l1 ++ l2) = in_window len t l1 + in_window len t l2.
Proof. unfold in_window. rewrite filter_app, length_app. lia. Qed.

Lemma in_window_drop len t n l : in_window len t (drop n l) ≤ in_window len t l.
Proof.
  rewrite <- (take_drop n l) at 2. rewrite in_window_app.
  pose proof (in_window_nonneg len t (take n l)). lia.
Qed.

Lemma in_window_singleton len t x :
  in_window len t [x] = if decide (t - len < x ∧ x ≤ t) then 1 else 0.
Proof. unfold in_window. rewrite filter_cons, filter_nil. by case_decide. Qed.

Lemma count_after_cons c x l :
  count_after c (x :: l) = (if decide (c < x) then 1 else 0) + count_after c l.
Proof. unfold count_after. rewrite filter_cons. case_decide; cbn [length]; lia. Qed.

Lemma in_window_cons len t x l :
  in_window len t (x :: l)
  = (if decide (t - len < x ∧ x ≤ t) then 1 else 0) + in_window len t l.
Proof. unfold in_window. rewrite filter_cons. case_decide; cbn [length]; lia. Qed.

Lemma in_window_le_count_after len t c l :
  c ≤ t - len → in_window len t l ≤ count_after c l.
Proof.
  intros Hc. induction l as [|x l IH]; [done|].
  rewrite in_window_cons, count_after_cons. repeat case_decide; lia.
Qed.

Lemma count_after_all c l : Forall (λ y, c < y) l → count_after c l = Z.of_nat (length l).
Proof.
  induction 1 as [|x l Hx Hl IH]; [done|].
  rewrite count_after_cons, IH, decide_True by done. cbn [length]. lia.
Qed.

(** On an ascending list the instants after a cutoff are the last ones. *)
Lemma count_after_drop c n l :
  ascending l →
  count_after c (drop n l)
  = Z.min (count_after c l) (Z.of_nat (length l - n)).
Proof.
  revert n. induction l as [|x l IH]; intros n Hl.
  - rewrite drop_nil. cbn. done.
  - destruct Hl as [Hx Hl]. destruct n as [|n].
    + rewrite drop_0. pose proof (count_after_bounds c (x :: l)).
      rewrite Nat.sub_0_r. lia.
    + cbn [drop length]. rewrite IH by done. rewrite count_after_cons.
      replace (S (length l) - S n)%nat with (length l - n)%nat by lia.
      case_decide as Hcx; [|lia].
      rewrite count_after_all; [lia|].
      eapply Forall_impl; [done|]. cbn. lia.
Qed.

Lemma ascending_snoc l x : ascending l → Forall (λ y, y ≤ x) l → ascending (l ++ [x]).
Proof.
  induction l as [|y l IH]; [done|]. intros [Hy Hl] Hx.
  apply Forall_cons in Hx as [Hyx Hx]. cbn. split; [|by apply IH].
  apply Forall_app. split; [done|]. by apply Forall_singleton.
Qed.

Lemma deque_append_drop (m : nat) (x : Z) l :
  deque_append m x (drop (length l - m) l) = drop (length (l ++ [x]) - m) (l ++ [x]).
Proof.
  unfold deque_append. rewrite !length_app, length_drop. cbn [length].
  destruct (decide (length l ≤ m)%nat) as [Hle|Hgt].
  - replace (length l - m)%nat with O by lia. rewrite drop_0.
    f_equal. lia.
  - rewrite <- drop_app_le by lia. rewrite drop_drop. f_equal. lia.
Qed.

Lemma ticks_weaken t0 t1 l : t0 ≤ t1 → ticks t1 l → ticks t0 l.
Proof. destruct l; cbn; [done|]. intros ? [? ?]. split; [lia|done]. Qed.

Lemma calm_agree self self' : agree self self' → calm self → calm self'.
Proof.
  intros A [Hg Hm]. split; [by rewrite (agree_limits _ _ A)|].
  intros k. by rewrite (agree_multiplier _ _ A).
Qed.

Lemma calm_recorded now k rl self self' : recorded now k rl self self' → calm self → calm self'.
Proof.
  intros R [Hg Hm]. split; [by rewrite (rec_limits _ _ _ _ _ R)|].
  intros k'. by rewrite (rec_multiplier _ _ _ _ _ R).
Qed.

(** What a gate call does to a calm limiter. *)
Lemma gate_step g self :
  calm self →
  ∃ r self', step (call_of_gate g) self = (r, self')
    ∧ calm self' ∧ rate_limits self' = rate_limits self ∧ enabled self' = enabled self
    ∧ match g with
      | GateAcquire nb nc nr p =>
          ∃ ok, r = Ok (VBool ok)
            ∧ (enabled self = true → ∀ rl, config self p = Some rl →
               ok = within_limits nc (history_at self (lower p))
                      (burst_at self (lower p)) rl)
            ∧ ∀ k, history_at self' k =
                   if enabled self && ok && bool_decide (k = lower p)
                   then deque_append HISTORY_MAXLEN nr (history_at self k)
                   else history_at self k
      | _ => ∀ k, history_at self' k = history_at self k
      end.
Proof.
  intros Hc. destruct g as [nb nc nr p|now u p|now i]; cbn [call_of_gate step]; py_unfold.
  - destruct (enabled self) eqn:He.
    + destruct (calm_general _ Hc) as [g Hg].
      destruct (acquire_calm nb nc nr p g self He Hg (calm_multiplier _ Hc _))
        as (s' & -> & R).
      set (ok := within_limits _ _ _ _) in *.
      do 2 eexists. split; [reflexivity|].
      destruct ok eqn:Eok.
      * split; [by eapply calm_recorded|]. destruct R as [Hl He' _ _ Hh _ _ _].
        split; [done|]. split; [congruence|]. exists true. split; [done|].
        split.
        { intros _ rl Hrl. unfold config in Hrl. rewrite Hg in Hrl. cbn in Hrl.
          injection Hrl as <-. by subst ok. }
        intros k. rewrite Hh. cbn. case_bool_decide; subst; by case_decide.
      * split; [by eapply calm_agree|]. destruct R as [Hl He' _ _ Hh _ _ _].
        split; [done|]. split; [congruence|]. exists false. split; [done|].
        split.
        { intros _ rl Hrl. unfold config in Hrl. rewrite Hg in Hrl. cbn in Hrl.
          injection Hrl as <-. by subst ok. }
        intros k. by rewrite Hh.
    + rewrite acquire_disabled by done. do 2 eexists. split; [reflexivity|].
      split; [done|]. split; [done|]. split; [done|]. exists true. by repeat split.
  - destruct (wait_if_needed_agree now u p self) as (r & s' & -> & A).
    destruct r; cbn; do 2 eexists; (split; [reflexivity|]);
      (split; [by eapply calm_agree|]); destruct A; done.
  - destruct (run_task_agree_multiplier now i self) as (s' & -> & Hl & _ & He & Hm & Hh).
    cbn. do 2 eexists. split; [reflexivity|]. split; [|done].
    destruct Hc as [Hg Hq]. split; [by rewrite Hl|]. intros k. by rewrite Hm.
Qed.

Lemma run_gates_cons g gs self :
  run_gates (g :: gs) self = run_gates gs (snd (step (call_of_gate g) self)).
Proof.
  unfold run_gates. cbn [fmap list_fmap run].
  destruct (step (call_of_gate g) self) as [r s1]. cbn [snd].
  by destruct (run (call_of_gate <$> gs) s1).
Qed.

Lemma config_lower self p p' : lower p' = lower p → config self p' = config self p.
Proof. intros E. unfold config. by rewrite E. Qed.

Lemma config_limits self self' p :
  rate_limits self' = rate_limits self → config self' p = config self p.
Proof. intros E. unfold config. by rewrite E. Qed.

Section one_window.
Variables (p : string) (rl : RateLimit) (len ceiling : Z).
Hypothesis check : ∀ now h b,
  within_limits now h b rl = true → count_after (now - len) h < ceiling.

(** The window after one more instant [nr], recorded after a check made
    at [nc]. *)
Lemma window_after_record nc nr l t :
  nc ≤ nr →
  (∀ t, in_window len t l ≤ ceiling) →
  count_after (nc - len) l < ceiling →
  in_window len t (l ++ [nr]) ≤ ceiling.
Proof.
  intros Hn Hl Hc. rewrite in_window_app, in_window_singleton.
  case_decide as Hw; [|specialize (Hl t); lia].
  pose proof (in_window_le_count_after len t (nc - len) l). lia.
Qed.

(** The deque of the platform never holds more instants of one window than
    the ceiling of the window. *)
Lemma history_window gs : ∀ self t0,
  calm self → config self p = Some rl → ticks t0 (clock gs) →
  (∀ t, in_window len t (history_at self (lower p)) ≤ ceiling) →
  ∀ t, in_window len t (history_at (run_gates gs self) (lower p)) ≤ ceiling.
Proof.
  induction gs as [|g gs IH]; intros self t0 Hc Hrl Ht Hw; [done|].
  rewrite run_gates_cons.
  destruct (gate_step g self Hc) as (r & s1 & -> & Hc1 & Hl1 & He1 & Hg). cbn [snd].
  assert (Hrl1 : config s1 p = Some rl) by by rewrite (config_limits self s1).
  destruct g as [nb nc nr q|now u q|now i]; cbn in Ht.
  - destruct Hg as (ok & -> & Hok & Hh). destruct Ht as (_ & _ & Hcr & Ht).
    apply (IH s1 nr Hc1 Hrl1 Ht). intros t. rewrite Hh.
    destruct (enabled self && ok && bool_decide (lower p = lower q)) eqn:E; [|done].
    apply andb_true_iff in E as [E Hq]. apply andb_true_iff in E as [Hen ->].
    apply bool_decide_eq_true in Hq.
    etrans; [apply in_window_drop|]. eapply window_after_record; [done..|].
    apply (check nc _ (burst_at self (lower p))). rewrite Hq. symmetry.
    apply Hok; [done|]. by rewrite (config_lower self p q).
  - destruct Ht as [_ Ht]. apply (IH s1 now Hc1 Hrl1 Ht). intros t. by rewrite Hg.
  - destruct Ht as [_ Ht]. apply (IH s1 now Hc1 Hrl1 Ht). intros t. by rewrite Hg.
Qed.

(** The requests recorded never number more in one window than the ceiling
    of the window, as long as the ceiling is not above the length of the
    deque. *)
Lemma recorded_window gs : ∀ self t0 past,
  calm self → config self p = Some rl → ticks t0 (clock gs) →
  ceiling ≤ Z.of_nat HISTORY_MAXLEN →
  history_at self (lower p) = drop (length past - HISTORY_MAXLEN) past →
  ascending past → Forall (λ y, y ≤ t0) past →
  (∀ t, in_window len t past ≤ ceiling) →
  ∀ t, in_window len t (past ++ recorded_requests (lower p) gs self) ≤ ceiling.
Proof.
  induction gs as [|g gs IH]; intros self t0 past Hc Hrl Ht Hm Hh Ha Hp Hw.
  { cbn. by rewrite app_nil_r. }
  cbn [recorded_requests].
  destruct (gate_step g self Hc) as (r & s1 & -> & Hc1 & Hl1 & He1 & Hg).
  assert (Hrl1 : config s1 p = Some rl) by by rewrite (config_limits self s1).
  destruct g as [nb nc nr q|now u q|now i]; cbn in Ht.
  - destruct Hg as (ok & -> & Hok & Hh1). destruct Ht as (Hb & Hbc & Hcr & Ht).
    specialize (Hh1 (lower p)).
    assert (Hp' : Forall (λ y, y ≤ nr) past).
    { eapply Forall_impl; [done|]. cbn. lia. }
    destruct ok; cycle 1.
    { rewrite andb_false_r in Hh1. cbn in Hh1. cbn [app].
      apply (IH s1 nr past); try done. congruence. }
    destruct (enabled self) eqn:Hen; cycle 1.
    { cbn in Hh1. cbn [app andb]. apply (IH s1 nr past); try done. congruence. }
    cbn [andb] in Hh1 |- *.
    destruct (decide (lower q = lower p)) as [Hq|Hq]; cycle 1.
    { rewrite bool_decide_eq_false_2 in Hh1 |- * by done. cbn [app].
      apply (IH s1 nr past); try done. congruence. }
    rewrite bool_decide_eq_true_2 in Hh1 |- * by done.
    rewrite app_assoc. apply (IH s1 nr (past ++ [nr])); try done.
    + rewrite Hh1, Hh. apply deque_append_drop.
    + by apply ascending_snoc.
    + apply Forall_app. split; [done|]. by apply Forall_singleton.
    + intros t. eapply (window_after_record nc nr); [lia|done|].
      assert (Hck : count_after (nc - len) (history_at self (lower p)) < ceiling).
      { apply (check nc _ (burst_at self (lower p))). symmetry.
        rewrite <- Hq. apply Hok; [done|]. by rewrite (config_lower self p q). }
      rewrite Hh, count_after_drop in Hck by done.
      pose proof (count_after_bounds (nc - len) past). lia.
  - destruct Ht as [Hn Ht]. cbn [app]. apply (IH s1 now past); try done.
    + by rewrite Hg.
    + eapply Forall_impl; [done|]. cbn. lia.
  - destruct Ht as [Hn Ht]. cbn [app]. apply (IH s1 now past); try done.
    + by rewrite Hg.
    + eapply Forall_impl; [done|]. cbn. lia.
Qed.

End one_window.

End windows.

Section ceilings.
Import RateLimiter.

Lemma within_limits_true now h b rl :
  within_limits now h b rl = true →
  count_after (now - MINUTE) h < requests_per_minute rl
  ∧ count_after (now - HOUR) h < requests_per_hour rl
  ∧ count_after (now - DAY) h < requests_per_day rl
  ∧ b < burst_limit rl.
Proof.
  unfold within_limits. rewrite !andb_true_iff, !negb_true_iff, !Z.leb_gt. tauto.
Qed.

Lemma run_cons_snd c cs self :
  snd (run (c :: cs) self) = snd (run cs (snd (step c self))).
Proof.
  cbn [run]. destruct (step c self) as [r s1]. cbn [snd]. by destruct (run cs s1).
Qed.

Lemma configure_calm cfgs :
  calm (configure cfgs) ∧ ∀ k, history_at (configure cfgs) k = [].
Proof.
  unfold configure.
  assert (H : calm __init__ ∧ ∀ k, history_at __init__ k = []).
  { split; [split|]; [by eexists|done..]. }
  revert H. generalize __init__ as self.
  induction cfgs as [|[q rl] cfgs IH]; intros self [Hc Hh]; [done|].
  cbn [fmap list_fmap]. rewrite run_cons_snd. apply IH.
  change (snd (step (SetRateLimit (q, rl).1 (q, rl).2) self))
    with (with_rate_limits (<[lower q := rl]> (rate_limits self)) self).
  destruct Hc as [[g Hg] Hm]. split; [split|]; [|done..]. cbn.
  destruct (decide (lower q = "general")) as [->|]; simplify_map_eq; eauto.
Qed.

Lemma monotone_ticks l : monotone l → ∃ t0, ticks t0 l.
Proof. destruct l as [|t l]; [by exists 0|]. exists t. cbn in *. split; [lia|done]. Qed.

(** What [request_history] holds, whatever the ceilings: after any gate
    calls on a configured limiter, under a clock that never goes back, the
    deque of a platform has in no window of a minute, an hour or a day more
    instants than the ceiling of that window. *)
Lemma history_within_ceilings cfgs gs p rl t :
  monotone (clock gs) →
  config (configure cfgs) p = Some rl →
  0 ≤ requests_per_minute rl → 0 ≤ requests_per_hour rl → 0 ≤ requests_per_day rl →
  let after := run_gates gs (configure cfgs) in
  in_window MINUTE t (history after p) ≤ requests_per_minute rl
  ∧ in_window HOUR t (history after p) ≤ requests_per_hour rl
  ∧ in_window DAY t (history after p) ≤ requests_per_day rl.
Proof.
  intros Hm Hrl H1 H2 H3 after. destruct (monotone_ticks _ Hm) as [t0 Ht].
  destruct (configure_calm cfgs) as [Hc Hh]. unfold after, history.
  repeat split.
  - eapply (history_window p rl MINUTE); [|done..|].
    + intros ??? Hw. by apply within_limits_true in Hw as (? & _).
    + intros ?. by rewrite Hh.
  - eapply (history_window p rl HOUR); [|done..|].
    + intros ??? Hw. by apply within_limits_true in Hw as (_ & ? & _).
    + intros ?. by rewrite Hh.
  - eapply (history_window p rl DAY); [|done..|].
    + intros ??? Hw. by apply within_limits_true in Hw as (_ & _ & ? & _).
    + intros ?. by rewrite Hh.
Qed.

(** What [acquire] granted, for ceilings within the length of the deque:
    after any gate calls on a configured limiter, under a clock that never
    goes back, the requests recorded for a platform number in no window of a
    minute, an hour or a day more than the ceiling of that window, provided
    the ceiling is at most 1000. *)
Lemma recorded_within_ceilings cfgs gs p rl t :
  monotone (clock gs) →
  config (configure cfgs) p = Some rl →
  let requests := recorded_requests (lower p) gs (configure cfgs) in
  (0 ≤ requests_per_minute rl ≤ 1000 →
   in_window MINUTE t requests ≤ requests_per_minute rl)
  ∧ (0 ≤ requests_per_hour rl ≤ 1000 →
     in_window HOUR t requests ≤ requests_per_hour rl)
  ∧ (0 ≤ requests_per_day rl ≤ 1000 →
     in_window DAY t requests ≤ requests_per_day rl).
Proof.
  intros Hm Hrl requests. destruct (monotone_ticks _ Hm) as [t0 Ht].
  destruct (configure_calm cfgs) as [Hc Hh]. unfold requests.
  repeat split; intros [Hlo Hhi].
  - apply (recorded_window p rl MINUTE _
             (λ now h b Hw, proj1 (within_limits_true now h b rl Hw))
             gs (configure cfgs) t0 []); try done; by rewrite Hh.
  - apply (recorded_window p rl HOUR _
             (λ now h b Hw, proj1 (proj2 (within_limits_true now h b rl Hw)))
             gs (configure cfgs) t0 []); try done; by rewrite Hh.
  - apply (recorded_window p rl DAY _
             (λ now h b Hw, proj1 (proj2 (proj2 (within_limits_true now h b rl Hw))))
             gs (configure cfgs) t0 []); try done; by rewrite Hh.
Qed.

(** The deque never holds more than 1000 instants, so that the count of a
    window never reaches a ceiling above 1000. *)
Lemma deque_append_length (x : Z) d :
  (length (deque_append HISTORY_MAXLEN x d) ≤ HISTORY_MAXLEN)%nat.
Proof. unfold deque_append. rewrite length_drop, length_app. cbn. lia. Qed.

Lemma history_length cfgs gs p :
  (length (history (run_gates gs (configure cfgs)) p) ≤ HISTORY_MAXLEN)%nat.
Proof.
  destruct (configure_calm cfgs) as [Hc Hh]. unfold history.
  assert (H0 : (length (history_at (configure cfgs) (lower p)) ≤ HISTORY_MAXLEN)%nat).
  { rewrite Hh. cbn. lia. }
  revert Hc H0. generalize (configure cfgs) as self. clear Hh.
  induction gs as [|g gs IH]; intros self Hc H0; [done|].
  rewrite run_gates_cons.
  destruct (gate_step g self Hc) as (r & s1 & -> & Hc1 & _ & _ & Hg). cbn [snd].
  apply IH; [done|]. destruct g as [nb nc nr q|now u q|now i]; [|by rewrite Hg..].
  destruct Hg as (ok & _ & _ & ->). case_match; [apply deque_append_length|done].
Qed.

Lemma ceiling_above_maxlen_never_reached cutoff ceiling h :
  (length h ≤ HISTORY_MAXLEN)%nat → 1000 < ceiling →
  (ceiling <=? count_after cutoff h) = false.
Proof.
  intros Hl Hc. apply Z.leb_gt. pose proof (count_after_bounds cutoff h).
  unfold HISTORY_MAXLEN in Hl. lia.
Qed.

Lemma paced_ticks p start every n : ∀ a t0,
  SECOND ≤ every → t0 ≤ start + Z.of_nat a * every →
  ticks t0 (clock (seq a n ≫= λ i,
    [GateAcquire (start + Z.of_nat i * every) (start + Z.of_nat i * every)
       (start + Z.of_nat i * every) p;
     GateTask (start + Z.of_nat i * every + SECOND) 0])).
Proof.
  induction n as [|n IH]; intros a t0 He Ht; [done|].
  cbn [seq]. unfold clock in *. rewrite bind_cons, bind_app. cbn.
  refine (conj _ (conj _ (conj _ (conj _ _)))); [unfold SECOND in *; lia..|].
  apply IH; [done|]. unfold SECOND in *. lia.
Qed.

Lemma paced_monotone p start every n :
  SECOND ≤ every → monotone (clock (paced p start every n)).
Proof.
  intros He. pose proof (paced_ticks p start every n 0 start He ltac:(lia)) as H.
  unfold paced. destruct (clock _) as [|t l]; [done|]. by destruct H.
Qed.

(** C1, an input on which the ceiling of the day is exceeded.  A limiter
    just built, and 2001 calls of [acquire] for ["general"], one every 8
    seconds, each followed after its cooldown by the task that takes the
    burst count down: the clock never goes back, the ceilings of the minute
    and of the hour are never reached, the daily ceiling of ["general"] is
    2000, and all the 2001 requests are recorded, within 16000 seconds. *)
Theorem general_exceeds_its_daily_ceiling :
  let gs := paced "general" 63900000000000000 (8 * SECOND) 2001 in
  let requests := recorded_requests "general" gs __init__ in
  monotone (clock gs)
  ∧ requests_per_day <$> config __init__ "general" = Some 2000
  ∧ in_window DAY (63900000000000000 + 16000 * SECOND) requests = 2001.
Proof.
  intros gs requests. split; [by apply paced_monotone|]. split; [done|].
  by vm_compute.
Qed.

End ceilings.

(** * More of the rate limiter *)

Section limiter_more.
Import RateLimiter.

(** What [mark_request_failed] leaves of the rest of the limiter. *)
Lemma mark_request_failed_rest now p e self :
  let self' := snd (mark_request_failed now p e self) in
  pending self' = pending self
  ∧ (∀ k, history_at self' k = history_at self k)
  ∧ (∀ k, burst_at self' k = burst_at self k)
  ∧ ∀ k, last_request_at self' k =
         if bool_decide (e ∈ ["rate_limit"; "429"; "too_many_requests"])
            && bool_decide (k = lower p)
         then now else last_request_at self k.
Proof.
  unfold mark_request_failed, dd_setitem. py_unfold. unfold_views.
  destruct (bool_decide (e ∈ ["rate_limit"; "429"; "too_many_requests"]));
    [|destruct (bool_decide (e ∈ ["timeout"; "connection_error"]))];
    reads; repeat split; try done; intros k; cbn;
    try case_bool_decide; by simplify_map_eq.
Qed.

(** What a read sees under a key after [reset]. *)
Lemma reset_views target self k :
  match target with
  | Some p => truthy p = true → k = lower p
  | None => True
  end →
  let self' := snd (reset target self) in
  fst (reset target self) = Ok tt
  ∧ rate_limits self' = rate_limits self ∧ enabled self' = enabled self
  ∧ history_at self' k = [] ∧ burst_at self' k = 0
  ∧ multiplier_at self' k = 1%Q ∧ last_request_at self' k = 0.
Proof.
  intros Hk. unfold reset, dd_setitem. py_unfold. unfold_views.
  destruct target as [p|]; [destruct (truthy p) eqn:Ep|]; reads;
    repeat split; try done; cbn; rewrite ?lookup_empty; try done.
  all: rewrite (Hk eq_refl); by simplify_map_eq.
Qed.

(** X1. Cold start.  On an enabled limiter after any calls, once the state
    of a platform is reset (for the platform, or for all with [None] or the
    empty string), the next [acquire] for the platform answers true, as long
    as its four ceilings are positive. *)
Theorem acquire_after_reset
    (cs : list call) (target : option string) (q : string) (rl : RateLimit)
    (nb nc nr : Z) :
  let self := snd (run cs __init__) in
  enabled self = true →
  config self q = Some rl →
  0 < requests_per_minute rl → 0 < requests_per_hour rl →
  0 < requests_per_day rl → 0 < burst_limit rl →
  match target with
  | Some p => truthy p = true → lower p = lower q
  | None => True
  end →
  fst (acquire nb nc nr q (snd (reset target self))) = Ok true.
Proof.
  intros self He Hrl H1 H2 H3 H4 Ht.
  destruct (reset_views target self (lower q)) as (_ & Hl & He' & Hh & Hb & Hm & _).
  { destruct target; [|done]. intros Hp. symmetry. by apply Ht. }
  unfold config in Hrl. destruct (rate_limits self !! "general") as [g|] eqn:Hg; [|done].
  cbn in Hrl. injection Hrl as Hrl.
  destruct (acquire_calm nb nc nr q g (snd (reset target self))) as (s' & -> & _).
  - by rewrite He'.
  - by rewrite Hl.
  - by rewrite Hm.
  - cbn. rewrite Hl, Hrl, Hh, Hb. unfold within_limits. rewrite !count_after_nil.
    do 2 f_equal. rewrite !andb_true_iff, !negb_true_iff, !Z.leb_gt. lia.
Qed.

Lemma acquire_after_reset_witness :
  let self := snd (run [Acquire 5 5 5 "twitter"; MarkRequestFailed 6 "twitter" "429"]
                     __init__) in
  enabled self = true
  ∧ config self "Twitter" = Some (mkRateLimit 15 300 1000 5 2)
  ∧ 0 < 15 ∧ 0 < 300 ∧ 0 < 1000 ∧ 0 < 5
  ∧ (truthy "TWITTER" = true → lower "TWITTER" = lower "Twitter")
  ∧ fst (acquire 7 7 7 "Twitter" (snd (reset (Some "TWITTER") self))) = Ok true.
Proof.
  intros self. do 7 (split; [done|]).
  by apply (acquire_after_reset
              [Acquire 5 5 5 "twitter"; MarkRequestFailed 6 "twitter" "429"]
              (Some "TWITTER") "Twitter" (mkRateLimit 15 300 1000 5 2) 7 7 7).
Defined.



End limiter_more.

Section limiter_multiplier_more.
Import RateLimiter.

Lemma successes_succ p n self :
  successes p (S n) self = snd (mark_request_success p (successes p n self)).
Proof. unfold successes. by rewrite Nat.iter_succ. Qed.

Lemma multiplier_success p self :
  multiplier (snd (mark_request_success p self)) p = decayed (multiplier self p).
Proof.
  destruct (mark_request_success_spec p self) as (s' & -> & _ & _ & _ & _ & _ & _ & _ & Hk).
  unfold multiplier. cbn [snd]. by rewrite Hk, decide_True.
Qed.

Lemma decayed_under m b :
  (m <= Qmax 1 b)%Q →
  (1 <= decayed m <= Qmax 1 (b * (8001 # 10000)))%Q ∨ (m < 1)%Q.
Proof.
  intros Hb. destruct (Qlt_le_dec m 1) as [Hlt|Hge]; [by right|left].
  unfold decayed. destruct (Qltb 1 m) eqn:E.
  - apply Qltb_true in E. split; [apply Q.le_max_l|].
    assert (m <= b)%Q.
    { destruct (Q.max_spec 1 b) as [[? Hx]|[? Hx]]; rewrite Hx in Hb; lra. }
    pose proof (decay_step m ltac:(lra)) as [_ U].
    apply Q.max_lub_iff. split; [apply Q.le_max_l|].
    eapply Qle_trans; [|apply Q.le_max_r]. lra.
  - apply Qltb_false in E. split; [done|]. eapply Qle_trans; [done|apply Q.le_max_l].
Qed.

(** X3. Recovery.  On a limiter after any calls, [n] calls of
    [mark_request_success] in a row leave the multiplier of the platform
    between 1 and the larger of 1 and its value times 0.8001 to the power
    [n], a call multiplying by the float 0.8 and rounding; after 19 of them
    it is 1 again, whatever it was. *)
Theorem successes_restore_multiplier (cs : list call) (p : string) (n : nat) :
  let self := snd (run cs __init__) in
  (1 <= multiplier (successes p n self) p
   <= Qmax 1 (multiplier self p * decay_factor n))%Q
  ∧ (multiplier (successes p 19 self) p == 1)%Q.
Proof.
  intros self.
  pose proof (run_bounded cs _ bounded_init) as [_ _ Hq]. fold self in Hq.
  specialize (Hq (lower p)). fold (multiplier self p) in Hq.
  assert (Hn : ∀ n, (1 <= multiplier (successes p n self) p
                     <= Qmax 1 (multiplier self p * decay_factor n))%Q).
  { clear n. induction n as [|n IH].
    - cbn. split; [lra|]. eapply Qle_trans; [|apply Q.le_max_r]. lra.
    - rewrite successes_succ, multiplier_success. cbn [decay_factor].
      destruct (decayed_under _ _ (proj2 IH)) as [H|H]; [|lra].
      by rewrite Qmult_assoc. }
  split; [apply Hn|]. destruct (Hn 19%nat) as [Hlo Hhi].
  apply Qle_antisym; [|done]. eapply Qle_trans; [exact Hhi|].
  apply Q.max_lub_iff. split; [lra|].
  assert (Hf : (0 <= decay_factor 19 ∧ 60 * decay_factor 19 <= 1)%Q).
  { split; vm_compute; discriminate. }
  destruct Hf as [Hf0 Hf1]. eapply Qle_trans; [|exact Hf1].
  apply Qmult_le_compat_r; lra.
Qed.

(** X4. The types of failure.  On a limiter after any calls,
    [mark_request_failed] with the type ["timeout"] or ["connection_error"]
    sets the multiplier of the platform to the smaller of 60 and its
    product by 1.5, as floats multiply, which is not below what it was, and
    leaves the instant of the last request where it was, so that it starts
    no backoff window; with a type of neither list it leaves the limiter
    exactly as it is. *)
Theorem mark_request_failed_by_type
    (cs : list call) (now : Z) (p e : string) :
  let self := snd (run cs __init__) in
  let self' := snd (mark_request_failed now p e self) in
  (e ∈ ["timeout"; "connection_error"] →
   multiplier self' p = Qmin 60 (binary64 (multiplier self p * (3 # 2)))
   ∧ (multiplier self p <= multiplier self' p <= 60)%Q
   ∧ last_request self' p = last_request self p)
  ∧ (e ∉ ["rate_limit"; "429"; "too_many_requests"; "timeout"; "connection_error"] →
     self' = self).
Proof.
  intros self self'.
  pose proof (run_bounded cs _ bounded_init) as [_ Hx Hq]. fold self in Hx, Hq.
  split.
  - intros He.
    assert (Hn : e ∉ ["rate_limit"; "429"; "too_many_requests"]).
    { intros Hin. apply list_elem_of_In in Hin, He. cbn in Hin, He.
      intuition congruence. }
    destruct (mark_request_failed_spec now p e self) as (s1 & E1 & _ & _ & _ & Hm).
    destruct (mark_request_failed_rest now p e self) as (_ & _ & _ & Hr).
    unfold self', multiplier, last_request. rewrite E1 in Hr |- *. cbn [snd] in Hr |- *.
    rewrite Hm, Hr, decide_True, Hx by done. unfold raised.
    rewrite (bool_decide_eq_false_2 _ Hn), (bool_decide_eq_true_2 _ He). cbn.
    specialize (Hq (lower p)).
    pose proof (raise_step (multiplier_at self (lower p)) ltac:(lra)) as [L _].
    split; [done|]. split; [|done].
    split; [apply Q.min_glb_iff; split; lra|apply Q.le_min_l].
  - intros He. unfold self', mark_request_failed. py_unfold.
    rewrite !bool_decide_eq_false_2; [done|..]; intros Hin; apply He;
      apply list_elem_of_In in Hin; apply list_elem_of_In; cbn in Hin |- *; tauto.
Qed.

End limiter_multiplier_more.

Section limiter_wait_more.
Import RateLimiter.

Lemma total_seconds_nonneg td : 0 ≤ td → (0 <= total_seconds td)%Q.
Proof.
  intros H. unfold total_seconds. apply binary64_nonneg.
  unfold Qdiv, Qle. cbn. lia.
Qed.

(** X5. How long [wait_if_needed] sleeps.  On a limiter after any calls,
    with a configuration whose [cooldown_period] is not negative and whose
    [jitter_range] is a float that is not negative: the sleep is never
    negative; when the last request is not in the future it is at most
    [cooldown_period * backoff_multiplier * (1 + jitter_range)], each
    product and sum rounded as floats are; and once that much time has
    passed since the last request there is no sleep at all.  That longest
    sleep is within four units of roundoff of the exact product. *)
Theorem wait_is_bounded (cs : list call) (p : string) (now : Z) (u : Q) (rl : RateLimit) :
  (0 <= u <= 1)%Q →
  let self := snd (run cs __init__) in
  config self p = Some rl →
  (0 <= cooldown_period rl)%Q →
  (0 <= jitter_range rl)%Q →
  (binary64 (jitter_range rl) == jitter_range rl)%Q →
  let product := (cooldown_period rl * multiplier self p * (1 + jitter_range rl))%Q in
  let longest := binary64 (binary64 (cooldown_period rl * multiplier self p)
                           * binary64 (1 + jitter_range rl)) in
  (product * (1 - 4 * ROUNDOFF) <= longest <= product * (1 + 4 * ROUNDOFF))%Q
  ∧ ∃ wait, fst (wait_if_needed now u p self) = Ok wait
    ∧ (0 <= wait)%Q
    ∧ (last_request self p ≤ now → (wait <= longest)%Q)
    ∧ ((longest <= total_seconds (now - last_request self p))%Q → wait = 0%Q).
Proof.
  intros Hu self Hrl Hc Hj Hf product longest.
  pose proof (run_bounded cs _ bounded_init) as [_ _ Hq]. fold self in Hq.
  specialize (Hq (lower p)). fold (multiplier self p) in Hq.
  assert (Hcm : (0 <= cooldown_period rl * multiplier self p)%Q)
    by (apply Qmult_le_0_compat; lra).
  split; [apply rounded_product_close; lra|].
  assert (Hl0 : (0 <= longest)%Q).
  { apply binary64_nonneg, Qmult_le_0_compat; apply binary64_nonneg; lra. }
  unfold config in Hrl. destruct (rate_limits self !! "general") as [g|] eqn:Hg; [|done].
  cbn in Hrl. injection Hrl as Hrl.
  unfold wait_if_needed. py_unfold. destruct (enabled self); cbn [negb].
  2:{ exists 0%Q. split; [done|]. split; [lra|]. split; [|done]. by intros _. }
  rewrite rate_limits_get_eq, Hg, Hrl.
  destruct (calculate_delay_spec now u (lower p) rl self) as (s' & -> & _).
  fold (multiplier self p) (last_request self p).
  set (j := uniform (- jitter_range rl) (jitter_range rl) u).
  pose proof (uniform_jitter (jitter_range rl) u Hu Hj Hf) as Habs. fold j in Habs.
  apply Qabs_Qle_condition in Habs as [Hj1 Hj2].
  set (delay := Qmax 0 (binary64 (binary64 (cooldown_period rl * multiplier self p)
                                  * binary64 (1 + j)))).
  set (elapsed := total_seconds (now - last_request self p)).
  assert (Hd : (0 <= delay <= longest)%Q).
  { split; [apply Q.le_max_l|]. apply Q.max_lub_iff. split; [done|].
    apply binary64_le.
    rewrite (Qmult_comm _ (binary64 (1 + j))), (Qmult_comm _ (binary64 (1 + jitter_range rl))).
    apply Qmult_le_compat_r; [apply binary64_le; lra|by apply binary64_nonneg]. }
  assert (Hdf : (binary64 delay == delay)%Q).
  { unfold delay. destruct (Q.max_spec 0 (binary64 (binary64 (cooldown_period rl
                                                     * multiplier self p)
                                           * binary64 (1 + j)))) as [[_ Hx]|[_ Hx]];
      rewrite Hx; [apply binary64_idem|reflexivity]. }
  destruct (Qltb elapsed delay) eqn:El.
  - apply Qltb_true in El.
    assert (Hp : (0 < binary64 (delay - elapsed))%Q) by (apply binary64_pos; lra).
    rewrite (proj2 (Qltb_true _ _) Hp).
    exists (binary64 (delay - elapsed)). split; [done|]. split; [lra|]. split.
    + intros Hl. pose proof (total_seconds_nonneg (now - last_request self p) ltac:(lia)) as H.
      fold elapsed in H.
      pose proof (binary64_le (delay - elapsed) delay ltac:(lra)). lra.
    + intros Hl. lra.
  - exists 0%Q. split; [done|]. split; [lra|]. split; [|done]. by intros _.
Qed.

Lemma wait_is_bounded_witness :
  let cs := [MarkRequestFailed 63900000000000000 "twitter" "rate_limit"] in
  let self := snd (run cs __init__) in
  let rl := mkRateLimit 15 300 1000 5 2 in
  (0 <= 1 # 2 <= 1)%Q
  ∧ config self "twitter" = Some rl
  ∧ (0 <= cooldown_period rl)%Q
  ∧ (0 <= jitter_range rl)%Q
  ∧ (binary64 (jitter_range rl) == jitter_range rl)%Q
  ∧ let product := (cooldown_period rl * multiplier self "twitter"
                    * (1 + jitter_range rl))%Q in
    let longest := binary64 (binary64 (cooldown_period rl * multiplier self "twitter")
                             * binary64 (1 + jitter_range rl)) in
    (product * (1 - 4 * ROUNDOFF) <= longest <= product * (1 + 4 * ROUNDOFF))%Q
    ∧ ∃ wait, fst (wait_if_needed 63900000001000000 (1 # 2) "twitter" self) = Ok wait
      ∧ (0 <= wait)%Q
      ∧ (last_request self "twitter" ≤ 63900000001000000 → (wait <= longest)%Q)
      ∧ ((longest <= total_seconds (63900000001000000 - last_request self "twitter"))%Q
         → wait = 0%Q).
Proof.
  intros cs self rl.
  split; [split; vm_compute; discriminate|]. split; [done|].
  split; [vm_compute; discriminate|]. split; [vm_compute; discriminate|].
  split; [by vm_compute|].
  apply (wait_is_bounded cs "twitter" 63900000001000000 (1 # 2) rl);
    [split; vm_compute; discriminate|done|vm_compute; discriminate..|by vm_compute].
Defined.

(** [str.lower] beyond the letters [A] to [Z]: the capital letters from
    U+00C0 to U+00DE become small, the multiplication sign, the sharp s and
    the small letters stay. *)
Lemma lower_above_ascii :
  lower "CAFÉ" = "café"
  ∧ lower "ÀÖ×ØÞßÿ" = "àö×øþßÿ"
  ∧ is_latin1 "CAFÉ" = true
  ∧ is_latin1 "Ω" = false.
Proof. repeat split; reflexivity. Qed.

(** X6. [set_rate_limit] and [get_rate_limit].  On a limiter after any
    calls, what is set for a platform is what is got for it under any
    spelling of its letters in upper or lower case, so that what is set for
    [CAFÉ] is got for [café]; [get_rate_limit] always returns an entry.
    For names whose characters are all below U+0100: a platform with no
    entry gets the entry of ["general"]; and setting a platform other than
    ["general"] changes what is got for no platform of another name. *)
Theorem get_rate_limit_after_set (cs : list call) (p q : string) (rl : RateLimit) :
  let self := snd (run cs __init__) in
  let self' := snd (set_rate_limit p rl self) in
  (lower q = lower p → fst (get_rate_limit q self') = Ok rl)
  ∧ fst (get_rate_limit "café" (snd (set_rate_limit "CAFÉ" rl self))) = Ok rl
  ∧ (is_latin1 q = true → rate_limits self !! lower q = None →
     fst (get_rate_limit q self) = fst (get_rate_limit "general" self))
  ∧ (is_latin1 p = true → is_latin1 q = true →
     lower q ≠ lower p → lower p ≠ "general" →
     fst (get_rate_limit q self') = fst (get_rate_limit q self))
  ∧ ∃ found, fst (get_rate_limit q self) = Ok found.
Proof.
  intros self self'.
  pose proof (run_bounded cs _ bounded_init) as [[g Hg] _ _]. fold self in Hg.
  assert (Hround : ∀ p q, lower q = lower p →
            fst (get_rate_limit q (snd (set_rate_limit p rl self))) = Ok rl).
  { intros p0 q0 E. unfold get_rate_limit. rewrite rate_limits_get_eq.
    unfold set_rate_limit. py_unfold. cbn [snd rate_limits with_rate_limits].
    change (lower "general") with "general". cbn [fst]. rewrite E.
    destruct (decide (lower p0 = "general")) as [E0|E0].
    - rewrite E0, lookup_insert_eq. cbn. by rewrite ?lookup_insert_eq.
    - rewrite lookup_insert_ne, Hg by done. cbn. by rewrite lookup_insert_eq. }
  refine (conj (Hround p q) (conj (Hround "CAFÉ" "café" eq_refl) _)).
  unfold get_rate_limit, self'. rewrite !rate_limits_get_eq.
  unfold set_rate_limit. py_unfold. cbn [snd rate_limits with_rate_limits].
  rewrite Hg. change (lower "general") with "general". cbn [fst].
  refine (conj _ (conj _ _)).
  - intros _ ->. by rewrite Hg.
  - intros _ _ Hq Hp. by rewrite !lookup_insert_ne, Hg by done.
  - by eexists.
Qed.

End limiter_wait_more.

Section limiter_burst.
Import RateLimiter.

Lemma pending_for_app self l k :
  Z.of_nat (length (filter (λ tk, task_platform tk = k) (pending self ++ l)))
  = pending_for self k + Z.of_nat (length (filter (λ tk, task_platform tk = k) l)).
Proof. unfold pending_for. rewrite filter_app, length_app. lia. Qed.

Lemma filter_delete_length (P : task → Prop) `{∀ x, Decision (P x)} i tk (l : list task) :
  l !! i = Some tk →
  Z.of_nat (length (filter P l))
  = Z.of_nat (length (filter P (delete i l))) + (if decide (P tk) then 1 else 0).
Proof.
  intros Hi. rewrite <- (take_drop_middle l i tk Hi) at 1.
  rewrite delete_take_drop, !filter_app, filter_cons, !length_app.
  case_decide; cbn [length]; lia.
Qed.

(** What the run of a pending task does to the burst counts and to the
    list of the pending tasks. *)
Lemma run_task_burst now i self k :
  let self' := snd (run_task now i self) in
  0 ≤ burst_at self k → burst_at self k = pending_for self k →
  0 ≤ burst_at self' k ∧ burst_at self' k = pending_for self' k.
Proof.
  intros self' H0 Hb. subst self'. unfold run_task, _reset_burst_count, dd_setitem.
  py_unfold. destruct (pending self !! i) as [tk|] eqn:Hi; [|done].
  case_match; [|done]. reads. unfold_views. unfold pending_for in *. cbn.
  rewrite (filter_delete_length _ i tk) in Hb by done.
  destruct (decide (task_platform tk = k)) as [->|Hk]; simplify_map_eq; cbn; lia.
Qed.

(** A gate call keeps the burst count of a key equal to the number of its
    pending tasks, and within the burst limit. *)
Lemma gate_step_burst g self k :
  calm self →
  let self' := snd (step (call_of_gate g) self) in
  0 ≤ burst_at self k → burst_at self k = pending_for self k →
  0 ≤ burst_at self' k ∧ burst_at self' k = pending_for self' k.
Proof.
  intros Hc self' H0 Hb. subst self'.
  destruct g as [nb nc nr p|now u p|now i]; cbn [call_of_gate step]; py_unfold.
  - destruct (enabled self) eqn:He; [|by rewrite acquire_disabled].
    destruct (calm_general _ Hc) as [g Hg].
    destruct (acquire_calm nb nc nr p g self He Hg (calm_multiplier _ Hc _))
      as (s' & -> & R). cbn.
    destruct (within_limits _ _ _ _).
    + destruct R as [_ _ _ Hp _ Hbu _ _]. rewrite Hbu. unfold pending_for at 1.
      rewrite Hp, pending_for_app, filter_cons, filter_nil. cbn [task_platform].
      destruct (decide (k = lower p)) as [->|Hk].
      * rewrite decide_True by done. cbn [length]. lia.
      * rewrite decide_False by done. cbn [length]. lia.
    + destruct R as [_ _ _ Hp _ Hbu _ _]. unfold pending_for. rewrite Hbu, Hp.
      by fold (pending_for self k).
  - destruct (wait_if_needed_agree now u p self) as (r & s' & -> & A).
    destruct r; cbn; destruct A as [_ _ _ Hp _ Hbu _ _]; unfold pending_for;
      rewrite Hbu, Hp; by fold (pending_for self k).
  - pose proof (run_task_burst now i self k H0 Hb) as H. cbn zeta in H.
    by destruct (run_task now i self) as [[] s'].
Qed.

Lemma gate_step_limit g self p rl :
  calm self → config self p = Some rl → 0 ≤ burst_limit rl →
  let self' := snd (step (call_of_gate g) self) in
  0 ≤ burst_at self (lower p) → burst_at self (lower p) = pending_for self (lower p) →
  burst_at self (lower p) ≤ burst_limit rl → burst_at self' (lower p) ≤ burst_limit rl.
Proof.
  intros Hc Hrl Hl self' H0 He Hb. subst self'.
  destruct g as [nb nc nr q|now u q|now i]; cbn [call_of_gate step]; py_unfold.
  - destruct (enabled self) eqn:Hen; [|by rewrite acquire_disabled].
    destruct (calm_general _ Hc) as [g Hg].
    destruct (acquire_calm nb nc nr q g self Hen Hg (calm_multiplier _ Hc _))
      as (s' & -> & R). cbn.
    destruct (within_limits _ _ _ _) eqn:Hw.
    + destruct R as [_ _ _ _ _ Hbu _ _]. rewrite Hbu.
      destruct (decide (lower p = lower q)) as [Hk|Hk]; [|done].
      apply within_limits_true in Hw as (_ & _ & _ & Hw).
      unfold config in Hrl. rewrite Hg, Hk in Hrl. cbn in Hrl. injection Hrl as Hrl.
      rewrite Hrl in Hw. lia.
    + destruct R as [_ _ _ _ _ Hbu _ _]. by rewrite Hbu.
  - destruct (wait_if_needed_agree now u q self) as (r & s' & -> & A).
    destruct r; cbn; destruct A as [_ _ _ _ _ Hbu _ _]; by rewrite Hbu.
  - unfold run_task, _reset_burst_count, dd_setitem. py_unfold.
    destruct (pending self !! i) as [tk|] eqn:Hi; [|done].
    destruct (Qle_bool _ _); [|done]. reads. unfold_views. cbn.
    destruct (decide (task_platform tk = lower p)) as [Hk|Hk];
      [rewrite Hk, lookup_insert_eq|rewrite !lookup_insert_ne by done]; cbn; lia.
Qed.

Lemma configure_fresh cfgs :
  burst_count (configure cfgs) = ∅ ∧ pending (configure cfgs) = []
  ∧ enabled (configure cfgs) = true.
Proof.
  unfold configure.
  assert (H : burst_count __init__ = ∅ ∧ pending __init__ = [] ∧ enabled __init__ = true)
    by done.
  revert H. generalize __init__ as self.
  induction cfgs as [|[q rl] cfgs IH]; intros self H; [done|].
  cbn [fmap list_fmap]. rewrite run_cons_snd. by apply IH.
Qed.

(** X7. The burst count.  After any gate calls on a configured limiter, the
    burst count of a platform is the number of its [_reset_burst_count]
    tasks still pending, so that it goes back to 0 once they have all run;
    and it is never above a [burst_limit] that is not negative. *)
Theorem burst_count_is_pending_tasks cfgs gs p rl :
  config (configure cfgs) p = Some rl →
  0 ≤ burst_limit rl →
  let after := run_gates gs (configure cfgs) in
  burst after p = pending_for after (lower p)
  ∧ 0 ≤ burst after p ≤ burst_limit rl.
Proof.
  intros Hrl Hl after. destruct (configure_calm cfgs) as [Hc _].
  assert (H0 : 0 ≤ burst_at (configure cfgs) (lower p)
               ∧ burst_at (configure cfgs) (lower p) = pending_for (configure cfgs) (lower p)
               ∧ burst_at (configure cfgs) (lower p) ≤ burst_limit rl).
  { destruct (configure_fresh cfgs) as (Hb & Hp & _).
    unfold burst_at, pending_for. rewrite Hb, Hp, lookup_empty. cbn. lia. }
  unfold after, burst. revert Hc Hrl H0. generalize (configure cfgs) as self.
  induction gs as [|g gs IH]; intros self Hc Hrl (H0 & He & Hb); [done|].
  rewrite run_gates_cons.
  destruct (gate_step g self Hc) as (r & s1 & E & Hc1 & Hl1 & _).
  pose proof (gate_step_burst g self (lower p) Hc H0 He) as [H0' He'].
  pose proof (gate_step_limit g self p rl Hc Hrl Hl H0 He Hb) as Hb'.
  rewrite E in *. cbn [snd] in *. apply IH; [done| |done].
  by rewrite (config_limits self s1).
Qed.

Lemma burst_count_is_pending_tasks_witness :
  let cfgs := [("Twitter", mkRateLimit 2 2 2 1 1)] in
  let gs := [GateAcquire 10 10 10 "twitter"; GateAcquire 20 20 20 "TWITTER"] in
  let rl := mkRateLimit 2 2 2 1 1 in
  let after := run_gates gs (configure cfgs) in
  config (configure cfgs) "twitter" = Some rl
  ∧ 0 ≤ burst_limit rl
  ∧ burst after "twitter" = 1
  ∧ burst after "twitter" = pending_for after (lower "twitter")
  ∧ 0 ≤ burst after "twitter" ≤ burst_limit rl.
Proof.
  intros cfgs gs rl after.
  split; [done|]. split; [done|]. split; [by vm_compute|].
  by apply (burst_count_is_pending_tasks cfgs gs "twitter" rl).
Defined.

End limiter_burst.

Section limiter_stats.
Import RateLimiter.

Lemma count_after_antitone c1 c2 h : c1 ≤ c2 → count_after c2 h ≤ count_after c1 h.
Proof.
  intros Hc. induction h as [|x h IH]; [done|].
  rewrite !count_after_cons. repeat case_decide; lia.
Qed.

(** No call makes a deque longer than its [maxlen]. *)
Lemma step_short c self :
  bounded self →
  (∀ k, length (history_at self k) ≤ HISTORY_MAXLEN)%nat →
  ∀ k, (length (history_at (snd (step c self)) k) ≤ HISTORY_MAXLEN)%nat.
Proof.
  intros Hb Hs k.
  destruct c as [nb nc nr p|now u p|p|now p e|p rl|p| | |now i]; cbn [step]; py_unfold.
  - destruct (enabled self) eqn:He; [|by rewrite acquire_disabled].
    destruct (bounded_general _ Hb) as [g Hg].
    destruct (acquire_spec nb nc nr p g self He Hg) as (s' & -> & R).
    destruct (granted _); destruct (acquire_answer _ _ _ _ _); cbn;
      destruct R as [_ _ _ _ Hh _ _ _]; rewrite Hh; try case_decide;
      first [apply deque_append_length|apply Hs].
  - destruct (wait_if_needed_agree now u p self) as (r & s' & -> & A).
    destruct r; cbn; by rewrite (agree_history _ _ A).
  - destruct (mark_request_success_spec p self) as (s' & -> & _ & _ & _ & _ & Hh & _).
    cbn. by rewrite Hh.
  - pose proof (mark_request_failed_rest now p e self) as (_ & Hh & _).
    destruct (mark_request_failed_spec now p e self) as (s' & E & _).
    rewrite E in *. cbn in *. by rewrite Hh.
  - apply Hs.
  - assert (Hr : match p with
                 | Some q => truthy q = true → k = lower q
                 | None => True
                 end →
                 (length (history_at (snd (reset p self)) k) ≤ HISTORY_MAXLEN)%nat).
    { intros Hk. pose proof (reset_views p self k Hk) as (_ & _ & _ & Hh & _).
      rewrite Hh. cbn. lia. }
    assert (Hr' : (length (history_at (snd (reset p self)) k) ≤ HISTORY_MAXLEN)%nat).
    { destruct p as [q|]; [|by apply Hr]. destruct (truthy q) eqn:Eq; [|by apply Hr].
      destruct (decide (k = lower q)) as [Hk|Hk]; [by apply Hr|].
      unfold reset, dd_setitem. rewrite Eq. py_unfold. reads. unfold_views. cbn.
      rewrite !lookup_insert_ne by done. apply Hs. }
    by destruct (reset p self) as [[] s'].
  - apply Hs.
  - apply Hs.
  - destruct (run_task_agree_multiplier now i self) as (s' & -> & _ & _ & _ & _ & Hh).
    cbn. by rewrite Hh.
Qed.

Lemma run_short cs : ∀ self,
  bounded self →
  (∀ k, length (history_at self k) ≤ HISTORY_MAXLEN)%nat →
  ∀ k, (length (history_at (snd (run cs self)) k) ≤ HISTORY_MAXLEN)%nat.
Proof.
  induction cs as [|c cs IH]; intros self Hb Hs k; [done|].
  rewrite run_cons_snd. apply IH; [by apply step_bounded|by apply step_short].
Qed.

(** [get_stats] for a platform that has an entry in [rate_limits]. *)
Lemma get_stats_eq now p self rl :
  truthy p = true →
  rate_limits self !! lower p = Some rl →
  fst (get_stats now (Some p) self)
  = Ok (PlatformStats (lower p)
          (count_after (now - MINUTE) (history self p))
          (count_after (now - HOUR) (history self p))
          (count_after (now - DAY) (history self p))
          (burst self p) (multiplier self p) (last_request self p)
          (requests_per_minute rl, requests_per_hour rl, requests_per_day rl,
           burst_limit rl, cooldown_period rl)).
Proof.
  intros Hp Hrl. unfold get_stats. cbn [is_set_platform]. rewrite Hp. cbn [default].
  py_unfold. reads. unfold rate_limits_getitem. by repeat (cbn; rewrite ?Hrl).
Qed.

(** X8. [get_stats] for a platform.  On a limiter after any calls, the
    statistics of a platform that has an entry in [rate_limits] give its
    burst count, multiplier, last request and limits as they are, and counts
    of requests with [0 <= last minute <= last hour <= last day <= 1000];
    for a platform without an entry, [get_stats] raises [KeyError], the
    entry of ["general"] is not used.  In both cases no later read tells the
    limiter from the one before, and the platform is a key of
    [backoff_multiplier] afterwards. *)
Theorem get_stats_of_platform (cs : list call) (now : Z) (p : string) :
  truthy p = true →
  let self := snd (run cs __init__) in
  let self' := snd (get_stats now (Some p) self) in
  agree self self'
  ∧ is_Some (backoff_multiplier self' !! lower p)
  ∧ match rate_limits self !! lower p with
    | Some rl =>
        ∃ m h d,
          fst (get_stats now (Some p) self)
          = Ok (PlatformStats (lower p) m h d (burst self p) (multiplier self p)
                  (last_request self p)
                  (requests_per_minute rl, requests_per_hour rl, requests_per_day rl,
                   burst_limit rl, cooldown_period rl))
          ∧ 0 ≤ m ∧ m ≤ h ∧ h ≤ d ∧ d ≤ 1000
    | None => fst (get_stats now (Some p) self) = Raise (KeyError (lower p))
    end.
Proof.
  intros Hp self self'.
  pose proof (run_short cs __init__ bounded_init) as Hs. fold self in Hs.
  assert (H0 : ∀ k, history_at __init__ k = []) by done.
  specialize (Hs ltac:(intros k; rewrite H0; cbn; lia) (lower p)). clear H0.
  subst self'. unfold get_stats. cbn [is_set_platform]. rewrite Hp. cbn [default].
  py_unfold. reads. unfold rate_limits_getitem.
  destruct (rate_limits self !! lower p) as [rl|] eqn:Hrl;
    repeat (cbn; rewrite ?Hrl); cbn [fst snd].
  - split; [agreed|]. split.
    { cbn. rewrite lookup_insert_eq. by eexists. }
    do 3 eexists. split; [reflexivity|].
    unfold history_at in Hs.
    pose proof (count_after_bounds (now - MINUTE) (default [] (request_history self !! lower p))).
    pose proof (count_after_bounds (now - DAY) (default [] (request_history self !! lower p))).
    pose proof (count_after_antitone (now - HOUR) (now - MINUTE)
                  (default [] (request_history self !! lower p)) ltac:(unfold HOUR, MINUTE, SECOND; lia)).
    pose proof (count_after_antitone (now - DAY) (now - HOUR)
                  (default [] (request_history self !! lower p)) ltac:(unfold DAY, HOUR, MINUTE, SECOND; lia)).
    unfold HISTORY_MAXLEN in Hs. lia.
  - split; [agreed|]. split; [|done]. cbn. rewrite lookup_insert_eq. by eexists.
Qed.

Lemma get_stats_of_platform_witness :
  let cs := [Acquire 10 10 10 "Twitter"; Acquire 20 20 20 "Reddit"] in
  let self := snd (run cs __init__) in
  truthy "Reddit" = true
  ∧ rate_limits self !! lower "Twitter" = Some (mkRateLimit 15 300 1000 5 2)
  ∧ rate_limits self !! lower "Reddit" = None
  ∧ fst (get_stats 30 (Some "Reddit") self) = Raise (KeyError "reddit").
Proof.
  intros cs self. split; [done|]. split; [done|]. split; [done|].
  pose proof (get_stats_of_platform cs 30 "Reddit" eq_refl) as (_ & _ & H).
  exact H.
Defined.

Lemma ticks_app_l t0 l1 l2 : ticks t0 (l1 ++ l2) → ticks t0 l1.
Proof.
  revert t0. induction l1 as [|x l1 IH]; intros t0; [done|].
  cbn. intros [? ?]. split; [done|]. by eapply IH.
Qed.

(** The deque holds no instant after the last reading of the clock. *)
Lemma history_before gs k : ∀ self t0 tend,
  calm self → ticks t0 (clock gs ++ [tend]) →
  Forall (λ y, y ≤ t0) (history_at self k) →
  Forall (λ y, y ≤ tend) (history_at (run_gates gs self) k).
Proof.
  induction gs as [|g gs IH]; intros self t0 tend Hc Ht Hh.
  { cbn in Ht. destruct Ht as [Ht _]. eapply Forall_impl; [done|]. cbn. lia. }
  rewrite run_gates_cons.
  destruct (gate_step g self Hc) as (r & s1 & -> & Hc1 & _ & _ & Hg). cbn [snd].
  unfold clock in Ht. rewrite bind_cons in Ht. fold (clock gs) in Ht.
  destruct g as [nb nc nr q|now u q|now i]; cbn in Ht.
  - destruct Ht as (Hb & Hbc & Hcr & Ht). destruct Hg as (ok & _ & _ & Hg).
    apply (IH s1 nr tend Hc1 Ht). rewrite Hg.
    assert (Hh' : Forall (λ y, y ≤ nr) (history_at self k)).
    { eapply Forall_impl; [done|]. cbn. lia. }
    case_match; [|done]. unfold deque_append. apply Forall_drop, Forall_app.
    split; [done|]. by apply Forall_singleton.
  - destruct Ht as [Hn Ht]. apply (IH s1 now tend Hc1 Ht). rewrite Hg.
    eapply Forall_impl; [done|]. cbn. lia.
  - destruct Ht as [Hn Ht]. apply (IH s1 now tend Hc1 Ht). rewrite Hg.
    eapply Forall_impl; [done|]. cbn. lia.
Qed.

Lemma in_window_count_after len t l :
  Forall (λ y, y ≤ t) l → count_after (t - len) l = in_window len t l.
Proof.
  induction 1 as [|x l Hx Hl IH]; [done|].
  rewrite count_after_cons, in_window_cons, IH. repeat case_decide; lia.
Qed.

(** X9. The statistics respect the ceilings.  After any gate calls on a
    configured limiter, under a clock that never goes back, the counts that
    [get_stats] reports for a platform with an entry are within its
    ceilings: requests of the last minute at most [requests_per_minute],
    of the last hour at most [requests_per_hour], of the last day at most
    [requests_per_day]. *)
Theorem get_stats_within_ceilings cfgs gs p rl now :
  truthy p = true →
  monotone (clock gs ++ [now]) →
  rate_limits (configure cfgs) !! lower p = Some rl →
  0 ≤ requests_per_minute rl → 0 ≤ requests_per_hour rl → 0 ≤ requests_per_day rl →
  ∃ m h d b mult last limits,
    fst (get_stats now (Some p) (run_gates gs (configure cfgs)))
    = Ok (PlatformStats (lower p) m h d b mult last limits)
    ∧ 0 ≤ m ≤ requests_per_minute rl
    ∧ 0 ≤ h ≤ requests_per_hour rl
    ∧ 0 ≤ d ≤ requests_per_day rl.
Proof.
  intros Hp Hm Hrl H1 H2 H3.
  destruct (configure_calm cfgs) as [Hc Hh].
  destruct (monotone_ticks _ Hm) as [t0 Ht].
  assert (Hcfg : config (configure cfgs) p = Some rl).
  { unfold config. destruct (calm_general _ Hc) as [g ->]. cbn. by rewrite Hrl. }
  assert (Hmg : monotone (clock gs)).
  { destruct (clock gs) as [|t l]; [done|]. cbn in Hm |- *. by eapply ticks_app_l. }
  assert (Hrl' : rate_limits (run_gates gs (configure cfgs)) !! lower p = Some rl).
  { clear -Hc Hrl. revert Hc Hrl. generalize (configure cfgs) as self.
    induction gs as [|g gs IH]; intros self Hc Hrl; [done|].
    rewrite run_gates_cons.
    destruct (gate_step g self Hc) as (r & s1 & -> & Hc1 & Hl1 & _). cbn [snd].
    apply IH; [done|]. by rewrite Hl1. }
  pose proof (history_before gs (lower p) (configure cfgs) t0 now Hc Ht) as Hb.
  rewrite Hh in Hb. specialize (Hb (Forall_nil_2 _)).
  rewrite (get_stats_eq now p _ rl Hp Hrl'). do 7 eexists. split; [reflexivity|].
  unfold history. rewrite !in_window_count_after by done.
  destruct (history_within_ceilings cfgs gs p rl now Hmg Hcfg H1 H2 H3) as (W1 & W2 & W3).
  pose proof (in_window_nonneg MINUTE now (history (run_gates gs (configure cfgs)) p)).
  pose proof (in_window_nonneg HOUR now (history (run_gates gs (configure cfgs)) p)).
  pose proof (in_window_nonneg DAY now (history (run_gates gs (configure cfgs)) p)).
  unfold history in *. lia.
Qed.

Lemma get_stats_within_ceilings_witness :
  let cfgs := [("twitter", mkRateLimit 1 5 5 5 1)] in
  let gs := [GateAcquire 10 10 10 "twitter"; GateTask 2000000 0;
             GateAcquire 3000000 3000000 3000000 "twitter"] in
  let rl := mkRateLimit 1 5 5 5 1 in
  truthy "Twitter" = true
  ∧ monotone (clock gs ++ [4000000])
  ∧ rate_limits (configure cfgs) !! lower "Twitter" = Some rl
  ∧ 0 ≤ requests_per_minute rl ∧ 0 ≤ requests_per_hour rl ∧ 0 ≤ requests_per_day rl
  ∧ ∃ m h d b mult last limits,
      fst (get_stats 4000000 (Some "Twitter") (run_gates gs (configure cfgs)))
      = Ok (PlatformStats (lower "Twitter") m h d b mult last limits)
      ∧ 0 ≤ m ≤ requests_per_minute rl
      ∧ 0 ≤ h ≤ requests_per_hour rl
      ∧ 0 ≤ d ≤ requests_per_day rl.
Proof.
  intros cfgs gs rl.
  split; [done|]. split; [cbn; lia|]. split; [done|].
  split; [done|]. split; [done|]. split; [done|].
  apply (get_stats_within_ceilings cfgs gs "Twitter" rl 4000000); [done|cbn; lia|done..].
Defined.

End limiter_stats.

Section limiter_defaults.
Import RateLimiter.

(** X10. The built-in ceilings.  On a limiter as [__init__] builds it, under
    a clock that never goes back, the requests that [acquire] granted to a
    platform number in no minute more than its [requests_per_minute] and in
    no hour more than its [requests_per_hour], whatever the platform; and in
    no day more than its [requests_per_day] for the five platforms with an
    entry of their own. *)
Theorem builtin_ceilings_hold (gs : list gate) (p : string) (t : Z) :
  monotone (clock gs) →
  let requests := recorded_requests (lower p) gs __init__ in
  ∃ rl, config __init__ p = Some rl
    ∧ in_window MINUTE t requests ≤ requests_per_minute rl
    ∧ in_window HOUR t requests ≤ requests_per_hour rl
    ∧ (lower p ∈ ["twitter"; "instagram"; "facebook"; "linkedin"; "tiktok"] →
       in_window DAY t requests ≤ requests_per_day rl).
Proof.
  intros Hm requests.
  assert (Hrl : ∃ rl, config __init__ p = Some rl
            ∧ 0 ≤ requests_per_minute rl ≤ 1000 ∧ 0 ≤ requests_per_hour rl ≤ 1000
            ∧ (lower p ∈ ["twitter"; "instagram"; "facebook"; "linkedin"; "tiktok"] →
               0 ≤ requests_per_day rl ≤ 1000)).
  { unfold config. cbn.
    destruct (decide (lower p = "twitter")) as [->|];
      [exists (mkRateLimit 15 300 1000 5 2); split; [done|]; cbn; split; [lia|]; split; [lia|];
       intros _; lia|].
    destruct (decide (lower p = "instagram")) as [->|];
      [exists (mkRateLimit 10 200 500 3 3); split; [done|]; cbn; split; [lia|]; split; [lia|];
       intros _; lia|].
    destruct (decide (lower p = "facebook")) as [->|];
      [exists (mkRateLimit 20 400 1000 8 (5 # 2)); split; [done|]; cbn; split; [lia|]; split; [lia|];
       intros _; lia|].
    destruct (decide (lower p = "linkedin")) as [->|];
      [exists (mkRateLimit 8 150 300 2 3); split; [done|]; cbn; split; [lia|]; split; [lia|];
       intros _; lia|].
    destruct (decide (lower p = "tiktok")) as [->|];
      [exists (mkRateLimit 12 250 600 4 (5 # 2)); split; [done|]; cbn; split; [lia|]; split; [lia|];
       intros _; lia|].
    destruct (decide (lower p = "general")) as [->|].
    { exists (mkRateLimit 30 500 2000 10 1); split; [done|]. cbn. split; [lia|]. split; [lia|].
      intros H. apply list_elem_of_In in H. cbn in H. intuition congruence. }
    rewrite !lookup_insert_ne, lookup_empty by done.
    exists (mkRateLimit 30 500 2000 10 1); split; [done|]. cbn. split; [lia|]. split; [lia|].
    intros H. apply list_elem_of_In in H. cbn in H. intuition congruence. }
  destruct Hrl as (rl & Hrl & H1 & H2 & H3). exists rl. split; [done|].
  destruct (recorded_within_ceilings [] gs p rl t Hm Hrl) as (W1 & W2 & W3).
  split; [by apply W1|]. split; [by apply W2|]. intros Hp. by apply W3, H3.
Qed.

Lemma builtin_ceilings_hold_witness :
  let gs := [GateAcquire 10 10 10 "LinkedIn"; GateTask 4000000 0;
             GateAcquire 5000000 5000000 5000000 "LinkedIn"] in
  let requests := recorded_requests (lower "LinkedIn") gs __init__ in
  monotone (clock gs)
  ∧ requests = [10; 5000000]
  ∧ ∃ rl, config __init__ "LinkedIn" = Some rl
    ∧ in_window MINUTE 5000000 requests ≤ requests_per_minute rl
    ∧ in_window HOUR 5000000 requests ≤ requests_per_hour rl
    ∧ (lower "LinkedIn" ∈ ["twitter"; "instagram"; "facebook"; "linkedin"; "tiktok"] →
       in_window DAY 5000000 requests ≤ requests_per_day rl).
Proof.
  intros gs requests. split; [cbn; lia|]. split; [by vm_compute|].
  apply (builtin_ceilings_hold gs "LinkedIn" 5000000). cbn. lia.
Defined.

(** X11. A disabled limiter.  While the limiter is disabled, [acquire]
    answers true and [wait_if_needed] answers 0.0 whatever the platform and
    the instant, and neither changes the limiter: no request is recorded
    and no task is created. *)
Theorem disabled_limiter_is_transparent (gs : list gate) (self : t) :
  enabled self = false →
  Forall (λ g, match g with GateTask _ _ => False | _ => True end) gs →
  run (call_of_gate <$> gs) self = (transparent <$> gs, self).
Proof.
  intros He Hg. induction Hg as [|g gs Hg _ IH]; [done|].
  cbn [fmap list_fmap run].
  destruct g as [nb nc nr p|now u p|now i]; [| |done]; cbn [call_of_gate step transparent].
  - py_unfold. rewrite acquire_disabled by done. by rewrite IH.
  - unfold wait_if_needed. py_unfold. rewrite He. cbn. by rewrite IH.
Qed.

Lemma disabled_limiter_is_transparent_witness :
  let self := snd (run [MarkRequestFailed 5 "twitter" "429"; Disable] __init__) in
  let gs := [GateAcquire 10 10 10 "twitter"; GateWait 11 (1 # 2) "twitter"] in
  enabled self = false
  ∧ Forall (λ g, match g with GateTask _ _ => False | _ => True end) gs
  ∧ run (call_of_gate <$> gs) self = (transparent <$> gs, self).
Proof.
  intros self gs.
  assert (Hg : Forall (λ g, match g with GateTask _ _ => False | _ => True end) gs)
    by (repeat constructor).
  split; [done|]. split; [done|].
  by apply (disabled_limiter_is_transparent gs self).
Defined.

End limiter_defaults.

(** * More of the proxy manager *)

Section proxies_more.
Import ProxyManager.

Lemma load_save_item p : load_item (save_item p) = Some (without_last_checked p).
Proof. done. Qed.

Lemma load_items_save l : load_items (save_item <$> l) = without_last_checked <$> l.
Proof.
  induction l as [|p l IH]; [done|].
  cbn [fmap list_fmap load_items]. by rewrite load_save_item, IH.
Qed.

(** The objects behind the references made for a list of new objects. *)
Lemma omap_lookup_seq {A} (P : A → bool) (l1 l2 : list A) :
  omap (λ r, (l1 ++ l2) !! r)
    (filter (λ r, P <$> (l1 ++ l2) !! r = Some true) (seq (length l1) (length l2)))
  = filter (λ x, P x = true) l2.
Proof.
  revert l1. induction l2 as [|x l2 IH]; intros l1; [done|].
  cbn [length seq]. rewrite filter_cons.
  assert (Hx : (l1 ++ x :: l2) !! length l1 = Some x) by by rewrite list_lookup_middle.
  specialize (IH (l1 ++ [x])). rewrite <- app_assoc, length_app in IH. cbn in IH.
  rewrite Nat.add_1_r in IH. rewrite filter_cons, Hx. cbn [fmap option_fmap option_map].
  destruct (P x) eqn:Px.
  - rewrite decide_True by done. rewrite decide_True by done.
    cbn [omap list_omap]. rewrite Hx. by rewrite <- IH.
  - rewrite decide_False by congruence. rewrite decide_False by congruence. done.
Qed.

Lemma omap_lookup_seq_all {A} (l1 l2 : list A) :
  omap (λ r, (l1 ++ l2) !! r) (seq (length l1) (length l2)) = l2.
Proof.
  revert l1. induction l2 as [|x l2 IH]; intros l1; [done|].
  cbn [length seq omap list_omap]. rewrite list_lookup_middle by done.
  specialize (IH (l1 ++ [x])). rewrite <- app_assoc, length_app in IH. cbn in IH.
  rewrite Nat.add_1_r in IH. by rewrite IH.
Qed.

(** X12. The cache file.  A manager built from the cache file that another
    manager saved knows the proxies of that manager, in their order and with
    their failure and success counts, but with no [last_checked]; its
    working subset is made of those whose [is_working] flag was set,
    whatever the working subset of the manager that saved. *)
Theorem cache_round_trip (self : t) (now : Z) (use : bool) (timeout retries interval : Z)
    (file : string) :
  let restarted :=
    __init__ now (load_items (_save_cached_proxies self)) use timeout retries interval file in
  known restarted = without_last_checked <$> known self
  ∧ working restarted
    = filter (λ p, is_working p = true) (without_last_checked <$> known self)
  ∧ (fail_count <$> known restarted) = (fail_count <$> known self).
Proof.
  intros restarted. unfold _save_cached_proxies in restarted. fold (known self) in restarted.
  assert (Hk : known restarted = without_last_checked <$> known self).
  { unfold restarted, known at 1, __init__, _load_cached_proxies. cbn.
    rewrite load_items_save.
    exact (omap_lookup_seq_all [] (without_last_checked <$> known self)). }
  split; [done|]. split.
  - unfold restarted, working, __init__, _load_cached_proxies. cbn.
    rewrite load_items_save.
    exact (omap_lookup_seq is_working [] (without_last_checked <$> known self)).
  - rewrite Hk, <- list_fmap_compose. by apply list_fmap_ext.
Qed.

(** The urls that the duplicate removal keeps. *)
Lemma unique_proxies_urls o l : ∀ seen,
  NoDup (url_of o <$> unique_proxies o seen l)
  ∧ ∀ u, Some u ∈ url_of o <$> unique_proxies o seen l
         ↔ Some u ∈ url_of o <$> l ∧ u ∉ seen.
Proof.
  induction l as [|r l IH]; intros seen.
  { split; [constructor|]. intros u. cbn. rewrite elem_of_nil. tauto. }
  cbn [unique_proxies].
  destruct (o !! r) as [p|] eqn:Hr.
  - assert (Hur : url_of o r = Some (url p)) by (unfold url_of; by rewrite Hr).
    case_bool_decide as Hs.
    + destruct (IH seen) as [Hn Hu]. split; [done|]. intros u.
      rewrite Hu, fmap_cons, elem_of_cons, Hur. split; [tauto|].
      intros [[Hp|Hl] Hns]; [|done]. injection Hp as ->. done.
    + destruct (IH ({[url p]} ∪ seen)) as [Hn Hu]. rewrite !fmap_cons, Hur. split.
      * apply NoDup_cons. split; [|done]. rewrite Hu. intros [_ H]. apply H.
        apply elem_of_union. left. by apply elem_of_singleton.
      * intros u. rewrite !elem_of_cons, Hu. split.
        -- intros [Hp|[Hl Hns]].
           ++ injection Hp as ->. tauto.
           ++ split; [by right|]. intros H. apply Hns, elem_of_union. by right.
        -- intros [[Hp|Hl] Hns]; [by left|]. destruct (decide (u = url p)) as [->|];
             [by left|right]. split; [done|].
           rewrite elem_of_union, elem_of_singleton. tauto.
  - assert (Hur : url_of o r = None) by (unfold url_of; by rewrite Hr).
    destruct (IH seen) as [Hn Hu]. split; [done|]. intros u.
    rewrite Hu, fmap_cons, elem_of_cons, Hur. split; [tauto|]. by intros [[|] ?].
Qed.

Lemma url_of_fresh (o f : list Proxy) :
  url_of (o ++ f) <$> seq (length o) (length f) = Some ∘ url <$> f.
Proof.
  revert o. induction f as [|p f IH]; intros o; [done|].
  cbn [length seq fmap list_fmap]. unfold url_of at 1.
  rewrite list_lookup_middle by done. cbn. f_equal.
  specialize (IH (o ++ [p])). rewrite <- app_assoc, length_app in IH. cbn in IH.
  by rewrite Nat.add_1_r in IH.
Qed.

(** X13. [_fetch_proxies] keeps one proxy for each url.  After it the urls
    of the proxies that the manager knows are pairwise different, and they
    are the urls known before together with the urls fetched; the working
    subset is the list it was. *)
Theorem fetch_proxies_keeps_one_per_url (fetched : list Proxy) (self : t) :
  let self' := _fetch_proxies fetched self in
  NoDup (known_urls self')
  ∧ (∀ u, Some u ∈ known_urls self' ↔ Some u ∈ known_urls self ∨ u ∈ url <$> fetched)
  ∧ working_proxies self' = working_proxies self.
Proof.
  intros self'. unfold self', known_urls, _fetch_proxies. cbn.
  destruct (unique_proxies_urls (objects self ++ fetched)
              (proxies self ++ seq (length (objects self)) (length fetched)) ∅) as [Hn Hu].
  split; [done|]. split; [|done]. intros u.
  rewrite Hu, fmap_app, elem_of_app, url_of_fresh. split.
  - intros [[Ho|Hf] _].
    + apply list_elem_of_fmap in Ho as (r & Hr & Hin). unfold url_of in Hr.
      destruct (objects self !! r) as [p|] eqn:E.
      * left. apply list_elem_of_fmap. exists r. split; [|done]. unfold url_of.
        rewrite (lookup_app_l_Some _ _ _ _ E) in Hr. by rewrite E.
      * right. destruct ((objects self ++ fetched) !! r) as [p|] eqn:E'; [|done].
        cbn in Hr. injection Hr as ->. apply list_elem_of_fmap. exists p. split; [done|].
        apply lookup_app_Some in E' as [E'|[_ E']]; [congruence|].
        by eapply list_elem_of_lookup_2.
    + right. apply list_elem_of_fmap in Hf as (p & Hp & Hin). cbn in Hp.
      injection Hp as ->. apply list_elem_of_fmap. by exists p.
  - intros [Ho|Hf]; (split; [|apply not_elem_of_empty]).
    + left. apply list_elem_of_fmap in Ho as (r & Hr & Hin).
      apply list_elem_of_fmap. exists r. split; [|done]. unfold url_of in *.
      destruct (objects self !! r) as [p|] eqn:E; [|done].
      by rewrite (lookup_app_l_Some _ _ _ _ E).
    + right. apply list_elem_of_fmap in Hf as (p & -> & Hin).
      apply list_elem_of_fmap. by exists p.
Qed.

Lemma count_in_NoDup (r : nat) l :
  NoDup l → length (filter (λ x, x = r) l) = if bool_decide (r ∈ l) then 1%nat else 0%nat.
Proof.
  induction 1 as [|x l Hx Hl IH]; [done|].
  rewrite filter_cons. destruct (decide (x = r)) as [->|Hne].
  - cbn [length]. rewrite IH, bool_decide_eq_false_2 by done.
    rewrite bool_decide_eq_true_2; [done|left].
  - rewrite IH. rewrite (bool_decide_ext (r ∈ x :: l) (r ∈ l)); [done|].
    rewrite elem_of_cons. split; [|tauto]. by intros [->|].
Qed.

(** X14. [_validate_proxies] evicts nothing.  A proxy of the working subset
    that the manager knows is still in the working subset after the checks,
    with its url and its counts; its [is_working] flag tells whether it
    passed.  When it passed it is in the list once more than before, so
    that the list holds it twice at least. *)
Theorem validate_proxies_evicts_nothing
    (now : Z) (passed : list nat) (self : t) (r : nat) (p : Proxy) :
  r ∈ working_proxies self →
  r ∈ proxies self →
  objects self !! r = Some p →
  let self' := _validate_proxies now passed self in
  let times (s : t) := length (filter (λ x, x = r) (working_proxies s)) in
  r ∈ working_proxies self'
  ∧ (∃ p', objects self' !! r = Some p'
       ∧ url p' = url p ∧ fail_count p' = fail_count p
       ∧ success_count p' = success_count p
       ∧ is_working p' = bool_decide (r ∈ passed))
  ∧ times self' = (times self + if bool_decide (r ∈ passed) then 1 else 0)%nat.
Proof.
  intros Hw Hk Hp self' times.
  assert (Hin : r ∈ remove_dups (filter (λ r, r ∈ proxies self) passed) ↔ r ∈ passed).
  { rewrite elem_of_remove_dups, list_elem_of_filter. tauto. }
  split; [|split].
  - unfold self', _validate_proxies. cbn. apply elem_of_app. by left.
  - unfold self', _validate_proxies. cbn. rewrite list_lookup_imap, Hp. cbn.
    rewrite bool_decide_eq_true_2 by done. eexists. split; [done|]. cbn.
    repeat split. by apply bool_decide_ext.
  - unfold times, self', _validate_proxies. cbn.
    rewrite filter_app, length_app.
    rewrite (count_in_NoDup r (remove_dups _)) by apply NoDup_remove_dups.
    f_equal. by rewrite (bool_decide_ext _ _ Hin).
Qed.

Lemma validate_proxies_evicts_nothing_witness :
  let p := {| url := "http://10.0.0.1:80"; protocol := "http"; ip := "10.0.0.1";
              port := 80; country := None; anonymity := None; speed := None;
              last_checked := None; is_working := true; fail_count := 0;
              success_count := 0 |} in
  let self := __init__ 0 [p] true 10 3 300 "proxy_cache.json" in
  let self' := _validate_proxies 5 [0%nat] self in
  (0%nat ∈ working_proxies self)
  ∧ (0%nat ∈ proxies self)
  ∧ objects self !! 0%nat = Some p
  ∧ working_proxies self' = [0%nat; 0%nat]
  ∧ length (filter (λ x, x = 0%nat) (working_proxies self')) = 2%nat.
Proof.
  intros p self self'.
  assert (H1 : 0%nat ∈ working_proxies self).
  { replace (working_proxies self) with [0%nat] by (by vm_compute). left. }
  assert (H2 : 0%nat ∈ proxies self).
  { replace (proxies self) with [0%nat] by (by vm_compute). left. }
  split; [done|]. split; [done|]. split; [done|]. split; [done|].
  destruct (validate_proxies_evicts_nothing 5 [0%nat] self 0%nat p H1 H2 eq_refl)
    as (_ & _ & H).
  exact H.
Defined.

(** The proxy behind a url that [get_proxy] returns. *)
Lemma get_proxy_Some w self u :
  fst (get_proxy w self) = Some u →
  let self' := snd (get_proxy w self) in
  use_proxies self = true
  ∧ ∃ r, r ∈ working_proxies self' ∧ url_of (objects self') r = Some u
         ∧ current_proxy self' = Some r.
Proof.
  unfold get_proxy. destruct (use_proxies self); [|done]. cbn [negb].
  set (s1 := if _should_rotate (now_checked w) self then _ else _).
  destruct (working_proxies s1) as [|r0 l] eqn:Ew; [done|].
  destruct (choice (choice_draw w) (r0 :: l)) as [r|] eqn:Ec; [|done].
  cbn [fst snd]. intros Hu. split; [done|]. apply choice_elem_of in Ec.
  exists r. cbn. by rewrite Ew.
Qed.

(** X15. What [get_proxy] returns.  A url that [get_proxy] returns is the url
    of a proxy of the working subset as the call leaves it, and of the
    current proxy that [get_stats] shows; the manager then uses proxies. *)
Theorem get_proxy_returns_working_proxy (w : world) (self : t) (u : string) :
  fst (get_proxy w self) = Some u →
  let self' := snd (get_proxy w self) in
  use_proxies self = true
  ∧ Some u ∈ working_urls self'
  ∧ stat_current_proxy (get_stats self') = Some u
  ∧ (0 < stat_working_proxies (get_stats self'))%nat.
Proof.
  intros Hg self'. destruct (get_proxy_Some w self u Hg) as (Hu & r & Hr & Hur & Hc).
  fold self' in Hr, Hur, Hc. split; [done|]. split; [|split].
  - unfold working_urls. rewrite <- Hur. by apply list_elem_of_fmap_2.
  - unfold get_stats. cbn. by rewrite Hc.
  - unfold get_stats. cbn. destruct (working_proxies self'); [|cbn; lia].
    by apply elem_of_nil in Hr.
Qed.

Lemma get_proxy_returns_working_proxy_witness :
  let p := {| url := "http://10.0.0.1:80"; protocol := "http"; ip := "10.0.0.1";
              port := 80; country := None; anonymity := None; speed := None;
              last_checked := None; is_working := true; fail_count := 0;
              success_count := 0 |} in
  let self := __init__ 0 [p] true 10 3 300 "proxy_cache.json" in
  let w := {| now_checked := 1; now_rotated := 1; now_validated := 2;
              shuffle_draws := λ _, 0%nat; fetched := []; passed := [];
              choice_draw := 7 |} in
  let self' := snd (get_proxy w self) in
  fst (get_proxy w self) = Some "http://10.0.0.1:80"
  ∧ use_proxies self = true
  ∧ Some "http://10.0.0.1:80" ∈ working_urls self'
  ∧ stat_current_proxy (get_stats self') = Some "http://10.0.0.1:80"
  ∧ (0 < stat_working_proxies (get_stats self'))%nat.
Proof.
  intros p self w self'. split; [by vm_compute|].
  apply (get_proxy_returns_working_proxy w self "http://10.0.0.1:80"). by vm_compute.
Defined.

End proxies_more.

Section proxies_linked.
Import ProxyManager.

Lemma url_of_app (o f : list Proxy) r :
  (r < length o)%nat → url_of (o ++ f) r = url_of o r.
Proof. intros H. unfold url_of. by rewrite lookup_app_l. Qed.

Lemma unique_proxies_elem_of o l r : ∀ seen, r ∈ unique_proxies o seen l → r ∈ l.
Proof.
  induction l as [|r0 l IH]; intros seen; [done|]. cbn [unique_proxies].
  destruct (o !! r0) as [p|]; [case_bool_decide as Hs|].
  - intros Hin. right. by eapply IH.
  - intros [->|Hin]%elem_of_cons; [left|right; by eapply IH].
  - intros Hin. right. by eapply IH.
Qed.

(** The working subset as two per-reference facts. *)
Lemma linked_Forall self :
  linked self ↔
  Forall (λ r, r < length (objects self))%nat (proxies self)
  ∧ Forall (λ r, (r < length (objects self))%nat
               ∧ ∃ r', r' ∈ proxies self
                       ∧ url_of (objects self) r' = url_of (objects self) r)
      (working_proxies self).
Proof.
  split.
  - intros [H1 H2 H3]. split; [done|]. rewrite Forall_forall in H2 |- *.
    intros r Hr. split; [by apply H2|by apply H3].
  - intros [H1 H2]. rewrite Forall_forall in H2. split; [done|..].
    + apply Forall_forall. intros r Hr. by apply H2.
    + intros r Hr. by apply H2.
Qed.

Lemma linked_fetch fetched self : linked self → linked (_fetch_proxies fetched self).
Proof.
  intros [H1 H2 H3]. unfold _fetch_proxies.
  set (o' := objects self ++ fetched).
  set (l' := proxies self ++ seq (length (objects self)) (length fetched)).
  assert (Hl' : Forall (λ r, r < length o')%nat l').
  { unfold o', l'. rewrite length_app. apply Forall_app. split.
    - eapply Forall_impl; [done|]. cbn. lia.
    - apply Forall_forall. intros r Hr%elem_of_seq. lia. }
  split; cbn; fold o' l'.
  - rewrite Forall_forall in Hl' |- *. intros r Hr. by eapply Hl', unique_proxies_elem_of.
  - unfold o'. rewrite length_app. eapply Forall_impl; [done|]. cbn. lia.
  - intros r Hr. destruct (H3 r Hr) as (r' & Hr' & Hu).
    rewrite Forall_forall in H1, H2.
    assert (Hlt : (r < length (objects self))%nat) by by apply H2.
    destruct (objects self !! r) as [p|] eqn:Ep; [|by apply lookup_ge_None in Ep; lia].
    assert (Hur : url_of (objects self) r = Some (url p)) by (unfold url_of; by rewrite Ep).
    destruct (unique_proxies_urls o' l' ∅) as [_ Hk].
    assert (Hin : Some (url p) ∈ url_of o' <$> unique_proxies o' ∅ l').
    { apply Hk. split; [|apply not_elem_of_empty]. apply list_elem_of_fmap.
      exists r'. split; [|unfold l'; apply elem_of_app; by left].
      unfold o'. rewrite url_of_app by by apply H1. congruence. }
    apply list_elem_of_fmap in Hin as (r'' & Hr'' & Hin). exists r''. split; [done|].
    unfold o' at 2. rewrite (url_of_app _ _ r) by done. congruence.
Qed.

Lemma url_of_validated now (ok : nat → bool) (known : nat → bool) o r :
  url_of (imap (λ r p, if known r then with_validation now (ok r) p else p) o) r
  = url_of o r.
Proof.
  unfold url_of. rewrite list_lookup_imap. destruct (o !! r) as [p|]; [|done].
  cbn. by destruct (known r).
Qed.

Lemma linked_validate now passed self :
  linked self → linked (_validate_proxies now passed self).
Proof.
  intros [H1 H2 H3]. unfold _validate_proxies.
  set (passed' := remove_dups (filter (λ r, r ∈ proxies self) passed)).
  set (check := λ (r : nat) (p : Proxy), if bool_decide (r ∈ proxies self)
                  then with_validation now (bool_decide (r ∈ passed')) p else p).
  assert (Hu : ∀ r, url_of (imap check (objects self)) r = url_of (objects self) r).
  { intros r. apply (url_of_validated now (λ r, bool_decide (r ∈ passed'))
                       (λ r, bool_decide (r ∈ proxies self))). }
  assert (Hp : ∀ r, r ∈ passed' → r ∈ proxies self).
  { intros r. unfold passed'. rewrite elem_of_remove_dups, list_elem_of_filter. tauto. }
  split; cbn; rewrite ?length_imap.
  - done.
  - apply Forall_app. split; [done|]. apply Forall_forall. intros r Hr.
    rewrite Forall_forall in H1. by apply H1, Hp.
  - intros r [Hr|Hr]%elem_of_app.
    + destruct (H3 r Hr) as (r' & Hr' & E). exists r'. split; [done|]. by rewrite !Hu.
    + exists r. split; [by apply Hp|done].
Qed.

Lemma linked_initialize now fetched passed self :
  linked self → linked (initialize now fetched passed self).
Proof.
  intros H. unfold initialize. destruct (use_proxies self); [|done].
  by apply linked_validate, linked_fetch.
Qed.

Lemma linked_rotate w self : linked self → linked (_rotate_proxies w self).
Proof.
  intros H. unfold _rotate_proxies.
  destruct (10 <=? length (working_proxies (with_last_rotation (now_rotated w) self)))%nat.
  - apply linked_Forall in H as [H1 H2]. apply linked_Forall. split; [done|].
    cbn. by apply shuffle_Forall.
  - apply linked_validate, linked_fetch. by destruct H.
Qed.

Lemma linked_get_proxy w self : linked self → linked (snd (get_proxy w self)).
Proof.
  intros H. unfold get_proxy. destruct (use_proxies self); [|done]. cbn [negb].
  set (s1 := if _should_rotate (now_checked w) self then _ else _).
  assert (H1 : linked s1).
  { unfold s1. destruct (_should_rotate (now_checked w) self); [|done].
    by apply linked_rotate. }
  destruct (working_proxies s1); [done|].
  destruct (choice _ _); [|done]. by destruct H1.
Qed.

Lemma linked_failed u self : linked self → linked (mark_proxy_failed u self).
Proof.
  intros H. unfold mark_proxy_failed. destruct (use_proxies self); [|done]. cbn [negb].
  destruct (find_proxy (objects self) u (proxies self)) as [[r p]|] eqn:Hf; [|done].
  apply find_proxy_Some in Hf as (Hr & Hp & Hin).
  assert (Hu : ∀ r', url_of (<[r := with_failure p]> (objects self)) r'
                     = url_of (objects self) r').
  { intros r'. by apply (url_of_insert _ _ p). }
  destruct H as [H1 H2 H3].
  assert (H' : linked (with_objects (<[r := with_failure p]> (objects self)) self)).
  { split; cbn; rewrite ?length_insert; [done..|].
    intros r' Hr'. destruct (H3 r' Hr') as (r'' & ? & E). exists r''.
    split; [done|]. by rewrite !Hu. }
  cbn zeta. destruct (_ <=? _); [|done].
  destruct H' as [H1' H2' H3']. split; cbn in *; [done|..].
  - apply Forall_forall. intros r' [Hr' _]%without_url_spec.
    rewrite Forall_forall in H2'. by apply H2'.
  - intros r' [Hr' _]%without_url_spec. by apply H3'.
Qed.

Lemma linked_success now u self : linked self → linked (mark_proxy_success now u self).
Proof.
  intros H. unfold mark_proxy_success. destruct (use_proxies self); [|done]. cbn [negb].
  destruct (find_proxy (objects self) u (proxies self)) as [[r p]|] eqn:Hf; [|done].
  apply find_proxy_Some in Hf as (Hr & Hp & Hin).
  assert (Hu : ∀ r', url_of (<[r := with_success now p]> (objects self)) r'
                     = url_of (objects self) r').
  { intros r'. by apply (url_of_insert _ _ p). }
  destruct H as [H1 H2 H3].
  assert (H' : linked (with_objects (<[r := with_success now p]> (objects self)) self)).
  { split; cbn; rewrite ?length_insert; [done..|].
    intros r' Hr'. destruct (H3 r' Hr') as (r'' & ? & E). exists r''.
    split; [done|]. by rewrite !Hu. }
  cbn zeta. case_bool_decide; [done|].
  destruct H' as [H1' H2' H3']. split; cbn in *; [done|..].
  - apply Forall_app. split; [done|]. apply Forall_singleton.
    rewrite Forall_forall in H1'. by apply H1'.
  - intros r' [Hr'|Hr']%elem_of_app; [by apply H3'|].
    apply list_elem_of_singleton in Hr' as ->. by exists r.
Qed.

Lemma linked_init now cached use timeout retries interval file :
  linked (__init__ now cached use timeout retries interval file).
Proof.
  unfold __init__, _load_cached_proxies. split; cbn.
  - apply Forall_forall. intros r Hr%elem_of_seq. lia.
  - apply Forall_forall. intros r [_ Hr%elem_of_seq]%list_elem_of_filter. lia.
  - intros r [_ Hr]%list_elem_of_filter. by exists r.
Qed.

Lemma linked_run cs : ∀ self, linked self → linked (run cs self).
Proof.
  induction cs as [|c cs IH]; intros self H; [done|]. cbn. apply IH.
  destruct c; cbn [step];
    auto using linked_get_proxy, linked_failed, linked_success, linked_initialize.
Qed.

Lemma find_proxy_is_Some o u l r :
  r ∈ l → url_of o r = Some u → is_Some (find_proxy o u l).
Proof.
  intros Hr Hu. induction l as [|r0 l IH]; [by apply elem_of_nil in Hr|].
  cbn. apply elem_of_cons in Hr as [<-|Hr].
  - unfold url_of in Hu. destruct (o !! r) as [p|]; [|done]. cbn in Hu.
    injection Hu as ->. by rewrite String.eqb_refl.
  - destruct (o !! r0) as [p0|]; [|by apply IH]. destruct (String.eqb _ _); [done|by apply IH].
Qed.

Lemma get_proxy_use_proxies w self :
  use_proxies (snd (get_proxy w self)) = use_proxies self.
Proof.
  unfold get_proxy. destruct (use_proxies self) eqn:Hu; [|done]. cbn [negb].
  set (s1 := if _should_rotate (now_checked w) self then _ else _).
  assert (H1 : use_proxies s1 = true).
  { unfold s1. destruct (_should_rotate (now_checked w) self); [|done].
    unfold _rotate_proxies. by destruct (10 <=? _)%nat. }
  destruct (working_proxies s1); [done|]. by destruct (choice _ _).
Qed.

(** X16. A returned proxy is a known proxy.  On a manager after any calls,
    a url that [get_proxy] returns is the url of a proxy in [self.proxies],
    so that [mark_proxy_failed] and [mark_proxy_success] for that url find
    their proxy. *)
Theorem returned_proxy_is_known
    (now : Z) (cached : list Proxy) (use : bool) (timeout retries interval : Z)
    (file : string) (cs : list call) (w : world) (u : string) :
  let self := run cs (__init__ now cached use timeout retries interval file) in
  fst (get_proxy w self) = Some u →
  let self' := snd (get_proxy w self) in
  ∃ r p, find_proxy (objects self') u (proxies self') = Some (r, p)
    ∧ url p = u
    ∧ fail_count (snd (default (r, p)
        (find_proxy (objects (mark_proxy_failed u self')) u
           (proxies (mark_proxy_failed u self'))))) = fail_count p + 1.
Proof.
  intros self Hg self'.
  assert (Hl : linked self').
  { apply linked_get_proxy, linked_run, linked_init. }
  destruct (get_proxy_Some w self u Hg) as (Hu & r0 & Hin & Hr0 & _).
  fold self' in Hin, Hr0.
  destruct (linked_known _ Hl r0 Hin) as (r' & Hr' & E).
  destruct (find_proxy_is_Some (objects self') u (proxies self') r' Hr') as [[r p] Hf];
    [congruence|].
  exists r, p. split; [done|]. split; [by apply find_proxy_Some in Hf as (_ & ? & _)|].
  assert (Hu' : use_proxies self' = true).
  { unfold self'. by rewrite get_proxy_use_proxies. }
  destruct (mark_proxy_failed_known u self' r p Hu' Hf) as (_ & _ & _ & _ & -> & _).
  done.
Qed.

Lemma returned_proxy_is_known_witness :
  let u := "http://10.0.0.1:80" in
  let p := {| url := u; protocol := "http"; ip := "10.0.0.1";
              port := 80; country := None; anonymity := None; speed := None;
              last_checked := None; is_working := true; fail_count := 0;
              success_count := 0 |} in
  let w := {| now_checked := 1; now_rotated := 1; now_validated := 2;
              shuffle_draws := λ _, 0%nat; fetched := [p]; passed := [0%nat];
              choice_draw := 1 |} in
  let self := run [MarkProxySuccess 1 u] (__init__ 0 [p] true 10 3 300 "proxy_cache.json") in
  let self' := snd (get_proxy w self) in
  fst (get_proxy w self) = Some u
  ∧ ∃ r q, find_proxy (objects self') u (proxies self') = Some (r, q)
      ∧ url q = u
      ∧ fail_count (snd (default (r, q)
          (find_proxy (objects (mark_proxy_failed u self')) u
             (proxies (mark_proxy_failed u self'))))) = fail_count q + 1.
Proof.
  intros u p w self self'. split; [by vm_compute|].
  apply (returned_proxy_is_known 0 [p] true 10 3 300 "proxy_cache.json"
           [MarkProxySuccess 1 u] w u). by vm_compute.
Defined.

End proxies_linked.

Section proxies_counts.
Import ProxyManager.

Lemma find_proxy_agree o o' u l r p :
  find_proxy o u l = Some (r, p) →
  (∀ r', r' ∈ l → url_of o' r' = url_of o r') →
  ∃ p', find_proxy o' u l = Some (r, p') ∧ o' !! r = Some p'.
Proof.
  induction l as [|r0 l IH]; [done|]. cbn. intros Hf Hu.
  assert (Hu0 : url_of o' r0 = url_of o r0) by (apply Hu; left).
  assert (IH' : find_proxy o u l = Some (r, p) →
                ∃ p', find_proxy o' u l = Some (r, p') ∧ o' !! r = Some p').
  { intros H. apply IH; [done|]. intros r' Hr'. apply Hu. by right. }
  unfold url_of in Hu0.
  destruct (o !! r0) as [p0|], (o' !! r0) as [p0'|] eqn:E'; cbn in Hu0; try done.
  - injection Hu0 as ->. destruct (String.eqb (url p0) u); [|by apply IH'].
    injection Hf as <- <-. by exists p0'.
  - by apply IH'.
Qed.

Lemma find_proxy_app o u l l' r p :
  find_proxy o u l = Some (r, p) → find_proxy o u (l ++ l') = Some (r, p).
Proof.
  induction l as [|r0 l IH]; [done|]. cbn.
  destruct (o !! r0) as [p0|]; [|done]. by destruct (String.eqb (url p0) u).
Qed.

Lemma find_proxy_unique o u l : ∀ seen,
  u ∉ seen → find_proxy o u (unique_proxies o seen l) = find_proxy o u l.
Proof.
  induction l as [|r0 l IH]; intros seen Hs; [done|]. cbn.
  destruct (o !! r0) as [p0|] eqn:E0; [|by apply IH].
  case_bool_decide as Hin.
  - destruct (String.eqb (url p0) u) eqn:Eu; [|by apply IH].
    apply String.eqb_eq in Eu. by subst.
  - cbn. rewrite E0. destruct (String.eqb (url p0) u) eqn:Eu; [done|].
    apply IH. rewrite elem_of_union, elem_of_singleton.
    apply String.eqb_neq in Eu. intros [|]; congruence.
Qed.

Lemma tracked_fetch u r f s fetched self :
  tracked u r f s self → tracked u r f s (_fetch_proxies fetched self).
Proof.
  intros (Hu & Hl & p & Hf & Hc & Hs). split; [done|]. split; [by apply linked_fetch|].
  unfold _fetch_proxies. cbn.
  rewrite find_proxy_unique by apply not_elem_of_empty.
  pose proof (linked_proxies _ Hl) as Hlt. rewrite Forall_forall in Hlt.
  destruct (find_proxy_agree (objects self) (objects self ++ fetched) u (proxies self) r p Hf)
    as (p' & Hf' & Hp').
  { intros r' Hr'. by apply url_of_app, Hlt. }
  apply find_proxy_Some in Hf as (Hr & _ & Hin).
  rewrite (lookup_app_l_Some _ _ _ _ Hr) in Hp'. injection Hp' as <-.
  exists p. split; [|done]. by apply find_proxy_app.
Qed.

Lemma tracked_validate u r f s now passed self :
  tracked u r f s self → tracked u r f s (_validate_proxies now passed self).
Proof.
  intros (Hu & Hl & p & Hf & Hc & Hs). split; [done|].
  split; [by apply linked_validate|].
  unfold _validate_proxies. cbn.
  set (passed' := remove_dups (filter (λ r, r ∈ proxies self) passed)).
  destruct (find_proxy_agree (objects self)
              (imap (λ r p, if bool_decide (r ∈ proxies self)
                            then with_validation now (bool_decide (r ∈ passed')) p else p)
                 (objects self)) u (proxies self) r p Hf) as (p' & Hf' & Hp').
  { intros r' _. apply (url_of_validated now (λ r, bool_decide (r ∈ passed'))
                          (λ r, bool_decide (r ∈ proxies self))). }
  exists p'. split; [done|]. apply find_proxy_Some in Hf as (Hr & _ & _).
  rewrite list_lookup_imap, Hr in Hp'. cbn in Hp'. injection Hp' as <-.
  by case_bool_decide.
Qed.

Lemma tracked_get_proxy u r f s w self :
  tracked u r f s self → tracked u r f s (snd (get_proxy w self)).
Proof.
  intros H. pose proof H as (Hu & Hl & p & Hf & Hc & Hs).
  split; [by rewrite get_proxy_use_proxies|]. split; [by apply linked_get_proxy|].
  unfold get_proxy. rewrite Hu. cbn [negb].
  set (s1 := if _should_rotate (now_checked w) self then _ else _).
  assert (H1 : ∃ p, find_proxy (objects s1) u (proxies s1) = Some (r, p)
                    ∧ fail_count p = f ∧ success_count p = s).
  { unfold s1. destruct (_should_rotate (now_checked w) self); [|by exists p].
    unfold _rotate_proxies. destruct (10 <=? _)%nat; [by exists p|].
    apply (tracked_validate u r f s), tracked_fetch.
    split; [done|]. split; [by destruct Hl|]. by exists p. }
  destruct (working_proxies s1); [done|]. by destruct (choice _ _).
Qed.

Lemma tracked_initialize u r f s now fetched passed self :
  tracked u r f s self → tracked u r f s (initialize now fetched passed self).
Proof.
  intros H. unfold initialize. destruct (use_proxies self); [|done].
  by apply tracked_validate, tracked_fetch.
Qed.

(** [mark_proxy_success] on the url of a known proxy. *)
Lemma mark_proxy_success_known now u self r p :
  use_proxies self = true →
  find_proxy (objects self) u (proxies self) = Some (r, p) →
  let self' := mark_proxy_success now u self in
  use_proxies self' = true
  ∧ proxies self' = proxies self
  ∧ objects self' = <[r := with_success now p]> (objects self)
  ∧ find_proxy (objects self') u (proxies self') = Some (r, with_success now p).
Proof.
  intros Hu Hf. unfold mark_proxy_success. rewrite Hu, Hf. cbn.
  pose proof (find_proxy_insert _ _ _ _ _ (with_success now p) Hf eq_refl) as Hf'.
  by case_bool_decide.
Qed.

(** A field written through the proxy of another url. *)
Lemma find_proxy_other o u v l r p r2 p2 p2' :
  find_proxy o u l = Some (r, p) → find_proxy o v l = Some (r2, p2) → u ≠ v →
  url p2' = url p2 →
  find_proxy (<[r2 := p2']> o) u l = Some (r, p).
Proof.
  intros Hf Hf2 Hne Hu.
  pose proof (find_proxy_Some _ _ _ _ _ Hf) as (Hr & Hp & _).
  pose proof (find_proxy_Some _ _ _ _ _ Hf2) as (Hr2 & Hp2 & _).
  destruct (find_proxy_agree o (<[r2 := p2']> o) u l r p Hf) as (p' & Hf' & Hp').
  { intros r' _. by apply (url_of_insert _ _ p2). }
  rewrite list_lookup_insert_ne in Hp' by congruence. congruence.
Qed.

Lemma tracked_failed u r f s v self :
  tracked u r f s self →
  tracked u r (f + if String.eqb v u then 1 else 0) s (mark_proxy_failed v self).
Proof.
  intros (Hu & Hl & p & Hf & Hc & Hs).
  assert (Hu' : use_proxies (mark_proxy_failed v self) = true).
  { unfold mark_proxy_failed. rewrite Hu. cbn [negb].
    destruct (find_proxy _ v _) as [[r2 p2]|]; [|done]. cbn zeta. by destruct (_ <=? _). }
  split; [done|]. split; [by apply linked_failed|].
  destruct (String.eqb v u) eqn:E.
  - apply String.eqb_eq in E as ->.
    destruct (mark_proxy_failed_known u self r p Hu Hf) as (_ & _ & _ & _ & Hf' & _).
    exists (with_failure p). split; [done|]. cbn. split; [lia|done].
  - apply String.eqb_neq in E.
    destruct (find_proxy (objects self) v (proxies self)) as [[r2 p2]|] eqn:Hf2.
    + destruct (mark_proxy_failed_known v self r2 p2 Hu Hf2) as (_ & _ & -> & -> & _).
      exists p. split; [|split; [lia|done]].
      by apply (find_proxy_other _ u v _ r p r2 p2).
    + unfold mark_proxy_failed. rewrite Hu, Hf2. cbn. exists p. split; [done|].
      split; [lia|done].
Qed.

Lemma tracked_success u r f s now v self :
  tracked u r f s self →
  tracked u r f (s + if String.eqb v u then 1 else 0) (mark_proxy_success now v self).
Proof.
  intros (Hu & Hl & p & Hf & Hc & Hs).
  assert (Hu' : use_proxies (mark_proxy_success now v self) = true).
  { unfold mark_proxy_success. rewrite Hu. cbn [negb].
    destruct (find_proxy _ v _) as [[r2 p2]|]; [|done]. cbn zeta. by case_bool_decide. }
  split; [done|]. split; [by apply linked_success|].
  destruct (String.eqb v u) eqn:E.
  - apply String.eqb_eq in E as ->.
    destruct (mark_proxy_success_known now u self r p Hu Hf) as (_ & _ & _ & Hf').
    exists (with_success now p). split; [done|]. cbn. split; [done|lia].
  - apply String.eqb_neq in E.
    destruct (find_proxy (objects self) v (proxies self)) as [[r2 p2]|] eqn:Hf2.
    + destruct (mark_proxy_success_known now v self r2 p2 Hu Hf2) as (_ & -> & -> & _).
      exists p. split; [|split; [done|lia]].
      by apply (find_proxy_other _ u v _ r p r2 p2).
    + unfold mark_proxy_success. rewrite Hu, Hf2. cbn. exists p. split; [done|].
      split; [done|lia].
Qed.

Lemma failures_of_cons u c cs :
  failures_of u (c :: cs) = (if is_failure_of u c then 1 else 0) + failures_of u cs.
Proof.
  unfold failures_of. rewrite filter_cons. destruct (is_failure_of u c).
  - rewrite decide_True by done. cbn [length]. lia.
  - rewrite decide_False by done. lia.
Qed.

Lemma successes_of_cons u c cs :
  successes_of u (c :: cs) = (if is_success_of u c then 1 else 0) + successes_of u cs.
Proof.
  unfold successes_of. rewrite filter_cons. destruct (is_success_of u c).
  - rewrite decide_True by done. cbn [length]. lia.
  - rewrite decide_False by done. lia.
Qed.

Lemma tracked_run u r cs : ∀ f s self,
  tracked u r f s self →
  tracked u r (f + failures_of u cs) (s + successes_of u cs) (run cs self).
Proof.
  induction cs as [|c cs IH]; intros f s self H.
  { unfold failures_of, successes_of. cbn. by rewrite !Z.add_0_r. }
  rewrite failures_of_cons, successes_of_cons, !Z.add_assoc.
  change (run (c :: cs) self) with (run cs (step c self)). apply IH.
  destruct c as [w|v|now v|now fetched passed]; cbn [step is_failure_of is_success_of];
    rewrite ?Z.add_0_r.
  - by apply tracked_get_proxy.
  - by apply tracked_failed.
  - by apply tracked_success.
  - by apply tracked_initialize.
Qed.

Lemma step_use_proxies c self : use_proxies (step c self) = use_proxies self.
Proof.
  destruct c as [w|v|t v|t fetched passed]; cbn [step].
  - apply get_proxy_use_proxies.
  - unfold mark_proxy_failed. destruct (use_proxies self) eqn:Hs; [|done]. cbn [negb].
    destruct (find_proxy _ v _) as [[r2 p2]|]; [|done]. cbn zeta. by destruct (_ <=? _).
  - unfold mark_proxy_success. destruct (use_proxies self) eqn:Hs; [|done]. cbn [negb].
    destruct (find_proxy _ v _) as [[r2 p2]|]; [|done]. cbn zeta. by case_bool_decide.
  - unfold initialize. by destruct (use_proxies self) eqn:Hs.
Qed.

Lemma run_use_proxies cs : ∀ self, use_proxies (run cs self) = use_proxies self.
Proof.
  induction cs as [|c cs IH]; intros self; [done|].
  change (run (c :: cs) self) with (run cs (step c self)).
  by rewrite IH, step_use_proxies.
Qed.

(** X17. The counts of a proxy are cumulative.  On a manager that uses
    proxies, after any calls, the proxy found under a url stays the one
    found under it through every later call ([get_proxy] with its rotation,
    fetching and checks, [initialize], and the marks for any url); its
    [fail_count] is what it was plus the number of the calls
    [mark_proxy_failed] for the url, and its [success_count] what it was plus
    the number of the calls [mark_proxy_success] for it: a success takes no
    failure back. *)
Theorem proxy_counts_are_cumulative
    (now : Z) (cached : list Proxy) (timeout retries interval : Z) (file : string)
    (before after : list call) (u : string) (r : nat) (p : Proxy) :
  let self := run before (__init__ now cached true timeout retries interval file) in
  find_proxy (objects self) u (proxies self) = Some (r, p) →
  let self' := run after self in
  ∃ p', find_proxy (objects self') u (proxies self') = Some (r, p')
    ∧ url p' = u
    ∧ fail_count p' = fail_count p + failures_of u after
    ∧ success_count p' = success_count p + successes_of u after.
Proof.
  intros self Hf self'.
  assert (Hu : use_proxies self = true) by (unfold self; by rewrite run_use_proxies).
  assert (Ht : tracked u r (fail_count p) (success_count p) self).
  { split; [done|]. split; [apply linked_run, linked_init|]. by exists p. }
  destruct (tracked_run u r after _ _ _ Ht) as (_ & _ & p' & Hf' & Hc & Hs).
  exists p'. split; [done|]. split; [|done].
  by apply find_proxy_Some in Hf' as (_ & ? & _).
Qed.

Lemma proxy_counts_are_cumulative_witness :
  let u := "http://10.0.0.1:80" in
  let p := {| url := u; protocol := "http"; ip := "10.0.0.1";
              port := 80; country := None; anonymity := None; speed := None;
              last_checked := None; is_working := true; fail_count := 0;
              success_count := 0 |} in
  let self := run [] (__init__ 0 [p] true 10 3 300 "proxy_cache.json") in
  let after := [MarkProxyFailed u; MarkProxySuccess 5 u; MarkProxyFailed u] in
  let self' := run after self in
  find_proxy (objects self) u (proxies self) = Some (0%nat, p)
  ∧ failures_of u after = 2
  ∧ ∃ p', find_proxy (objects self') u (proxies self') = Some (0%nat, p')
      ∧ url p' = u
      ∧ fail_count p' = fail_count p + failures_of u after
      ∧ success_count p' = success_count p + successes_of u after.
Proof.
  intros u p self after self'. split; [done|]. split; [done|].
  by apply (proxy_counts_are_cumulative 0 [p] 10 3 300 "proxy_cache.json" [] after u 0%nat p).
Defined.

End proxies_counts.

Section proxies_restored.
Import ProxyManager.

(** The manager after a failure that reaches the threshold. *)
Lemma mark_proxy_failed_evicts u self r p :
  use_proxies self = true →
  find_proxy (objects self) u (proxies self) = Some (r, p) →
  max_proxy_retries self ≤ fail_count p + 1 →
  let self' := mark_proxy_failed u self in
  (Some u ∉ working_urls self') ∧ u ∈ failed_proxies self'.
Proof.
  intros Hu Hf Hm. unfold mark_proxy_failed. rewrite Hu, Hf. cbn.
  rewrite (proj2 (Z.leb_le _ _) Hm). cbn. split.
  - unfold working_urls. cbn. intros (r' & Hr' & Hin)%list_elem_of_fmap.
    apply without_url_spec in Hin as [_ Hin]. by apply Hin.
  - apply elem_of_union. left. by apply elem_of_singleton.
Qed.

Lemma filter_none {A} (P : A → Prop) `{∀ x, Decision (P x)} (l : list A) :
  Forall (λ x, ¬ P x) l → filter P l = [].
Proof.
  induction 1 as [|x l Hx Hl IH]; [done|]. by rewrite filter_cons, decide_False, IH.
Qed.

(** X18. A success puts an evicted proxy back.  After the failures that
    evicted the proxy of a url, one [mark_proxy_success] for the url puts it
    back into the working subset, once, although the url stays in
    [failed_proxies] and the failure count stays at the threshold or above:
    the next single failure evicts it again. *)
Theorem success_restores_evicted_proxy
    (self : t) (u : string) (n : nat) (r : nat) (p : Proxy) (now : Z) :
  use_proxies self = true →
  find_proxy (objects self) u (proxies self) = Some (r, p) →
  0 ≤ fail_count p →
  (1 ≤ n)%nat →
  max_proxy_retries self ≤ Z.of_nat n →
  let evicted := Nat.iter n (mark_proxy_failed u) self in
  let back := mark_proxy_success now u evicted in
  (Some u ∉ working_urls evicted)
  ∧ filter (λ x, x = Some u) (working_urls back) = [Some u]
  ∧ u ∈ failed_proxies back
  ∧ (Some u ∉ working_urls (mark_proxy_failed u back)).
Proof.
  intros Hu Hf Hc Hn Hmax evicted back.
  destruct n as [|n]; [lia|].
  destruct (mark_proxy_failed_iter u self r p n Hu Hf) as (Hu1 & Hm1 & p1 & Hf1 & Hc1).
  assert (Hev : (Some u ∉ working_urls evicted) ∧ u ∈ failed_proxies evicted).
  { unfold evicted. rewrite Nat.iter_succ. apply (mark_proxy_failed_evicts u _ r p1); [done..|].
    lia. }
  destruct Hev as [Hev Hfa].
  destruct (mark_proxy_failed_iter u self r p (S n) Hu Hf) as (Hu2 & Hm2 & p2 & Hf2 & Hc2).
  fold evicted in Hu2, Hm2, Hf2. clear Hu1 Hm1 Hf1 Hc1 p1. clearbody evicted.
  assert (Hback : working_proxies back = working_proxies evicted ++ [r]
                  ∧ objects back = <[r := with_success now p2]> (objects evicted)
                  ∧ failed_proxies back = failed_proxies evicted
                  ∧ max_proxy_retries back = max_proxy_retries evicted).
  { unfold back, mark_proxy_success. rewrite Hu2, Hf2. cbn.
    rewrite bool_decide_eq_false_2; [done|].
    unfold working_urls in Hev. intros Hin. apply Hev.
    apply list_elem_of_fmap in Hin as (r' & Hr' & Hin). apply list_elem_of_fmap.
    exists r'. split; [|done]. rewrite Hr'.
    apply find_proxy_Some in Hf2 as (Hr2 & _ & _).
    by apply (url_of_insert _ _ p2). }
  destruct Hback as (Hw & Ho & Hfp & Hmb).
  destruct (mark_proxy_success_known now u evicted r p2 Hu2 Hf2) as (Hu3 & _ & _ & Hf3).
  fold back in Hu3, Hf3.
  split; [done|]. split; [|split].
  - unfold working_urls. rewrite Hw, fmap_app, filter_app.
    assert (Hur : ∀ r', url_of (objects back) r' = url_of (objects evicted) r').
    { intros r'. rewrite Ho. apply find_proxy_Some in Hf2 as (Hr2 & _ & _).
      by apply (url_of_insert _ _ p2). }
    assert (Hnone : filter (λ x, x = Some u) (url_of (objects back) <$> working_proxies evicted)
                    = []).
    { apply filter_none, Forall_forall.
      intros x (r' & -> & Hin)%list_elem_of_fmap E. apply Hev. unfold working_urls.
      apply list_elem_of_fmap. exists r'. split; [|done]. by rewrite <- Hur. }
    rewrite Hnone. cbn. apply find_proxy_Some in Hf3 as (Hr3 & Hp3 & _).
    unfold url_of. rewrite Hr3. cbn in Hp3 |- *. rewrite Hp3. by rewrite decide_True.
  - by rewrite Hfp.
  - apply (mark_proxy_failed_evicts u back r (with_success now p2)); [done..|].
    cbn. rewrite Hmb, Hm2. lia.
Qed.

Lemma success_restores_evicted_proxy_witness :
  let u := "http://10.0.0.1:80" in
  let p := {| url := u; protocol := "http"; ip := "10.0.0.1";
              port := 80; country := None; anonymity := None; speed := None;
              last_checked := None; is_working := true; fail_count := 0;
              success_count := 0 |} in
  let self := __init__ 0 [p] true 10 3 300 "proxy_cache.json" in
  let evicted := Nat.iter 3 (mark_proxy_failed u) self in
  let back := mark_proxy_success 9 u evicted in
  use_proxies self = true
  ∧ find_proxy (objects self) u (proxies self) = Some (0%nat, p)
  ∧ 0 ≤ fail_count p
  ∧ (1 ≤ 3)%nat
  ∧ max_proxy_retries self ≤ Z.of_nat 3
  ∧ (Some u ∉ working_urls evicted)
  ∧ filter (λ x, x = Some u) (working_urls back) = [Some u]
  ∧ u ∈ failed_proxies back
  ∧ (Some u ∉ working_urls (mark_proxy_failed u back)).
Proof.
  intros u p self evicted back.
  split; [done|]. split; [done|]. split; [done|]. split; [lia|]. split; [done|].
  apply (success_restores_evicted_proxy self u 3 0%nat p 9); [done|done|done|lia|done].
Defined.

End proxies_restored.

(** ** Eviction and the next validation *)

Section proxies_evicted.
Import ProxyManager.

Lemma linked_failed_iter u n self :
  linked self → linked (Nat.iter n (mark_proxy_failed u) self).
Proof.
  intros H. induction n as [|n IH]; [done|]. rewrite Nat.iter_succ. by apply linked_failed.
Qed.

(** A proxy that the duplicate removal keeps has a url not seen before. *)
Lemma unique_proxies_unseen o l r : ∀ seen,
  r ∈ unique_proxies o seen l → ∃ p, o !! r = Some p ∧ url p ∉ seen.
Proof.
  induction l as [|r0 l IH]; intros seen; [by intros ?%elem_of_nil|].
  cbn [unique_proxies].
  destruct (o !! r0) as [p0|] eqn:E0; [case_bool_decide as Hs|].
  - apply IH.
  - intros [->|Hin]%elem_of_cons; [by exists p0|].
    destruct (IH _ Hin) as (q & Hq & Hn). exists q. split; [done|].
    intros H. apply Hn, elem_of_union. by right.
  - apply IH.
Qed.

(** Of the proxies of a url the duplicate removal keeps the one that the
    loop of [mark_proxy_failed] finds, and no other. *)
Lemma unique_proxies_first o u l r p : ∀ seen,
  u ∉ seen → find_proxy o u l = Some (r, p) →
  r ∈ unique_proxies o seen l
  ∧ ∀ r', r' ∈ unique_proxies o seen l → url_of o r' = Some u → r' = r.
Proof.
  induction l as [|r0 l IH]; intros seen Hs; [done|]. cbn [find_proxy unique_proxies].
  destruct (o !! r0) as [p0|] eqn:E0; [|by apply IH].
  destruct (String.eqb (url p0) u) eqn:Eu.
  - apply String.eqb_eq in Eu. intros [= <- <-]. subst u.
    rewrite bool_decide_eq_false_2 by done. split; [left|].
    intros r' [->|Hin]%elem_of_cons Hu; [done|].
    destruct (unique_proxies_unseen _ _ _ _ Hin) as (q & Hq & Hn).
    unfold url_of in Hu. rewrite Hq in Hu. injection Hu as Hu.
    exfalso. apply Hn, elem_of_union. left. by apply elem_of_singleton.
  - apply String.eqb_neq in Eu. intros Hf. case_bool_decide as Hin0.
    + by apply IH.
    + destruct (IH ({[url p0]} ∪ seen)) as [H1 H2]; [|done|].
      { rewrite elem_of_union, elem_of_singleton. intros [|]; congruence. }
      split; [by right|]. intros r' [->|Hin]%elem_of_cons Hu; [|by apply H2].
      unfold url_of in Hu. rewrite E0 in Hu. injection Hu as Hu. congruence.
Qed.

(** The working subset after [_fetch_proxies] and [_validate_proxies], for
    the url of a proxy that was not in it: the url is in it again when the
    first proxy of that url passes, and only then. *)
Lemma revalidated_working now fetched passed u r p self :
  linked self →
  find_proxy (objects self) u (proxies self) = Some (r, p) →
  Forall (λ r', url_of (objects self) r' ≠ Some u) (working_proxies self) →
  let self' := _validate_proxies now passed (_fetch_proxies fetched self) in
  (∀ r', url_of (objects self') r' = url_of (objects self ++ fetched) r')
  ∧ url_of (objects self') r = Some u
  ∧ (∀ r', r' ∈ working_proxies self' → url_of (objects self') r' = Some u →
           r' = r ∧ r ∈ passed)
  ∧ (r ∈ passed → r ∈ working_proxies self').
Proof.
  intros Hl Hf Hall. unfold _validate_proxies, _fetch_proxies. cbn.
  set (o' := objects self ++ fetched).
  set (l := proxies self ++ seq (length (objects self)) (length fetched)).
  set (l' := unique_proxies o' ∅ l).
  set (passed' := remove_dups (filter (λ r, r ∈ l') passed)).
  assert (Hu : ∀ r', url_of (imap (λ r p, if bool_decide (r ∈ l')
                       then with_validation now (bool_decide (r ∈ passed')) p else p) o') r'
                     = url_of o' r').
  { intros r'. apply (url_of_validated now (λ r, bool_decide (r ∈ passed'))
                        (λ r, bool_decide (r ∈ l'))). }
  pose proof (linked_proxies _ Hl) as Hlt. rewrite Forall_forall in Hlt.
  pose proof (linked_working _ Hl) as Hwt. rewrite Forall_forall in Hwt.
  assert (Hf' : find_proxy o' u l = Some (r, p)).
  { destruct (find_proxy_agree (objects self) o' u (proxies self) r p Hf) as (p' & Hf' & Hp').
    { intros r' Hr'. by apply url_of_app, Hlt. }
    pose proof (find_proxy_Some _ _ _ _ _ Hf) as (Hr & _ & _).
    unfold o' in Hp'. rewrite (lookup_app_l_Some _ _ _ _ Hr) in Hp'. injection Hp' as <-.
    by apply find_proxy_app. }
  destruct (unique_proxies_first o' u l r p ∅ (not_elem_of_empty u) Hf') as [Hin Honly].
  fold l' in Hin, Honly.
  assert (Hur : url_of o' r = Some u).
  { apply find_proxy_Some in Hf' as (Hr & Hp & _). unfold url_of. rewrite Hr. cbn. by f_equal. }
  split; [done|]. split; [by rewrite Hu|]. split.
  - intros r' [Hr'|Hr']%elem_of_app Hurl; rewrite Hu in Hurl.
    + exfalso. rewrite Forall_forall in Hall. apply (Hall r' Hr').
      unfold o' in Hurl. by rewrite url_of_app in Hurl by by apply Hwt.
    + unfold passed' in Hr'. apply elem_of_remove_dups, list_elem_of_filter in Hr' as [Hk Hp].
      assert (r' = r) as -> by by apply Honly. done.
  - intros Hp. apply elem_of_app. right. unfold passed'.
    by apply elem_of_remove_dups, list_elem_of_filter.
Qed.

(** C8. A manager that uses proxies, a url under which it knows a proxy
    whose failure count is not negative, and [n] calls of [mark_proxy_failed]
    for that url in a row, at least one and at least [max_proxy_retries].
    After them no proxy of the working subset has the url, and a [get_proxy]
    that does not fetch and check the proxies again never returns it.  On a
    manager whose references all have their objects, whatever the clock and
    the pool: a [get_proxy] never returns the url in a world in which the
    proxy that failed does not pass, so in every world in which no proxy
    that passes has the url; and when [get_proxy] fetches and checks the
    proxies again and the proxy passes, there is a draw of [random.choice]
    with which it returns the url. *)
Theorem failed_proxy_leaves_working_subset
    (self : t) (u : string) (n : nat) (r : nat) (p : Proxy) :
  use_proxies self = true →
  find_proxy (objects self) u (proxies self) = Some (r, p) →
  0 ≤ fail_count p →
  (1 ≤ n)%nat →
  max_proxy_retries self ≤ Z.of_nat n →
  let self' := Nat.iter n (mark_proxy_failed u) self in
  (Some u ∉ working_urls self')
  ∧ (∀ w, revalidates w self' = false → fst (get_proxy w self') ≠ Some u)
  ∧ (linked self →
     ∀ w, (r ∉ passed w → fst (get_proxy w self') ≠ Some u)
        ∧ (Forall (λ r', url_of (objects self' ++ fetched w) r' ≠ Some u) (passed w) →
           fst (get_proxy w self') ≠ Some u)
        ∧ (revalidates w self' = true → r ∈ passed w →
           ∃ d, fst (get_proxy (with_choice_draw d w) self') = Some u)).
Proof.
  intros Hu Hf Hc Hn Hmax self'.
  assert (Hall : Forall (λ r, url_of (objects self') r ≠ Some u) (working_proxies self')
                 ∧ use_proxies self' = true
                 ∧ ∃ p', find_proxy (objects self') u (proxies self') = Some (r, p')).
  { unfold self'. destruct n as [|n]; [lia|].
    destruct (mark_proxy_failed_iter u self r p (S n) Hu Hf) as (Hu2 & _ & p2 & Hf2 & _).
    rewrite Nat.iter_succ in Hu2, Hf2 |- *.
    destruct (mark_proxy_failed_iter u self r p n Hu Hf) as (Hu' & Hm & p' & Hf' & Hc').
    destruct (mark_proxy_failed_known u _ r p' Hu' Hf') as (? & _ & _ & _ & _ & Hw).
    split; [|split; [done|by exists p2]].
    rewrite Hw. replace (_ <=? _) with true by (symmetry; apply Z.leb_le; lia).
    apply Forall_forall. intros r'. rewrite without_url_spec. tauto. }
  destruct Hall as (Hall & Hu' & p' & Hf').
  assert (Hchoice : ∀ w (s : t),
            Forall (λ r, url_of (objects s) r ≠ Some u) (working_proxies s) →
            fst (match working_proxies s with
                 | [] => (None, s)
                 | _ :: _ =>
                     match choice (choice_draw w) (working_proxies s) with
                     | Some proxy => (url_of (objects s) proxy,
                                      with_current_proxy (Some proxy) s)
                     | None => (None, s)
                     end
                 end) ≠ Some u).
  { intros w s Hs. destruct (working_proxies s) as [|r0 l] eqn:Ew; [done|].
    destruct (choice (choice_draw w) (r0 :: l)) as [r'|] eqn:Ec; [|done]. cbn.
    apply choice_elem_of in Ec. rewrite Forall_forall in Hs. by apply Hs. }
  split; [|split].
  - unfold working_urls. intros Hin. apply list_elem_of_fmap in Hin as (r' & Hr' & Hin).
    rewrite Forall_forall in Hall. by apply (Hall r').
  - intros w Hre. unfold revalidates in Hre. rewrite Hu', andb_true_l in Hre.
    unfold get_proxy. rewrite Hu'. cbn [negb]. apply Hchoice.
    destruct (_should_rotate (now_checked w) self'); [|done].
    rewrite andb_true_l in Hre. apply Nat.ltb_ge in Hre.
    rewrite rotate_proxies_shuffles by done. by apply shuffle_Forall.
  - intros Hl w.
    assert (Hl' : linked self') by by apply linked_failed_iter.
    set (s1 := with_last_rotation (now_rotated w) self').
    destruct (revalidated_working (now_validated w) (fetched w) (passed w) u r p' s1)
      as (Hurl & Hur & Honly & Hback); [by destruct Hl'|done|done|].
    assert (Hnot : r ∉ passed w → fst (get_proxy w self') ≠ Some u).
    { intros Hp. unfold get_proxy. rewrite Hu'. cbn [negb]. apply Hchoice.
      destruct (_should_rotate (now_checked w) self'); [|done].
      unfold _rotate_proxies. fold s1.
      change (working_proxies s1) with (working_proxies self').
      destruct (10 <=? length (working_proxies self'))%nat.
      - cbn. by apply shuffle_Forall.
      - apply Forall_forall. intros r' Hr' E. by destruct (Honly r' Hr' E). }
    split; [done|]. split.
    + intros Hp. apply Hnot. intros Hin. rewrite Forall_forall in Hp.
      apply (Hp r Hin). change (objects self') with (objects s1). by rewrite <- Hurl.
    + intros Hre Hp. unfold revalidates in Hre. rewrite Hu', andb_true_l in Hre.
      apply andb_true_iff in Hre as [Hrot Hlen]. apply Nat.ltb_lt in Hlen.
      specialize (Hback Hp). apply list_elem_of_lookup in Hback as [d Hd]. exists d.
      unfold get_proxy. rewrite Hu'. cbn [negb].
      change (now_checked (with_choice_draw d w)) with (now_checked w). rewrite Hrot.
      unfold _rotate_proxies.
      change (with_last_rotation (now_rotated (with_choice_draw d w)) self') with s1.
      change (working_proxies s1) with (working_proxies self').
      rewrite (proj2 (Nat.leb_gt _ _) Hlen).
      change (now_validated (with_choice_draw d w)) with (now_validated w).
      change (passed (with_choice_draw d w)) with (passed w).
      change (fetched (with_choice_draw d w)) with (fetched w).
      set (s3 := _validate_proxies _ _ _) in *.
      destruct (working_proxies s3) as [|r0 l] eqn:Ew; [done|].
      unfold choice. cbn [choice_draw with_choice_draw].
      rewrite Nat.mod_small by by eapply lookup_lt_Some. by rewrite Hd.
Qed.

Lemma failed_proxy_leaves_working_subset_witness :
  let u := "http://10.0.0.1:8080" in
  let v := "http://10.0.0.2:8080" in
  let q := {| url := v; protocol := "http"; ip := "10.0.0.2"; port := 8080;
              country := None; anonymity := None; speed := None;
              last_checked := None; is_working := false; fail_count := 0;
              success_count := 0 |} in
  let world passed :=
    {| now_checked := Sample.NOW; now_rotated := Sample.NOW;
       now_validated := Sample.NOW; shuffle_draws := λ _, O;
       fetched := [Sample.proxy; q]; passed := passed; choice_draw := O |} in
  use_proxies Sample.manager = true
  ∧ find_proxy (objects Sample.manager) u (proxies Sample.manager)
    = Some (O, Sample.proxy)
  ∧ 0 ≤ fail_count Sample.proxy
  ∧ (1 ≤ 3)%nat
  ∧ max_proxy_retries Sample.manager ≤ Z.of_nat 3
  ∧ linked Sample.manager
  ∧ let self' := Nat.iter 3 (mark_proxy_failed u) Sample.manager in
    revalidates (world [2%nat]) self' = true
    ∧ fst (get_proxy (world [2%nat]) self') = Some v
    ∧ fst (get_proxy (world [O]) self') = Some u
    ∧ (Some u ∉ working_urls self')
    ∧ (∀ w, revalidates w self' = false → fst (get_proxy w self') ≠ Some u)
    ∧ (∀ w, (O ∉ passed w → fst (get_proxy w self') ≠ Some u)
          ∧ (Forall (λ r', url_of (objects self' ++ fetched w) r' ≠ Some u) (passed w) →
             fst (get_proxy w self') ≠ Some u)
          ∧ (revalidates w self' = true → O ∈ passed w →
             ∃ d, fst (get_proxy (with_choice_draw d w) self') = Some u)).
Proof.
  intros u v q world. split; [reflexivity|]. split; [reflexivity|]. split; [done|].
  split; [lia|]. split; [done|]. split; [apply linked_init|].
  split; [reflexivity|]. split; [reflexivity|]. split; [reflexivity|].
  destruct (failed_proxy_leaves_working_subset Sample.manager u 3 O Sample.proxy)
    as (H1 & H2 & H3); [reflexivity|reflexivity|done|lia|done|].
  split; [exact H1|]. split; [exact H2|]. apply H3, linked_init.
Defined.

End proxies_evicted.

(** * More of the request path *)

Section dispatch_more.
Import BaseScraper.

(** What [handle_response] does with a status below 400. *)
Lemma handle_response_ok w proxy status self :
  status < 400 →
  let succeeded := λ rl, snd (RateLimiter.mark_request_success (platform self) rl) in
  let told_limiter := match rate_limiter self with
                      | Some _ => [RateSucceeded (platform self)]
                      | None => []
                      end in
  let tell := match proxy, proxy_manager self with
              | Some p, Some _ => truthy p
              | _, _ => false
              end in
  handle_response w proxy status self
  = (Ok status,
     with_trace (trace self ++ told_limiter
                 ++ if tell then [ProxySucceeded (default "" proxy)] else [])
       (with_proxy_manager
          (if tell then ProxyManager.mark_proxy_success (now_succeeded w) (default "" proxy)
                          <$> proxy_manager self
           else proxy_manager self)
          (with_rate_limiter (succeeded <$> rate_limiter self) self))).
Proof.
  intros Hs. unfold handle_response, tell_rate_limiter, tell_proxy_manager, emit. py_unfold.
  rewrite (proj2 (Z.eqb_neq status 429)) by lia.
  rewrite (proj2 (Z.leb_gt 400 status)) by lia. cbn.
  destruct self as [pl up ur uu mr to mc pm ua rl tr]. cbn.
  destruct rl as [rl|]; cbn.
  - destruct (mark_request_success_spec pl rl) as (rl' & -> & _). cbn.
    destruct proxy as [p|], pm as [pm|]; cbn; rewrite ?app_nil_r, <- ?app_assoc; try done.
    destruct (truthy p); cbn; rewrite ?app_nil_r, <- ?app_assoc; done.
  - destruct proxy as [p|], pm as [pm|]; cbn; rewrite ?app_nil_r; try done.
    destruct (truthy p); cbn; rewrite ?app_nil_r; done.
Qed.

(** What [handle_response] does with a status of 400 or more other than
    429. *)
Lemma handle_response_other w proxy status self :
  400 ≤ status → status ≠ 429 →
  let tell := match proxy, proxy_manager self with
              | Some p, Some _ => truthy p
              | _, _ => false
              end in
  handle_response w proxy status self
  = (Raise (ClientResponseError status),
     with_trace (trace self ++ if tell then [ProxyFailed (default "" proxy)] else [])
       (with_proxy_manager
          (if tell then ProxyManager.mark_proxy_failed (default "" proxy)
                          <$> proxy_manager self
           else proxy_manager self) self)).
Proof.
  intros Hs Hn. unfold handle_response, tell_proxy_manager, emit. py_unfold.
  rewrite (proj2 (Z.eqb_neq status 429)) by lia.
  rewrite (proj2 (Z.leb_le 400 status)) by lia. cbn.
  destruct self as [pl up ur uu mr to mc pm ua rl tr]. cbn.
  destruct proxy as [p|], pm as [pm|]; cbn; rewrite ?app_nil_r; try done.
  destruct (truthy p); cbn; rewrite ?app_nil_r; done.
Qed.

(** X19. A response below 400.  An attempt whose request is answered with a
    status below 400 returns the response; by then, if the scraper has a
    rate limiter, [mark_request_success] was called on it for the platform,
    and, if the request went through a proxy and the scraper has a proxy
    manager, [mark_proxy_success] was called on it for that proxy. *)
Theorem status_below_400_rewards_limiter_and_proxy
    (w : world) (a : args) (self : t) (r : request) (status : Z) :
  fst (prepare w a self) = Ok r →
  transport w r = Ok status →
  status < 400 →
  let ready := snd (prepare w a self) in
  let self' := snd (attempt w a self) in
  fst (attempt w a self) = Ok status
  ∧ (∀ rl, rate_limiter ready = Some rl →
       rate_limiter self'
       = Some (snd (RateLimiter.mark_request_success (platform self) rl))
       ∧ RateSucceeded (platform self) ∈ trace self')
  ∧ (∀ p pm, req_proxy r = Some p → truthy p = true → proxy_manager ready = Some pm →
       proxy_manager self'
       = Some (ProxyManager.mark_proxy_success (now_succeeded w) p pm)
       ∧ ProxySucceeded p ∈ trace self').
Proof.
  intros Hp Ht Hs ready self'. unfold self', attempt, emit. py_unfold.
  pose proof (prepare_platform w a self) as Hpl. fold ready in Hpl.
  subst ready. destruct (prepare w a self) as [r0 ready]. cbn in Hp, Hpl |- *.
  subst r0. rewrite Ht. rewrite handle_response_ok by done. cbn. rewrite Hpl.
  split; [done|]. split.
  - intros rl ->. cbn. split; [done|]. rewrite !elem_of_app. right. left.
  - intros p pm -> Hy ->. rewrite Hy. cbn. split; [done|].
    rewrite !elem_of_app. right. right. left.
Qed.

Lemma status_below_400_rewards_limiter_and_proxy_witness :
  let w := Sample.world 200 in
  let a := Sample.get_page (Some "http://10.0.0.1:8080") in
  let r := Sample.request_of (Some "Mozilla/5.0") (Some "http://10.0.0.1:8080") in
  let self := Sample.scraper in
  fst (prepare w a self) = Ok r
  ∧ transport w r = Ok 200
  ∧ 200 < 400
  ∧ let ready := snd (prepare w a self) in
    let self' := snd (attempt w a self) in
    fst (attempt w a self) = Ok 200
    ∧ (∀ rl, rate_limiter ready = Some rl →
         rate_limiter self'
         = Some (snd (RateLimiter.mark_request_success (platform self) rl))
         ∧ RateSucceeded (platform self) ∈ trace self')
    ∧ (∀ p pm, req_proxy r = Some p → truthy p = true → proxy_manager ready = Some pm →
         proxy_manager self'
         = Some (ProxyManager.mark_proxy_success (now_succeeded w) p pm)
         ∧ ProxySucceeded p ∈ trace self').
Proof.
  intros w a r self. split; [by vm_compute|]. split; [reflexivity|]. split; [lia|].
  apply (status_below_400_rewards_limiter_and_proxy w a self r 200);
    [by vm_compute|reflexivity|lia].
Defined.

(** X20. What is not reported.  On an attempt whose request was sent: an
    error status other than 429 is reported to the proxy manager alone, the
    rate limiter stays as the wait for a slot left it; and an exception of
    the transport, a timeout or a connection error, is reported to neither,
    so that it counts against no proxy.  The attempt raises in both cases. *)
Theorem errors_other_than_429_spare_the_limiter
    (w : world) (a : args) (self : t) (r : request) :
  fst (prepare w a self) = Ok r →
  let ready := snd (prepare w a self) in
  let self' := snd (attempt w a self) in
  (∀ status, transport w r = Ok status → 400 ≤ status → status ≠ 429 →
     fst (attempt w a self) = Raise (ClientResponseError status)
     ∧ rate_limiter self' = rate_limiter ready
     ∧ ∀ p pm, req_proxy r = Some p → truthy p = true → proxy_manager ready = Some pm →
         proxy_manager self' = Some (ProxyManager.mark_proxy_failed p pm))
  ∧ (∀ e, transport w r = Raise e →
       fst (attempt w a self) = Raise e
       ∧ rate_limiter self' = rate_limiter ready
       ∧ proxy_manager self' = proxy_manager ready
       ∧ trace self' = trace ready ++ [Sent r]).
Proof.
  intros Hp ready self'. unfold self', attempt, emit. py_unfold.
  subst ready. destruct (prepare w a self) as [r0 ready]. cbn in Hp |- *. subst r0.
  split.
  - intros status Ht Hs Hn. rewrite Ht. rewrite handle_response_other by done. cbn.
    split; [done|]. split; [done|]. intros p pm -> Hy ->. by rewrite Hy.
  - intros e Ht. by rewrite Ht.
Qed.

Lemma errors_other_than_429_spare_the_limiter_witness :
  let w := Sample.world 503 in
  let a := Sample.get_page (Some "http://10.0.0.1:8080") in
  let r := Sample.request_of (Some "Mozilla/5.0") (Some "http://10.0.0.1:8080") in
  let self := Sample.scraper in
  let ready := snd (prepare w a self) in
  let self' := snd (attempt w a self) in
  fst (prepare w a self) = Ok r
  ∧ transport w r = Ok 503
  ∧ fst (attempt w a self) = Raise (ClientResponseError 503)
  ∧ rate_limiter self' = rate_limiter ready.
Proof.
  intros w a r self ready self'. split; [by vm_compute|]. split; [reflexivity|].
  destruct (errors_other_than_429_spare_the_limiter w a self r) as [H _];
    [by vm_compute|].
  destruct (H 503 eq_refl) as (H1 & H2 & _); [lia|lia|]. by split.
Defined.

End dispatch_more.

Section dispatch_loop.
Import BaseScraper.

Lemma quiet_refl rl : RateLimiter.quiet rl rl.
Proof. by split. Qed.

Lemma quiet_trans rl1 rl2 rl3 :
  RateLimiter.quiet rl1 rl2 → RateLimiter.quiet rl2 rl3 → RateLimiter.quiet rl1 rl3.
Proof. intros [] []; split; intros; congruence. Qed.

Lemma quiet_wait now u p rl :
  RateLimiter.quiet rl (snd (RateLimiter.wait_if_needed now u p rl)).
Proof.
  destruct (wait_if_needed_agree now u p rl) as (r & rl' & -> & A). cbn.
  destruct A. by split.
Qed.

Lemma quiet_failed now p e rl :
  RateLimiter.quiet rl (snd (RateLimiter.mark_request_failed now p e rl)).
Proof.
  pose proof (mark_request_failed_rest now p e rl) as (Hp & Hh & Hb & _).
  destruct (mark_request_failed_spec now p e rl) as (rl' & E & Hl & He & _).
  rewrite E in *. cbn in *. by split.
Qed.

Lemma quiet_success p rl :
  RateLimiter.quiet rl (snd (RateLimiter.mark_request_success p rl)).
Proof.
  destruct (mark_request_success_spec p rl) as (rl' & -> & Hl & He & _ & Hp & Hh & Hb & _).
  cbn. by split.
Qed.

Lemma records_nothing_refl self : records_nothing self self.
Proof.
  unfold records_nothing. destruct (rate_limiter self); constructor. apply quiet_refl.
Qed.

Lemma records_nothing_trans s1 s2 s3 :
  records_nothing s1 s2 → records_nothing s2 s3 → records_nothing s1 s3.
Proof.
  unfold records_nothing. intros H1 H2.
  destruct H1; inversion H2; subst; constructor. by eapply quiet_trans.
Qed.

Lemma sleeps_app l1 l2 : sleeps (l1 ++ l2) = sleeps l1 ++ sleeps l2.
Proof. apply omap_app. Qed.

(** The wait for a slot and the choice of a proxy record no request and
    sleep no retry. *)
Lemma prepare_effect w a self :
  let ready := snd (prepare w a self) in
  sleeps (trace ready) = sleeps (trace self) ∧ records_nothing self ready.
Proof.
  unfold prepare, emit, records_nothing. py_unfold.
  destruct self as [pl up ur uu mr to mc pm ua rl tr]. cbn.
  destruct rl as [rl|]; cbn.
  - pose proof (quiet_wait (now_wait w) (jitter_draw w) pl rl) as Hq.
    destruct (RateLimiter.wait_if_needed _ _ _ rl) as [[slept|e] rl']; cbn in Hq |- *;
      [|split; [done|by constructor]].
    destruct (up && negb (is_set (arg_proxy a))); cbn;
      [|rewrite sleeps_app, app_nil_r; split; [done|by constructor]].
    destruct pm as [pm|]; cbn;
      [|rewrite sleeps_app, app_nil_r; split; [done|by constructor]].
    destruct (ProxyManager.get_proxy _ pm). cbn.
    rewrite !sleeps_app, !app_nil_r. split; [done|by constructor].
  - destruct (up && negb (is_set (arg_proxy a))); cbn; [|split; [done|constructor]].
    destruct pm as [pm|]; cbn; [|split; [done|constructor]].
    destruct (ProxyManager.get_proxy _ pm). cbn.
    rewrite !sleeps_app, !app_nil_r. split; [done|constructor].
Qed.

Lemma handle_response_effect w proxy status self :
  let self' := snd (handle_response w proxy status self) in
  sleeps (trace self') = sleeps (trace self) ∧ records_nothing self self'
  ∧ ∀ s, fst (handle_response w proxy status self) = Ok s → s = status ∧ status < 400.
Proof.
  assert (Hst : status = 429 ∨ (400 ≤ status ∧ status ≠ 429) ∨ status < 400) by lia.
  destruct Hst as [->|[[Hs Hn]|Hs]].
  - rewrite handle_response_429. cbn. rewrite !sleeps_app.
    split; [|split; [|done]].
    + destruct (rate_limiter self); destruct (match proxy with Some _ => _ | None => _ end);
        cbn; by rewrite ?app_nil_r.
    + unfold records_nothing. cbn. destruct (rate_limiter self); constructor.
      apply quiet_failed.
  - rewrite handle_response_other by done. cbn. rewrite !sleeps_app.
    split; [|split; [|done]].
    + destruct (match proxy with Some _ => _ | None => _ end); cbn; by rewrite ?app_nil_r.
    + unfold records_nothing. cbn. destruct (rate_limiter self); constructor.
      apply quiet_refl.
  - rewrite handle_response_ok by done. cbn. rewrite !sleeps_app.
    split; [|split].
    + destruct (rate_limiter self); destruct (match proxy with Some _ => _ | None => _ end);
        cbn; by rewrite ?app_nil_r.
    + unfold records_nothing. cbn. destruct (rate_limiter self); constructor.
      apply quiet_success.
    + by intros s [= <-].
Qed.

Lemma attempt_effect w a self :
  let self' := snd (attempt w a self) in
  sleeps (trace self') = sleeps (trace self) ∧ records_nothing self self'
  ∧ ∀ s, fst (attempt w a self) = Ok s → s < 400.
Proof.
  pose proof (prepare_effect w a self) as [Hs Hr].
  unfold attempt, emit. py_unfold.
  destruct (prepare w a self) as [[r|e] ready]; cbn in Hs, Hr |- *; [|done].
  destruct (transport w r) as [status|e]; cbn.
  - pose proof (handle_response_effect w (req_proxy r) status
                  (with_trace (trace ready ++ [Sent r]) ready)) as (Hs' & Hr' & Hok).
    destruct (handle_response _ _ _ _) as [res s']. cbn in Hs', Hr', Hok |- *.
    rewrite sleeps_app, app_nil_r in Hs'. split; [congruence|].
    split; [by eapply records_nothing_trans|].
    intros s Hres. destruct (Hok s Hres) as [-> ?]. done.
  - rewrite sleeps_app, app_nil_r. done.
Qed.

(** The loop of the decorator, from attempt [n] on. *)
Lemma retry_loop_effect w a more : ∀ n self,
  let out := fst (fst (retry_loop more n w a self)) in
  let last := snd (fst (retry_loop more n w a self)) in
  let self' := snd (retry_loop more n w a self) in
  (n ≤ last ≤ n + more)%nat
  ∧ sleeps (trace self') = sleeps (trace self) ++ (wait_exponential <$> seq n (last - n))
  ∧ records_nothing self self'
  ∧ match out with
    | Returned status => status < 400
    | Raised e => retry_if_exception_type e = false
    | RetryError e => last = (n + more)%nat ∧ retry_if_exception_type e = true
    end.
Proof.
  induction more as [|more IH]; intros n self; cbn [retry_loop].
  - pose proof (attempt_effect (w n) a self) as (Hs & Hr & Hok).
    destruct (attempt (w n) a self) as [[status|e] s']; cbn in Hs, Hr, Hok |- *.
    + rewrite Nat.sub_diag. cbn. rewrite app_nil_r. split; [lia|]. by auto.
    + destruct (retry_if_exception_type e) eqn:E; cbn; rewrite Nat.sub_diag; cbn;
        rewrite app_nil_r; (split; [lia|]); auto.
  - pose proof (attempt_effect (w n) a self) as (Hs & Hr & Hok).
    destruct (attempt (w n) a self) as [[status|e] s']; cbn in Hs, Hr, Hok |- *.
    + rewrite Nat.sub_diag. cbn. rewrite app_nil_r. split; [lia|]. by auto.
    + destruct (retry_if_exception_type e) eqn:E; cbn.
      * specialize (IH (S n) (with_trace (trace s' ++ [Slept (wait_exponential n)]) s')).
        cbn zeta in IH. destruct IH as (Hn & Hs' & Hr' & Hout).
        set (res := retry_loop more (S n) w a _) in *.
        split; [lia|]. split; [|split].
        -- rewrite Hs'. cbn [trace with_trace]. rewrite sleeps_app, Hs. cbn.
           replace (res.1.2 - n)%nat with (S (res.1.2 - S n)) by lia.
           cbn [seq fmap list_fmap]. by rewrite <- app_assoc.
        -- eapply records_nothing_trans; [done|]. done.
        -- destruct res.1.1; [done..|]. destruct Hout. split; [lia|done].
      * rewrite Nat.sub_diag. cbn. rewrite app_nil_r. split; [lia|]. auto.
Qed.

(** X21. How [make_request] ends.  The call makes one, two or three
    attempts.  It returns a response only with a status below 400; it raises
    an exception as it is only when that is neither a [ClientError] (a
    response error among them) nor a timeout; and it ends with [RetryError]
    only after three attempts that each raised one of those.  Between two
    attempts it sleeps 4 seconds, every time. *)
Theorem make_request_outcomes (w : nat → world) (a : args) (self : t) :
  let out := fst (fst (make_request w a self)) in
  let attempts := snd (fst (make_request w a self)) in
  let self' := snd (make_request w a self) in
  (1 ≤ attempts ≤ 3)%nat
  ∧ sleeps (trace self') = sleeps (trace self) ++ replicate (attempts - 1) 4
  ∧ match out with
    | Returned status => status < 400
    | Raised e => retry_if_exception_type e = false
    | RetryError e => attempts = 3%nat ∧ retry_if_exception_type e = true
    end.
Proof.
  unfold make_request, _make_request_with_retry, STOP_AFTER_ATTEMPT.
  change (3 - 1)%nat with 2%nat.
  pose proof (retry_loop_effect w a 2 1 self) as (Hn & Hs & _ & Hout).
  cbn zeta in *. set (res := retry_loop 2 1 w a self) in *.
  split; [lia|]. split.
  - rewrite Hs. f_equal.
    assert (Hk : (res.1.2 - 1 = 0 ∨ res.1.2 - 1 = 1 ∨ res.1.2 - 1 = 2)%nat) by lia.
    by destruct Hk as [->|[->| ->]].
  - destruct res.1.1; [done..|]. destruct Hout. split; [lia|done].
Qed.

(** X22. [make_request] records no request.  Whatever the answers and the
    number of attempts, the rate limiter of the scraper has by the end the
    limits, the request histories, the burst counts and the pending tasks
    that it had: the request path waits for the cooldown and reports
    failures and successes, and never calls [acquire]. *)
Theorem make_request_records_no_request
    (w : nat → world) (a : args) (self : t) (rl : RateLimiter.t) :
  rate_limiter self = Some rl →
  ∃ rl', rate_limiter (snd (make_request w a self)) = Some rl'
    ∧ RateLimiter.rate_limits rl' = RateLimiter.rate_limits rl
    ∧ RateLimiter.pending rl' = RateLimiter.pending rl
    ∧ ∀ p, RateLimiter.history rl' p = RateLimiter.history rl p
           ∧ RateLimiter.burst rl' p = RateLimiter.burst rl p.
Proof.
  intros Hrl. unfold make_request, _make_request_with_retry.
  pose proof (retry_loop_effect w a (STOP_AFTER_ATTEMPT - 1) 1 self) as (_ & _ & Hr & _).
  cbn zeta in Hr. unfold records_nothing in Hr. rewrite Hrl in Hr.
  inversion Hr as [rl0 rl' Hq E1 E2|]; subst. exists rl'. split; [done|].
  destruct Hq as [Hl _ Hp Hh Hb]. split; [done|]. split; [done|].
  intros p. unfold RateLimiter.history, RateLimiter.burst. by rewrite Hh, Hb.
Qed.

Lemma make_request_records_no_request_witness :
  let w := λ _ : nat, Sample.world 429 in
  let a := Sample.get_page None in
  let self := Sample.scraper in
  rate_limiter self = Some RateLimiter.__init__
  ∧ fst (make_request w a self) = (RetryError (ClientResponseError 429), 3%nat)
  ∧ ∃ rl', rate_limiter (snd (make_request w a self)) = Some rl'
      ∧ RateLimiter.rate_limits rl' = RateLimiter.rate_limits RateLimiter.__init__
      ∧ RateLimiter.pending rl' = RateLimiter.pending RateLimiter.__init__
      ∧ ∀ p, RateLimiter.history rl' p = RateLimiter.history RateLimiter.__init__ p
             ∧ RateLimiter.burst rl' p = RateLimiter.burst RateLimiter.__init__ p.
Proof.
  intros w a self. split; [done|]. split; [by vm_compute|].
  by apply (make_request_records_no_request w a self RateLimiter.__init__).
Defined.

End dispatch_loop.
